(** * The timeline layer of the globe view: marker pool, clusters and tooltip

    A shallow embedding of [useTimelineLayer]
    (client/src/app/[site]/globe/hooks/useTimelineLayer.ts): the conversion
    of the active sessions into point features, the expansion of small
    clusters, the reconciliation of the HTML marker pool ([updateMarkers]),
    the tooltip toggling of a marker click, the effect that mounts and tears
    down the layer, and the cluster click handler.

    The rendering surface (Mapbox), React and lodash are collaborators: what
    they answer is an input of the model, what the hook asks of them is part
    of the state (markers on the map, listeners on their elements, the popup,
    the data of the source). *)

From Stdlib Require Import QArith Qcanon Qround Qabs Qpower Ascii Lqa.
From stdpp Require Import numbers strings pretty list fin_maps gmap.

Local Open Scope Z_scope.

(** ** JavaScript values *)

(** The finite JavaScript numbers, as canonical rationals: equality of two
    numbers is equality of their values ([!==] is its negation). *)
Definition number : Type := Qc.

Definition num (n d : Z) : number := Q2Qc (Qmake n (Z.to_pos d)).

(** A longitude and a latitude, in this order (GeoJSON coordinates, and the
    argument of [setLngLat]). *)
Definition LngLat : Type := number * number.

(** Truthiness of a nullable number: [null] and [0] are falsy. *)
Definition truthy_number (v : option number) : bool :=
  match v with
  | Some x => negb (bool_decide (x = Q2Qc 0))
  | None => false
  end.

(** Truthiness of a possibly undefined string: [undefined] and the empty
    string are falsy.  This is [Boolean] on such a value. *)
Definition Boolean (v : option string) : bool :=
  match v with
  | Some s => negb (bool_decide (s = EmptyString))
  | None => false
  end.

(** lodash's [round(x, 4)]: the number is shifted by four decimal places,
    rounded with [Math.round] (half up) and shifted back; [null] is
    converted to [0] first. *)
Definition Math_round (x : number) : Z := Qfloor (x + num 1 2)%Qc.

Definition round (v : option number) (precision : Z) : number :=
  match v with
  | Some x => Q2Qc (Qmake (Math_round (x * num (10 ^ precision) 1)%Qc) (Z.to_pos (10 ^ precision)))
  | None => Q2Qc 0
  end.

(** ** Sessions and features *)

(** Modelled from the spec: the session record [GetSessionsResponse[number]],
    declared in api/analytics/userSessions.  The hook reads the identifier,
    the coordinates (nullable) and attributes that are only displayed, of
    which the user identifier stands for all. *)
Record Session : Type := mkSession {
  session_id : string;
  user_id : string;
  lat : option number;
  lon : option number;
}.

#[global] Instance Session_eq_dec : EqDecision Session.
Proof. solve_decision. Defined.

(** The properties of a feature of the source: none, those of a point (the
    session itself, without a [cluster] flag), or those of a cluster. *)
Inductive Properties : Type :=
  | NoProperties
  | PointProperties (session : Session)
  | ClusterProperties (cluster_id : Z) (point_count : Z).

#[global] Instance Properties_eq_dec : EqDecision Properties.
Proof. solve_decision. Defined.

Record Feature : Type := mkFeature {
  properties : Properties;
  coordinates : LngLat;
}.

#[global] Instance Feature_eq_dec : EqDecision Feature.
Proof. solve_decision. Defined.

(** [f.properties?.session_id] *)
Definition feature_session_id (f : Feature) : option string :=
  match properties f with
  | PointProperties s => Some (session_id s)
  | _ => None
  end.

(** The feature of a session: its properties are the session, its geometry
    the point of the rounded coordinates. *)
Definition session_feature (s : Session) : Feature :=
  {| properties := PointProperties s;
     coordinates := (round (lon s) 4, round (lat s) 4) |}.

Definition has_coordinates (s : Session) : bool :=
  truthy_number (lat s) && truthy_number (lon s).

(** The feature collection handed to the source with [setData]. *)
Definition geojson (activeSessions : list Session) : list Feature :=
  session_feature <$> filter (λ s, Is_true (has_coordinates s)) activeSessions.

(** The features of the markers when clustering is disabled. *)
Definition individualFeatures (activeSessions : list Session) : list Feature :=
  session_feature <$> filter (λ s, Is_true (has_coordinates s)) activeSessions.

(** ** Clusters *)

Definition shouldShowClusters (activeSessions : list Session) : bool :=
  bool_decide (500 < Z.of_nat (length activeSessions)).

(** The filter of the cluster circle layer and of the cluster count layer:
    the feature has a point count, of at least ten. *)
Definition cluster_layer_filter (f : Feature) : bool :=
  match properties f with
  | ClusterProperties _ c => bool_decide (10 ≤ c)
  | _ => false
  end.

(** The filter of the (invisible) layer of the unclustered points. *)
Definition unclustered_layer_filter (f : Feature) : bool :=
  match properties f with
  | ClusterProperties _ _ => false
  | _ => true
  end.

(** A call [getClusterLeaves(cluster_id, point_count, 0, callback)]. *)
Definition LeafRequest : Type := Z * Z.

(** [f.properties.point_count && f.properties.point_count < 10] *)
Definition small_cluster (point_count : Z) : bool :=
  negb (bool_decide (point_count = 0)) && bool_decide (point_count < 10).

(** A reconciliation pass that awaits its cluster expansions: the features
    gathered so far and the requests whose callback has not run yet. *)
Record Pass : Type := mkPass {
  unclusteredFeatures : list Feature;
  outstanding : list LeafRequest;
}.

(** The loop over the queried features: a point is kept, a small cluster is
    asked for its leaves, everything else is ignored. *)
Definition visit (p : Pass) (f : Feature) : Pass :=
  match properties f with
  | NoProperties => p
  | PointProperties _ =>
      {| unclusteredFeatures := unclusteredFeatures p ++ [f];
         outstanding := outstanding p |}
  | ClusterProperties cluster_id point_count =>
      if small_cluster point_count
      then {| unclusteredFeatures := unclusteredFeatures p;
              outstanding := outstanding p ++ [(cluster_id, point_count)] |}
      else p
  end.

Definition collect (features : list Feature) : Pass :=
  foldl visit {| unclusteredFeatures := []; outstanding := [] |} features.

(** What the callback of [getClusterLeaves] receives. *)
Record LeafReply : Type := mkLeafReply {
  leaf_err : bool;
  leaves : option (list Feature);
}.

(** [if (!err && leaves) unclusteredFeatures.push(...leaves)] *)
Definition reply_leaves (r : LeafReply) : list Feature :=
  if leaf_err r then [] else default [] (leaves r).

Fixpoint remove_first (req : LeafRequest) (l : list LeafRequest) : list LeafRequest :=
  match l with
  | [] => []
  | x :: l' => if decide (x = req) then l' else x :: remove_first req l'
  end.

(** The callback of one request: the leaves (if any) are pushed and the
    promise of the request is resolved. *)
Definition deliver (req : LeafRequest) (r : LeafReply) (p : Pass) : Pass :=
  {| unclusteredFeatures := unclusteredFeatures p ++ reply_leaves r;
     outstanding := remove_first req (outstanding p) |}.

(** ** The marker pool *)

(** A marker of the pool: the identity of its element and its position. *)
Record Marker : Type := mkMarker {
  marker_id : nat;
  lngLat : LngLat;
}.

(** What [toggleTooltip] captures when a marker is created: the session of
    the feature and the coordinates of the feature. *)
Record Closure : Type := mkClosure {
  closure_session : Session;
  closure_lngLat : LngLat;
}.

(** [markersMapRef.current] with what the hook has put on the rendering
    surface: the markers added to the map and the click listeners attached
    to marker elements.  The hook never depends on the order of insertion
    of the JavaScript [Map] (its traversals test or destroy every entry),
    so the pool is a finite map; [next_id] is the identity that the next
    marker created will have. *)
Record Pool : Type := mkPool {
  markersMap : gmap string Marker;
  onMap : gset nat;
  listeners : gmap nat Closure;
  next_id : nat;
}.

Definition empty_pool : Pool :=
  {| markersMap := ∅; onMap := ∅; listeners := ∅; next_id := 0 |}.

(** [cleanup(); marker.remove();] *)
Definition destroy (m : Marker) (P : Pool) : Pool :=
  {| markersMap := markersMap P;
     onMap := onMap P ∖ {[marker_id m]};
     listeners := delete (marker_id m) (listeners P);
     next_id := next_id P |}.

Definition evict (sessionId : string) (P : Pool) : Pool :=
  {| markersMap := delete sessionId (markersMap P);
     onMap := onMap P;
     listeners := listeners P;
     next_id := next_id P |}.

(** [new Set(unclusteredFeatures.map(f => f.properties?.session_id).filter(Boolean))] *)
Definition currentSessionIds (features : list Feature) : gset string :=
  list_to_set (omap id (filter (λ v, Is_true (Boolean v)) (feature_session_id <$> features))).

(** The entries of the pool whose identifier is not current. *)
Definition toRemove (ids : gset string) (P : Pool) : list (string * Marker) :=
  filter (λ e, e.1 ∉ ids) (map_to_list (markersMap P)).

(** The removal pass: the stale markers are destroyed while the pool is
    traversed, and evicted afterwards. *)
Definition removal_pass (ids : gset string) (P : Pool) : Pool :=
  let stale := toRemove ids P in
  foldl (λ Q e, evict e.1 Q) (foldl (λ Q e, destroy e.2 Q) P stale) stale.

Definition set_position (c : LngLat) (m : Marker) : Marker :=
  {| marker_id := marker_id m; lngLat := c |}.

(** A new marker at [c], added to the map, with the click listener of the
    session on its element. *)
Definition create (s : Session) (c : LngLat) (P : Pool) : Pool :=
  {| markersMap := <[session_id s := {| marker_id := next_id P; lngLat := c |}]> (markersMap P);
     onMap := {[next_id P]} ∪ onMap P;
     listeners := <[next_id P := {| closure_session := s; closure_lngLat := c |}]> (listeners P);
     next_id := S (next_id P) |}.

(** The body of the loop that creates or updates the markers. *)
Definition upsert (P : Pool) (feature : Feature) : Pool :=
  match properties feature with
  | PointProperties session =>
      if Boolean (Some (session_id session)) then
        match markersMap P !! session_id session with
        | Some existing =>
            if bool_decide (lngLat existing = coordinates feature) then P
            else {| markersMap := <[session_id session := set_position (coordinates feature) existing]> (markersMap P);
                    onMap := onMap P;
                    listeners := listeners P;
                    next_id := next_id P |}
        | None => create session (coordinates feature) P
        end
      else P
  | _ => P
  end.

(** The part of [updateMarkers] that follows the gathering of the features:
    the removal pass, then the creations and updates. *)
Definition apply_diff (features : list Feature) (P : Pool) : Pool :=
  foldl upsert (removal_pass (currentSessionIds features) P) features.

(** All markers are destroyed and the pool is cleared. *)
Definition destroy_all (P : Pool) : Pool :=
  let Q := foldl (λ Q e, destroy e.2 Q) P (map_to_list (markersMap P)) in
  {| markersMap := ∅; onMap := onMap Q; listeners := listeners Q; next_id := next_id Q |}.

(** ** The tooltip *)

(** The single popup: whether it is on the map, where it was last put and
    for which session its content was last rendered. *)
Record Popup : Type := mkPopup {
  isOpen : bool;
  popup_lngLat : option LngLat;
  popup_content : option Session;
}.

(** [new mapboxgl.Popup(...)] *)
Definition new_popup : Popup :=
  {| isOpen := false; popup_lngLat := None; popup_content := None |}.

(** [popup.remove()] *)
Definition popup_remove (p : Popup) : Popup :=
  {| isOpen := false; popup_lngLat := popup_lngLat p; popup_content := popup_content p |}.

(** [popup.setLngLat(c).setHTML(html of s).addTo(map)] *)
Definition popup_show (c : LngLat) (s : Session) (p : Popup) : Popup :=
  {| isOpen := true; popup_lngLat := Some c; popup_content := Some s |}.

Record Tooltip : Type := mkTooltip {
  popupRef : option Popup;
  openTooltipSessionIdRef : option string;
  selectedSession : option Session;
}.

Definition no_tooltip : Tooltip :=
  {| popupRef := None; openTooltipSessionIdRef := None; selectedSession := None |}.

(** The popup is created once, by the effect that initialises the source. *)
Definition init_popup (t : Tooltip) : Tooltip :=
  match popupRef t with
  | Some _ => t
  | None => {| popupRef := Some new_popup;
               openTooltipSessionIdRef := openTooltipSessionIdRef t;
               selectedSession := selectedSession t |}
  end.

(** [if (popupRef.current && popupRef.current.isOpen()) { remove; ref = null }]:
    the body of the effect of a change of the timeline time, and of
    [handleMapClick]. *)
Definition closeIfOpen (t : Tooltip) : Tooltip :=
  match popupRef t with
  | Some p =>
      if isOpen p
      then {| popupRef := Some (popup_remove p);
              openTooltipSessionIdRef := None;
              selectedSession := selectedSession t |}
      else t
  | None => t
  end.

Definition handleMapClick (t : Tooltip) : Tooltip := closeIfOpen t.

(** The click listener of a marker; [map_current] tells whether
    [map.current] is set when the click arrives.  What follows the display
    of the popup, the lookup of its button and the attachment of the
    listener of the button, is in [viewDetails]. *)
Definition toggleTooltip (map_current : bool) (c : Closure) (t : Tooltip) : Tooltip :=
  match popupRef t with
  | Some p =>
      if negb map_current then t
      else if isOpen p && bool_decide (openTooltipSessionIdRef t = Some (session_id (closure_session c)))
      then {| popupRef := Some (popup_remove p);
              openTooltipSessionIdRef := None;
              selectedSession := selectedSession t |}
      else
        let p' := if isOpen p then popup_remove p else p in
        {| popupRef := Some (popup_show (closure_lngLat c) (closure_session c) p');
           openTooltipSessionIdRef := Some (session_id (closure_session c));
           selectedSession := selectedSession t |}
  | None => t
  end.

(** The click listener of the button of the popup.  When [toggleTooltip]
    has shown the popup it looks the button up with
    [document.querySelector('[data-session-id="..."]')] and attaches the
    listener only [if (button)].  The document is a collaborator, and the
    selector is built from the identifier without escaping: [attached]
    tells whether the lookup that followed the display of the popup found
    the button, so that the button clicked has the listener.  The listener
    captured the session for which the content was rendered; the button is
    in the document only while the popup is open. *)
Definition viewDetails (attached : bool) (t : Tooltip) : Tooltip :=
  match popupRef t with
  | Some p =>
      match isOpen p, popup_content p with
      | true, Some s =>
          if attached
          then {| popupRef := Some (popup_remove p);
                  openTooltipSessionIdRef := None;
                  selectedSession := Some s |}
          else t
      | _, _ => t
      end
  | None => t
  end.

(** [setSelectedSession], which the hook returns to its caller beside
    [selectedSession]. *)
Definition setSelectedSession (v : option Session) (t : Tooltip) : Tooltip :=
  {| popupRef := popupRef t;
     openTooltipSessionIdRef := openTooltipSessionIdRef t;
     selectedSession := v |}.

(** ** The cluster click handler *)

Record EaseTo : Type := mkEaseTo {
  center : LngLat;
  zoom : number;
  duration : Z;
}.

(** The callback of [getClusterExpansionZoom]: [if (err || !zoom) return]. *)
Definition expansionZoomCallback (coordinates : LngLat) (err : bool) (zoom : option number)
  : option EaseTo :=
  if err || negb (truthy_number zoom) then None
  else match zoom with
       | Some z => Some {| center := coordinates; zoom := z; duration := 500 |}
       | None => None
       end.

(** [handleClusterClick]: nothing without a rendered cluster under the
    pointer; otherwise the expansion zoom of the first one is asked for and
    the answer, when it comes, is handled by the callback.  The result is
    the camera movement requested from the map, if any. *)
Definition handleClusterClick (rendered : list Feature) (err : bool) (zoom : option number)
  : option EaseTo :=
  match rendered with
  | [] => None
  | f :: _ => expansionZoomCallback (coordinates f) err zoom
  end.

(** ** The hook as a transition system *)

(** What a render passes to the effect that maintains the layer: whether
    [map.current] is set and the map loaded, the view, the active sessions,
    and whether the map has the source of the layer. *)
Record Props : Type := mkProps {
  mapReady : bool;
  mapView : string;
  activeSessions : list Session;
  hasSource : bool;
}.

Record State : Type := mkState {
  pool : Pool;
  tooltip : Tooltip;
  (** the sessions captured by the [updateMarkers] that is subscribed to
      [zoom], [move] and [sourcedata], if the effect is mounted *)
  subscribed : option (list Session);
  (** the passes that had to await cluster expansions *)
  passes : list Pass;
  clusterLayersVisible : bool;
  sourceData : list Feature;
}.

Definition initial : State :=
  {| pool := empty_pool; tooltip := no_tooltip; subscribed := None; passes := [];
     clusterLayersVisible := true; sourceData := [] |}.

Definition with_pool (f : Pool → Pool) (st : State) : State :=
  {| pool := f (pool st); tooltip := tooltip st; subscribed := subscribed st;
     passes := passes st; clusterLayersVisible := clusterLayersVisible st;
     sourceData := sourceData st |}.

Definition with_tooltip (f : Tooltip → Tooltip) (st : State) : State :=
  {| pool := pool st; tooltip := f (tooltip st); subscribed := subscribed st;
     passes := passes st; clusterLayersVisible := clusterLayersVisible st;
     sourceData := sourceData st |}.

Definition with_subscribed (v : option (list Session)) (st : State) : State :=
  {| pool := pool st; tooltip := tooltip st; subscribed := v;
     passes := passes st; clusterLayersVisible := clusterLayersVisible st;
     sourceData := sourceData st |}.

Definition with_passes (f : list Pass → list Pass) (st : State) : State :=
  {| pool := pool st; tooltip := tooltip st; subscribed := subscribed st;
     passes := f (passes st); clusterLayersVisible := clusterLayersVisible st;
     sourceData := sourceData st |}.

Definition with_visibility (v : bool) (st : State) : State :=
  {| pool := pool st; tooltip := tooltip st; subscribed := subscribed st;
     passes := passes st; clusterLayersVisible := v;
     sourceData := sourceData st |}.

Definition with_sourceData (d : list Feature) (st : State) : State :=
  {| pool := pool st; tooltip := tooltip st; subscribed := subscribed st;
     passes := passes st; clusterLayersVisible := clusterLayersVisible st;
     sourceData := d |}.

(** A pass whose promises are all resolved continues: it computes and
    applies its diff on the pool as it is then. *)
Definition finish (p : Pass) (st : State) : State :=
  match outstanding p with
  | [] => with_pool (apply_diff (unclusteredFeatures p)) st
  | _ :: _ => st
  end.

(** [updateMarkers], as closed over the sessions of its effect; [queried]
    is what [querySourceFeatures] answers.  With clusters the pass is
    recorded and awaits [Promise.all] of its requests: its continuation
    runs as a microtask once the last of them is resolved (at once when
    there is none), before any other event is handled.  Without clusters
    the pass runs to its end without awaiting. *)
Definition updateMarkers (sessions : list Session) (queried : list Feature)
    (st : State) : State :=
  if shouldShowClusters sessions then
    let p := collect queried in
    finish p (with_passes (λ ps, ps ++ [p]) st)
  else with_pool (apply_diff (individualFeatures sessions)) st.

(** The callback of an outstanding request of the pass number [i]. *)
Definition leafCallback (i : nat) (req : LeafRequest) (r : LeafReply) (st : State) : State :=
  match passes st !! i with
  | Some p =>
      if bool_decide (req ∈ outstanding p) then
        let p' := deliver req r p in
        finish p' (with_passes (λ ps, <[i := p']> ps) st)
      else st
  | None => st
  end.

(** The function returned by the effect: all markers are destroyed, the
    pool is cleared and the handlers are unsubscribed. *)
Definition cleanup (st : State) : State :=
  match subscribed st with
  | Some _ => with_subscribed None (with_pool destroy_all st)
  | None => st
  end.

(** The effect that initialises the popup (and the source and its layers). *)
Definition init_effect (p : Props) (st : State) : State :=
  if mapReady p then with_tooltip init_popup st else st.

(** The effect that updates the data of the source and the markers. *)
Definition effect (p : Props) (queried : list Feature) (st : State) : State :=
  if negb (mapReady p) then st
  else if negb (bool_decide (mapView p = "timeline"%string)) then
    with_pool destroy_all (with_visibility false st)
  else
    let st1 := with_visibility (shouldShowClusters (activeSessions p)) st in
    if negb (hasSource p) then st1
    else
      let st2 := with_sourceData (geojson (activeSessions p)) st1 in
      with_subscribed (Some (activeSessions p)) (updateMarkers (activeSessions p) queried st2).

(** A render with changed dependencies: React runs the function returned
    by the previous run of the effect, then the effects. *)
Definition render (p : Props) (queried : list Feature) (st : State) : State :=
  effect p queried (init_effect p (cleanup st)).

Inductive Event : Type :=
  | Render (p : Props) (queried : list Feature)
  | Unmount
  | Viewport (queried : list Feature)
  | LeafReplied (i : nat) (req : LeafRequest) (r : LeafReply)
  | MarkerClick (marker : nat) (map_current : bool)
  | MapClick
  | TimeChange
  | ViewDetails (attached : bool)
  | SetSelectedSession (v : option Session).

Definition step (st : State) (e : Event) : State :=
  match e with
  | Render p queried => render p queried st
  | Unmount => cleanup st
  | Viewport queried =>
      match subscribed st with
      | Some sessions => updateMarkers sessions queried st
      | None => st
      end
  | LeafReplied i req r => leafCallback i req r st
  | MarkerClick marker map_current =>
      match listeners (pool st) !! marker with
      | Some c => with_tooltip (toggleTooltip map_current c) st
      | None => st
      end
  | MapClick =>
      match subscribed st with
      | Some _ => with_tooltip handleMapClick st
      | None => st
      end
  | TimeChange => with_tooltip closeIfOpen st
  | ViewDetails attached => with_tooltip (viewDetails attached) st
  | SetSelectedSession v => with_tooltip (setSelectedSession v) st
  end.

Definition run (st : State) (es : list Event) : State := foldl step st es.

Inductive reachable : State → Prop :=
  | reachable_initial : reachable initial
  | reachable_step st e : reachable st → reachable (step st e).

(** ** Auxiliary notions for the statements *)

(** The key under which a feature is put in the pool, if it has one. *)
Definition feature_key (f : Feature) : option string :=
  match feature_session_id f with
  | Some k => if Boolean (Some k) then Some k else None
  | None => None
  end.

(** The last feature of a list that carries a given key. *)
Definition last_feature (k : string) (features : list Feature) : option Feature :=
  last (filter (λ f, feature_key f = Some k) features).

(** The pool and the rendering surface agree: every marker of the pool is
    on the map with the listener of its session attached, and nothing else
    is on the map or listens. *)
Definition pool_wf (P : Pool) : Prop :=
  (∀ k m, markersMap P !! k = Some m →
     marker_id m ∈ onMap P ∧ (marker_id m < next_id P)%nat ∧
     (∃ c, listeners P !! marker_id m = Some c ∧ session_id (closure_session c) = k))
  ∧ (∀ i, i ∈ onMap P → (∃ k m, markersMap P !! k = Some m ∧ marker_id m = i))
  ∧ (∀ i c, listeners P !! i = Some c →
     (∃ m, markersMap P !! session_id (closure_session c) = Some m ∧ marker_id m = i)).

(** A marker that has been destroyed: off the map, without listener. *)
Definition destroyed (m : Marker) (P : Pool) : Prop :=
  (marker_id m ∉ onMap P) ∧ listeners P !! marker_id m = None.

Definition is_point (f : Feature) : bool :=
  match properties f with
  | PointProperties _ => true
  | _ => false
  end.

(** What the operations of the hook do to the pool: destroy it all, or
    apply the diff of some features. *)
Inductive pool_step (P : Pool) : Pool → Prop :=
  | pool_cleared : pool_step P (destroy_all P)
  | pool_diffed features : pool_step P (apply_diff features P).

(** The state after a teardown: the pool is empty and no handler is
    subscribed to the map. *)
Definition torn_down (st : State) : Prop :=
  markersMap (pool st) = ∅ ∧ subscribed st = None.

(** The requests still outstanding after a sequence of answers, each to a
    request that is outstanding when it arrives. *)
Fixpoint answered (out : list LeafRequest) (rs : list (LeafRequest * LeafReply))
  : option (list LeafRequest) :=
  match rs with
  | [] => Some out
  | (req, _) :: rs' =>
      if bool_decide (req ∈ out) then answered (remove_first req out) rs' else None
  end.

(** The callbacks of the pass number [i] for a sequence of answers. *)
Definition replies (i : nat) (rs : list (LeafRequest * LeafReply)) : list Event :=
  (λ a, LeafReplied i a.1 a.2) <$> rs.

(** The leaves of a sequence of answers, in the order of arrival. *)
Definition received (rs : list (LeafRequest * LeafReply)) : list Feature :=
  concat ((λ a, reply_leaves a.2) <$> rs).

(** Whether the popup is on the map. *)
Definition popup_open (t : Tooltip) : bool :=
  match popupRef t with
  | Some p => isOpen p
  | None => false
  end.

(** The events that run the code that destroys markers: the renders (view
    switch, new sessions), the unmount, and the passes started by the
    viewport or continued by an answer. *)
Definition runs_destruction (e : Event) : bool :=
  match e with
  | Render _ _ | Unmount | Viewport _ | LeafReplied _ _ _ => true
  | _ => false
  end.

(** A reachable state in which the popup is open and an identifier is
    recorded for it, while the pool has no marker for this identifier. *)
Definition tooltip_outlives_marker (k : string) (st : State) : Prop :=
  reachable st
  ∧ openTooltipSessionIdRef (tooltip st) = Some k
  ∧ popup_open (tooltip st) = true
  ∧ markersMap (pool st) !! k = None.

(** ** Sample data *)

Module Examples.
(** latitude 2, longitude 1.23456 *)
Definition alice : Session :=
  mkSession "a" "user-a" (Some (num 2 1)) (Some (num 123456 100000)).
(** latitude 48.1371, longitude 11.5754 *)
Definition bob : Session :=
  mkSession "b" "user-b" (Some (num 481371 10000)) (Some (num 115754 10000)).
(** on the equator: latitude 0, longitude 5 *)
Definition equator : Session :=
  mkSession "z" "user-z" (Some (num 0 1)) (Some (num 5 1)).
(** no position *)
Definition nowhere : Session := mkSession "n" "user-n" None None.
(** an empty identifier *)
Definition anonymous : Session :=
  mkSession "" "user-x" (Some (num 1 1)) (Some (num 1 1)).

Definition carol : Session :=
  mkSession "c" "user-c" (Some (num 405 10)) (Some (num (-74) 1)).
Definition dave : Session :=
  mkSession "d" "user-d" (Some (num 406 10)) (Some (num (-741) 10)).
Definition erin : Session :=
  mkSession "e" "user-e" (Some (num 407 10)) (Some (num (-742) 10)).

(** 501 sessions, enough for the clusters to be shown *)
Definition crowd : list Session :=
  [alice; bob; carol; dave; erin]
  ++ ((λ i, mkSession ("s" +:+ pretty i) "user" (Some (num 10 1)) (Some (num 20 1)))
        <$> seq 0 496).

Definition timeline (sessions : list Session) : Props :=
  {| mapReady := true; mapView := "timeline"; activeSessions := sessions; hasSource := true |}.
Definition countries : Props :=
  {| mapReady := true; mapView := "countries"; activeSessions := []; hasSource := true |}.

(** a cluster of alice and bob, one of carol, dave and erin, and one of
    ten sessions *)
Definition small : Feature := mkFeature (ClusterProperties 7 2) (num 6 1, num 25 1).
Definition small' : Feature := mkFeature (ClusterProperties 8 3) (num (-741) 10, num 406 10).
Definition large : Feature := mkFeature (ClusterProperties 9 10) (num 20 1, num 10 1).

Definition leaves_ok (l : list Feature) : LeafReply := {| leaf_err := false; leaves := Some l |}.
Definition leaves_failed : LeafReply := {| leaf_err := true; leaves := None |}.
Definition leaves_of_small : LeafReply :=
  leaves_ok [session_feature alice; session_feature bob].
Definition leaves_of_small' : LeafReply :=
  leaves_ok [session_feature carol; session_feature dave; session_feature erin].

(** alice and bob shown as individual markers *)
Definition two_markers : State := step initial (Render (timeline [alice; bob]) []).
(** ... and the marker of alice clicked *)
Definition tooltip_on_alice : State := step two_markers (MarkerClick 0 true).

(** a crowd, with one small cluster whose leaves are awaited *)
Definition awaiting : State := step initial (Render (timeline crowd) [small]).
(** a crowd, with alice visible as an unclustered point *)
Definition crowd_with_alice : State :=
  step initial (Render (timeline crowd) [session_feature alice]).
End Examples.

(** ** Notions for the further properties *)

(** The popup and the recorded identifier agree: an identifier is recorded
    exactly when the popup is open, and it is then the identifier of the
    session whose content the popup shows, at a position that has been
    set. *)
Definition tooltip_consistent (t : Tooltip) : Prop :=
  match popupRef t with
  | Some p =>
      if isOpen p
      then ∃ s c, popup_content p = Some s ∧ popup_lngLat p = Some c
                  ∧ openTooltipSessionIdRef t = Some (session_id s)
      else openTooltipSessionIdRef t = None
  | None => openTooltipSessionIdRef t = None
  end.

(** The identities of the markers of the pool. *)
Definition pooled_markers (P : Pool) : gset nat :=
  list_to_set ((λ e, marker_id e.2) <$> map_to_list (markersMap P)).

(** ** The paint of the cluster circles *)

(** The Mapbox expression [["step", input, out0, stop1, out1, ..., stopn, outn]]
    (the stops ascend): the output of the last stop that is not above the
    input, and [out0] below the first stop. *)
Definition step_expression {A} (input : Z) (out0 : A) (stops : list (Z * A)) : A :=
  foldl (λ out stop, if bool_decide (stop.1 ≤ input) then stop.2 else out) out0 stops.

(** ["circle-color": ["step", ["get", "point_count"], "#3b82f6", 10, "#2563eb", 30, "#1d4ed8"]] *)
Definition circle_color (point_count : Z) : string :=
  step_expression point_count "#3b82f6" [(10, "#2563eb"); (30, "#1d4ed8")].

(** ["circle-radius": ["step", ["get", "point_count"], 20, 10, 25, 30, 30]] *)
Definition circle_radius (point_count : Z) : Z :=
  step_expression point_count 20 [(10, 25); (30, 30)].

(** ** The flags of the weekly report email

    (server/src/lib/email/templates/WeeklyReportEmail.tsx) *)

(** ASCII upper case: [toUpperCase] on a string of ASCII characters. *)
Definition upper (c : ascii) : ascii :=
  let n := nat_of_ascii c in
  if bool_decide (97 ≤ n ≤ 122)%nat then ascii_of_nat (n - 32) else c.

(** [getCountryFlag], on a string of ASCII characters: the code points of
    the string returned ([String.fromCodePoint]); the empty list is the
    empty string. *)
Definition getCountryFlag (countryCode : string) : list Z :=
  if bool_decide (String.length countryCode ≠ 2%nat) then []
  else (λ char, 127397 + Z.of_nat (nat_of_ascii char)) <$> (upper <$> String.list_ascii_of_string countryCode).

(** A letter of the ASCII alphabet, and its rank from 0 to 25. *)
Definition is_letter (c : ascii) : Prop :=
  (65 ≤ nat_of_ascii c ≤ 90)%nat ∨ (97 ≤ nat_of_ascii c ≤ 122)%nat.

Definition letter_rank (c : ascii) : Z :=
  if bool_decide (97 ≤ nat_of_ascii c)%nat
  then Z.of_nat (nat_of_ascii c) - 97 else Z.of_nat (nat_of_ascii c) - 65.

(** The first feature of a list that carries a given key: the feature for
    which a pass creates the marker of the key, when the pool has none. *)
Definition first_feature (k : string) (features : list Feature) : option Feature :=
  head (filter (λ f, feature_key f = Some k) features).

(** ** The numbers of the weekly report email

    (server/src/lib/email/templates/WeeklyReportEmail.tsx)  The helpers of
    the email compute with their numbers, so that here a number is a
    double-precision number of JavaScript: not a number, an infinity, or a
    finite number, given by its value, a fraction.  The two zeros are one:
    no helper divides by a zero or prints its sign. *)

Inductive extended (A : Type) : Type :=
  | NaN
  | Infinity (negative : bool)
  | Finite (x : A).
Arguments NaN {A}.
Arguments Infinity {A} negative.
Arguments Finite {A} x.

Definition double : Type := extended Q.

(** What [Math.floor] and [Math.round] return: a number without fraction. *)
Definition integral : Type := extended Z.

(** The exponent of the power of two at or below a positive fraction. *)
Definition ilog2 (x : Q) : Z :=
  let l := Z.log2 (Qnum x) - Z.log2 (Zpos (Qden x)) in
  if Qle_bool (2 ^ l)%Q x then l else l - 1.

(** The nearest integer, the even one of two. *)
Definition nearest_even (x : Q) : Z :=
  let f := Qfloor x in
  match (x - inject_Z f ?= 1 # 2)%Q with
  | Lt => f
  | Gt => f + 1
  | Eq => if Z.even f then f else f + 1
  end.

(** The exponent of the last binary place of the double-precision numbers
    around [x]: 53 significant bits, and no place below [2^-1074]. *)
Definition ulp_exponent (x : Q) : Z := Z.max (ilog2 (Qabs x) - 52) (-1074).

(** Rounding to 53 significant bits, to the nearest, ties to even. *)
Definition round53 (x : Q) : Q :=
  if Qeq_bool x 0%Q then 0%Q
  else (inject_Z (nearest_even (x / 2 ^ ulp_exponent x)) * 2 ^ ulp_exponent x)%Q.

(** The fractions that are double-precision numbers (of the finite range,
    when below [2^1024] in magnitude). *)
Definition representable (x : Q) : Prop := (round53 x == x)%Q.

(** [x < 0], for a fraction. *)
Definition negative_number (x : Q) : bool := negb (Qle_bool 0%Q x).

(** The double-precision number of a real result: a result that rounds to
    [2^1024] or beyond is an infinity. *)
Definition fl (x : Q) : double :=
  let r := round53 x in
  if Qle_bool (2 ^ 1024)%Q (Qabs r) then Infinity (negative_number r) else Finite r.

(** [a - b] *)
Definition subtract (a b : double) : double :=
  match a, b with
  | NaN, _ | _, NaN => NaN
  | Infinity s, Infinity t => if eqb s t then NaN else Infinity s
  | Infinity s, Finite _ => Infinity s
  | Finite _, Infinity t => Infinity (negb t)
  | Finite x, Finite y => fl (x - y)%Q
  end.

(** [a * b] *)
Definition multiply (a b : double) : double :=
  match a, b with
  | NaN, _ | _, NaN => NaN
  | Infinity s, Infinity t => Infinity (xorb s t)
  | Infinity s, Finite y => if Qeq_bool y 0%Q then NaN else Infinity (xorb s (negative_number y))
  | Finite x, Infinity t => if Qeq_bool x 0%Q then NaN else Infinity (xorb (negative_number x) t)
  | Finite x, Finite y => fl (x * y)%Q
  end.

(** [a / b], for a divisor that is not a zero: the helpers divide by
    constants, and by [prev] after [prev === 0] has failed. *)
Definition divide (a b : double) : double :=
  match a, b with
  | NaN, _ | _, NaN => NaN
  | Infinity _, Infinity _ => NaN
  | Infinity s, Finite y => Infinity (xorb s (negative_number y))
  | Finite _, Infinity _ => Finite 0%Q
  | Finite x, Finite y => fl (x / y)%Q
  end.

(** The integer part of a fraction, towards zero. *)
Definition truncate (x : Q) : Z := if negative_number x then Qceiling x else Qfloor x.

(** [a % b]: the remainder of the division with the quotient truncated
    towards zero; it is computed without rounding error. *)
Definition remainder (a b : double) : double :=
  match a, b with
  | NaN, _ | _, NaN => NaN
  | Infinity _, _ => NaN
  | Finite x, Infinity _ => Finite x
  | Finite x, Finite y =>
      if Qeq_bool y 0%Q then NaN else Finite (x - y * inject_Z (truncate (x / y)))%Q
  end.

(** [a < b] and [a <= b]: false when one of the two is not a number. *)
Definition lessThan (a b : double) : bool :=
  match a, b with
  | NaN, _ | _, NaN => false
  | Infinity s, Infinity t => s && negb t
  | Infinity s, Finite _ => s
  | Finite _, Infinity t => negb t
  | Finite x, Finite y => negb (Qle_bool y x)
  end.

Definition lessThanOrEqual (a b : double) : bool :=
  match a, b with
  | NaN, _ | _, NaN => false
  | Infinity s, Infinity t => s || negb t
  | Infinity s, Finite _ => s
  | Finite _, Infinity t => negb t
  | Finite x, Finite y => Qle_bool x y
  end.

(** [a === 0] *)
Definition is_zero (a : double) : bool :=
  match a with
  | Finite x => Qeq_bool x 0%Q
  | _ => false
  end.

(** [isNaN(a)] *)
Definition isNaN (a : double) : bool :=
  match a with
  | NaN => true
  | _ => false
  end.

(** The nearest integer of a fraction, the larger one of two: what
    [Math.round] returns for a finite number. *)
Definition half_up (x : Q) : Z := Qfloor (x + (1 # 2))%Q.

(** [Math.floor(a)] and [Math.round(a)] *)
Definition Math_floor (a : double) : integral :=
  match a with
  | NaN => NaN
  | Infinity s => Infinity s
  | Finite x => Finite (Qfloor x)
  end.

Definition Math_round_double (a : double) : integral :=
  match a with
  | NaN => NaN
  | Infinity s => Infinity s
  | Finite x => Finite (half_up x)
  end.

(** *** Numbers as strings *)

(** The decimal digits of a non-negative integer are padded with zeros on
    the left to [width] characters at least. *)
Fixpoint zeros (k : nat) : string :=
  match k with
  | O => ""
  | S k' => String "0"%char (zeros k')
  end.

Definition zero_pad (width : nat) (s : string) : string :=
  zeros (width - String.length s) +:+ s.

(** A decimal digit. *)
Definition is_digit (c : ascii) : Prop := (48 ≤ nat_of_ascii c ≤ 57)%nat.

(** The candidates with [k] significant digits for the digits of the
    positive integer [n] of [D] digits: the multiples of [10^(D-k)] next to
    [n] that are read back as [n], the nearer one first (of two at the same
    distance, the one with the even last digit). *)
Definition read_back (n c : Z) : bool :=
  match fl (inject_Z c) with
  | Finite r => Qeq_bool r (inject_Z n)
  | _ => false
  end.

Definition candidates (n : Z) (D k : nat) : list Z :=
  let scale := 10 ^ Z.of_nat (D - k) in
  let lo := n `div` scale * scale in
  let hi := lo + scale in
  let ordered :=
    if bool_decide (n - lo < hi - n) then [lo; hi]
    else if bool_decide (hi - n < n - lo) then [hi; lo]
    else if Z.even (n `div` scale) then [lo; hi] else [hi; lo] in
  filter (λ c, Is_true (read_back n c)) ordered.

(** The integer with the fewest significant digits that is read back as
    the positive integer [n], a double-precision number: seventeen digits
    always do. *)
Definition shortest (n : Z) : Z :=
  let D := String.length (pretty n) in
  default n (head (mjoin (candidates n D <$> seq 1 17))).

(** The integer without its zeros at the end ([fuel] of them at most). *)
Fixpoint strip_zeros (fuel : nat) (v : Z) : Z :=
  match fuel with
  | O => v
  | S fuel' => if bool_decide (v `mod` 10 = 0) then strip_zeros fuel' (v `div` 10) else v
  end.

(** The digits of a positive integer in the exponential notation. *)
Definition exponential (v : Z) : string :=
  let e := (String.length (pretty v) - 1)%nat in
  match pretty (strip_zeros e v) with
  | String d EmptyString => String d "e+" +:+ pretty e
  | String d ds => String d ("." +:+ ds) +:+ "e+" +:+ pretty e
  | EmptyString => EmptyString
  end.

(** The string of a positive integer that is a double-precision number. *)
Definition positive_to_string (n : Z) : string :=
  let v := shortest n in
  if bool_decide (v < 10 ^ 21) then pretty v else exponential v.

(** The string of a number without fraction, as a template literal
    renders it. *)
Definition ToString (a : integral) : string :=
  match a with
  | NaN => "NaN"
  | Infinity s => if s then "-Infinity" else "Infinity"
  | Finite n =>
      if bool_decide (n = 0) then "0"
      else if bool_decide (n < 0) then "-" +:+ positive_to_string (- n)
      else positive_to_string n
  end.

(** [a.toFixed(f)], for the [f] from 0 to 100 that JavaScript accepts (the
    helpers ask for no digit or for one): for a finite number below [10^21]
    in magnitude, the sign of a negative number, then the integer [n] for
    which [n / 10^f] is nearest to the magnitude (the larger one of two),
    written with [f] digits after the point; from [10^21] on, where a
    double-precision number has no fraction, the string of the number. *)
Definition toFixed (a : double) (f : nat) : string :=
  match a with
  | NaN => "NaN"
  | Infinity s => if s then "-Infinity" else "Infinity"
  | Finite x =>
      let sign := if negative_number x then "-" else "" in
      let magnitude := Qabs x in
      if Qle_bool (inject_Z (10 ^ 21)) magnitude
      then sign +:+ positive_to_string (Qfloor magnitude)
      else
        let n := half_up (magnitude * inject_Z (10 ^ Z.of_nat f))%Q in
        let whole := pretty (n `div` 10 ^ Z.of_nat f) in
        let fraction := zero_pad f (pretty (n `mod` 10 ^ Z.of_nat f)) in
        sign +:+ whole +:+ (if decide (f = 0%nat) then "" else "." +:+ fraction)
  end.

(** *** The helpers *)

(** A number given by an integer, as the literals of the helpers. *)
Definition literal (n : Z) : double := Finite (inject_Z n).

(** [value ?? 0] *)
Definition or_zero (value : option double) : double := default (literal 0) value.

Definition calculateGrowth (current previous : option double) : string :=
  let curr := or_zero current in
  let prev := or_zero previous in
  if is_zero prev then
    if lessThan (literal 0) curr then "+100%" else "0%"
  else
    let growth := multiply (divide (subtract curr prev) prev) (literal 100) in
    let sign := if lessThan (literal 0) growth then "+" else "" in
    sign +:+ toFixed growth 1 +:+ "%".

Definition formatDuration (seconds : double) : string :=
  if lessThan seconds (literal 60) then ToString (Math_round_double seconds) +:+ "s"
  else
    let minutes := Math_floor (divide seconds (literal 60)) in
    let remainingSeconds := Math_round_double (remainder seconds (literal 60)) in
    ToString minutes +:+ "m " +:+ ToString remainingSeconds +:+ "s".

Definition formatNumber (num : option double) : string :=
  match num with
  | None => "0"
  | Some x =>
      if isNaN x then "0"
      else if lessThanOrEqual (literal 1000000) x then toFixed (divide x (literal 1000000)) 1 +:+ "M"
      else if lessThanOrEqual (literal 1000) x then toFixed (divide x (literal 1000)) 1 +:+ "K"
      else toFixed x 0
  end.

(** [(curr ?? 0) >= (prev ?? 0) ? "text-positive" : "text-negative"], the
    class of the growth of a metric for which more is better. *)
Definition growth_class (current previous : option double) : string :=
  if lessThanOrEqual (or_zero previous) (or_zero current) then "text-positive" else "text-negative".

(** * Properties *)

(** ** Destruction and eviction of a list of entries *)

Section Folds.
Implicit Types (P : Pool) (l : list (string * Marker)) (k : string) (i : nat).

Lemma destroy_list_markersMap l P :
  markersMap (foldl (λ Q e, destroy e.2 Q) P l) = markersMap P.
Proof. revert P. induction l as [|e l IH]; intros P; simpl; [done|]. by rewrite IH. Qed.

Lemma destroy_list_next_id l P :
  next_id (foldl (λ Q e, destroy e.2 Q) P l) = next_id P.
Proof. revert P. induction l as [|e l IH]; intros P; simpl; [done|]. by rewrite IH. Qed.

Lemma destroy_list_onMap l P i :
  i ∈ onMap (foldl (λ Q e, destroy e.2 Q) P l)
  ↔ i ∈ onMap P ∧ ∀ e, e ∈ l → marker_id e.2 ≠ i.
Proof.
  revert P. induction l as [|e l IH]; intros P; simpl.
  - split; [intros H; split; [done|] | by intros [H _]].
    intros e He. by apply elem_of_nil in He.
  - rewrite IH. simpl. rewrite elem_of_difference, elem_of_singleton. split.
    + intros [[Hi Hne] Hl]. split; [done|]. intros e' He'.
      apply elem_of_cons in He' as [->|He']; [congruence | by apply Hl].
    + intros [Hi Hl]. split; [split; [done|]|].
      * intros ->. by apply (Hl e); [left|].
      * intros e' He'. apply Hl. by right.
Qed.

Lemma destroy_list_listeners l P i :
  listeners (foldl (λ Q e, destroy e.2 Q) P l) !! i
  = if decide (i ∈ (λ e, marker_id e.2) <$> l) then None else listeners P !! i.
Proof.
  revert P. induction l as [|e l IH]; intros P; cbn [foldl].
  - rewrite decide_False; [done|]. rewrite fmap_nil. apply not_elem_of_nil.
  - rewrite IH, fmap_cons. cbn [destroy listeners].
    destruct (decide (i ∈ (λ e, marker_id e.2) <$> l)) as [Hin|Hnin].
    + rewrite decide_True; [done|]. by right.
    + destruct (decide (i = marker_id e.2)) as [->|Hne].
      * rewrite decide_True; [|by left]. apply lookup_delete_eq.
      * rewrite decide_False.
        -- by apply lookup_delete_ne.
        -- intros [?|?]%elem_of_cons; done.
Qed.

Lemma evict_list_onMap l P : onMap (foldl (λ Q e, evict e.1 Q) P l) = onMap P.
Proof. revert P. induction l as [|e l IH]; intros P; simpl; [done|]. by rewrite IH. Qed.

Lemma evict_list_listeners l P : listeners (foldl (λ Q e, evict e.1 Q) P l) = listeners P.
Proof. revert P. induction l as [|e l IH]; intros P; simpl; [done|]. by rewrite IH. Qed.

Lemma evict_list_next_id l P : next_id (foldl (λ Q e, evict e.1 Q) P l) = next_id P.
Proof. revert P. induction l as [|e l IH]; intros P; simpl; [done|]. by rewrite IH. Qed.

Lemma evict_list_markersMap l P k :
  markersMap (foldl (λ Q e, evict e.1 Q) P l) !! k
  = if decide (k ∈ l.*1) then None else markersMap P !! k.
Proof.
  revert P. induction l as [|e l IH]; intros P; cbn [foldl].
  - rewrite decide_False; [done|]. rewrite fmap_nil. apply not_elem_of_nil.
  - rewrite IH, fmap_cons. cbn [evict markersMap].
    destruct (decide (k ∈ l.*1)) as [Hin|Hnin].
    + rewrite decide_True; [done|]. by right.
    + destruct (decide (k = e.1)) as [->|Hne].
      * rewrite decide_True; [|by left]. apply lookup_delete_eq.
      * rewrite decide_False.
        -- by apply lookup_delete_ne.
        -- intros [?|?]%elem_of_cons; done.
Qed.
End Folds.

(** ** The removal pass *)

Section Removal.
Implicit Types (P : Pool) (ids : gset string) (k : string) (i : nat).

Lemma elem_of_toRemove ids P k m :
  (k, m) ∈ toRemove ids P ↔ (k ∉ ids) ∧ markersMap P !! k = Some m.
Proof.
  unfold toRemove. rewrite list_elem_of_filter, elem_of_map_to_list. done.
Qed.

Lemma removal_pass_lookup ids P k :
  markersMap (removal_pass ids P) !! k
  = if decide (k ∈ ids) then markersMap P !! k else None.
Proof.
  unfold removal_pass. rewrite evict_list_markersMap, destroy_list_markersMap.
  destruct (decide (k ∈ ids)) as [Hin|Hnin].
  - rewrite decide_False; [done|].
    intros ([k' m] & -> & He)%list_elem_of_fmap.
    apply elem_of_toRemove in He as [He _]. done.
  - destruct (markersMap P !! k) as [m|] eqn:Hk.
    + rewrite decide_True; [done|].
      apply list_elem_of_fmap. exists (k, m). split; [done|].
      by apply elem_of_toRemove.
    + by case_decide.
Qed.

Lemma removal_pass_next_id ids P : next_id (removal_pass ids P) = next_id P.
Proof. unfold removal_pass. by rewrite evict_list_next_id, destroy_list_next_id. Qed.

Lemma removal_pass_onMap ids P i :
  i ∈ onMap (removal_pass ids P)
  ↔ i ∈ onMap P ∧ ∀ k m, markersMap P !! k = Some m → k ∉ ids → marker_id m ≠ i.
Proof.
  unfold removal_pass. rewrite evict_list_onMap, destroy_list_onMap.
  split; intros [Hi H]; (split; [done|]).
  - intros k m Hk Hnin. apply (H (k, m)). by apply elem_of_toRemove.
  - intros [k m] [? ?]%elem_of_toRemove. by apply (H k m).
Qed.

Lemma removal_pass_listeners_stale ids P k m :
  markersMap P !! k = Some m → k ∉ ids →
  listeners (removal_pass ids P) !! marker_id m = None.
Proof.
  intros Hk Hnin. unfold removal_pass.
  rewrite evict_list_listeners, destroy_list_listeners.
  rewrite decide_True; [done|].
  apply list_elem_of_fmap. exists (k, m). split; [done|]. by apply elem_of_toRemove.
Qed.

Lemma removal_pass_listeners_kept ids P i :
  (∀ k m, markersMap P !! k = Some m → k ∉ ids → marker_id m ≠ i) →
  listeners (removal_pass ids P) !! i = listeners P !! i.
Proof.
  intros H. unfold removal_pass.
  rewrite evict_list_listeners, destroy_list_listeners.
  rewrite decide_False; [done|].
  intros ([k m] & -> & [? ?]%elem_of_toRemove)%list_elem_of_fmap.
  by apply (H k m).
Qed.

Lemma removal_pass_listeners_Some ids P i c :
  listeners (removal_pass ids P) !! i = Some c → listeners P !! i = Some c.
Proof.
  unfold removal_pass. rewrite evict_list_listeners, destroy_list_listeners.
  by case_decide.
Qed.

(** Two entries of a well-formed pool with the same marker are one. *)
Lemma pool_wf_inj P k1 k2 m1 m2 :
  pool_wf P → markersMap P !! k1 = Some m1 → markersMap P !! k2 = Some m2 →
  marker_id m1 = marker_id m2 → k1 = k2.
Proof.
  intros (H1 & _ & _) Hk1 Hk2 Hid.
  destruct (H1 _ _ Hk1) as (_ & _ & c1 & Hc1 & <-).
  destruct (H1 _ _ Hk2) as (_ & _ & c2 & Hc2 & <-).
  rewrite Hid in Hc1. congruence.
Qed.

Lemma removal_pass_wf ids P : pool_wf P → pool_wf (removal_pass ids P).
Proof.
  intros Hwf. pose proof Hwf as (H1 & H2 & H3).
  assert (Hfresh : ∀ k m, markersMap P !! k = Some m → k ∈ ids →
            ∀ k' m', markersMap P !! k' = Some m' → k' ∉ ids → marker_id m' ≠ marker_id m).
  { intros k m Hk Hin k' m' Hk' Hnin Hid.
    assert (k' = k) by eauto using pool_wf_inj. congruence. }
  split; [|split].
  - intros k m. rewrite removal_pass_lookup. case_decide as Hin; [|done].
    intros Hk. destruct (H1 _ _ Hk) as (Hon & Hlt & c & Hc & Hs).
    split; [|split].
    + apply removal_pass_onMap. split; [done|]. eauto.
    + by rewrite removal_pass_next_id.
    + exists c. split; [|done]. rewrite removal_pass_listeners_kept; [done|]. eauto.
  - intros i [Hi Hkeep]%removal_pass_onMap.
    destruct (H2 _ Hi) as (k & m & Hk & Hid). exists k, m. split; [|done].
    rewrite removal_pass_lookup. case_decide as Hin; [done|].
    exfalso. by apply (Hkeep k m).
  - intros i c Hc. pose proof (removal_pass_listeners_Some _ _ _ _ Hc) as Hc'.
    destruct (H3 _ _ Hc') as (m & Hk & Hid). exists m. split; [|done].
    rewrite removal_pass_lookup. case_decide as Hin; [done|].
    exfalso. subst i. by rewrite (removal_pass_listeners_stale _ _ _ _ Hk Hin) in Hc.
Qed.
End Removal.

(** ** Creations and updates *)

Section Upsert.
Implicit Types (P : Pool) (f : Feature) (k : string) (i : nat).

Lemma feature_key_Some f k :
  feature_key f = Some k ↔ feature_session_id f = Some k ∧ k ≠ EmptyString.
Proof.
  unfold feature_key, Boolean.
  destruct (feature_session_id f) as [k'|]; [|split; [done|by intros [? _]]].
  case_bool_decide as He; simpl.
  - split; [done|]. intros [[= ->] Hne]. done.
  - split; [intros [= ->]; done|by intros [[= ->] _]].
Qed.

(** The loop body in terms of the key of the feature. *)
Lemma upsert_no_key P f : feature_key f = None → upsert P f = P.
Proof.
  unfold feature_key, feature_session_id, upsert.
  destruct (properties f) as [|s|]; try done.
  by destruct (Boolean (Some (session_id s))).
Qed.

Lemma upsert_key P f k :
  feature_key f = Some k →
  ∃ s, properties f = PointProperties s ∧ session_id s = k ∧
    upsert P f =
      match markersMap P !! k with
      | Some existing =>
          if bool_decide (lngLat existing = coordinates f) then P
          else {| markersMap := <[k := set_position (coordinates f) existing]> (markersMap P);
                  onMap := onMap P; listeners := listeners P; next_id := next_id P |}
      | None => create s (coordinates f) P
      end.
Proof.
  unfold feature_key, feature_session_id, upsert.
  destruct (properties f) as [|s|]; try done.
  destruct (Boolean (Some (session_id s))) eqn:Hb; [|done].
  intros [= <-]. by exists s.
Qed.

Lemma upsert_lookup_ne P f k :
  feature_key f ≠ Some k → markersMap (upsert P f) !! k = markersMap P !! k.
Proof.
  intros Hne. destruct (feature_key f) as [k'|] eqn:Hf; [|by rewrite upsert_no_key].
  destruct (upsert_key P f k' Hf) as (s & _ & Hs & ->).
  assert (k' ≠ k) by congruence.
  destruct (markersMap P !! k') as [m|] eqn:Hk'.
  - case_bool_decide; [done|]. simpl. by rewrite lookup_insert_ne.
  - unfold create. simpl. rewrite Hs. by rewrite lookup_insert_ne.
Qed.

Lemma upsert_lookup_eq P f k :
  feature_key f = Some k →
  ∃ m, markersMap (upsert P f) !! k = Some m ∧ lngLat m = coordinates f ∧
    match markersMap P !! k with
    | Some existing => marker_id m = marker_id existing
    | None => marker_id m = next_id P
    end.
Proof.
  intros Hf. destruct (upsert_key P f k Hf) as (s & _ & Hs & ->).
  destruct (markersMap P !! k) as [m|] eqn:Hk.
  - case_bool_decide as Hpos.
    + by exists m.
    + eexists. simpl. rewrite lookup_insert_eq. done.
  - unfold create. simpl. rewrite Hs, lookup_insert_eq. by eexists.
Qed.

Lemma upsert_next_id_le P f : (next_id P ≤ next_id (upsert P f))%nat.
Proof.
  destruct (feature_key f) as [k|] eqn:Hf; [|by rewrite upsert_no_key].
  destruct (upsert_key P f k Hf) as (s & _ & Hs & ->).
  destruct (markersMap P !! k); [case_bool_decide|]; simpl; lia.
Qed.

Lemma upsert_wf P f : pool_wf P → pool_wf (upsert P f).
Proof.
  intros Hwf. pose proof Hwf as (H1 & H2 & H3).
  destruct (feature_key f) as [k|] eqn:Hf; [|by rewrite upsert_no_key].
  destruct (upsert_key P f k Hf) as (s & _ & Hs & ->).
  destruct (markersMap P !! k) as [m|] eqn:Hk.
  - case_bool_decide as Hpos; [done|].
    destruct (H1 _ _ Hk) as (Hon & Hlt & c & Hc & Hcs).
    split; [|split]; simpl.
    + intros k' m'. rewrite lookup_insert. case_decide as Hkk.
      * intros [= <-]. subst k'. simpl. eauto.
      * apply H1.
    + intros i Hi. destruct (H2 _ Hi) as (k' & m' & Hk' & Hid).
      destruct (decide (k = k')) as [<-|Hne].
      * eexists k, _. rewrite lookup_insert_eq. split; [done|]. simpl. congruence.
      * exists k', m'. by rewrite lookup_insert_ne.
    + intros i c' Hc'. destruct (H3 _ _ Hc') as (m' & Hk' & Hid).
      destruct (decide (k = session_id (closure_session c'))) as [Heq|Hne].
      * rewrite <- Heq in *. eexists. rewrite lookup_insert_eq. split; [done|].
        simpl. congruence.
      * exists m'. by rewrite lookup_insert_ne.
  - unfold create. rewrite Hs. split; [|split]; simpl.
    + intros k' m'. rewrite lookup_insert. case_decide as Hkk.
      * intros [= <-]. subst k'. simpl.
      split; [apply elem_of_union; left; by apply elem_of_singleton|]. split; [lia|].
        eexists. rewrite lookup_insert_eq. split; [done|]. done.
      * intros Hk'. destruct (H1 _ _ Hk') as (Hon & Hlt & c & Hc & Hcs).
        split; [apply elem_of_union; by right|]. split; [lia|]. exists c. split; [|done].
        rewrite lookup_insert_ne; [done|lia].
    + intros i [->%elem_of_singleton|Hi]%elem_of_union.
      * eexists k, _. rewrite lookup_insert_eq. done.
      * destruct (H2 _ Hi) as (k' & m' & Hk' & Hid). exists k', m'. split; [|done].
        rewrite lookup_insert_ne; [done|]. congruence.
    + intros i c. rewrite lookup_insert. case_decide as Hi.
      * intros [= <-]. simpl. rewrite Hs. eexists. rewrite lookup_insert_eq. done.
      * intros Hc. destruct (H3 _ _ Hc) as (m' & Hk' & Hid). exists m'. split; [|done].
        rewrite lookup_insert_ne; [done|]. congruence.
Qed.

Lemma upserts_wf (features : list Feature) P :
  pool_wf P → pool_wf (foldl upsert P features).
Proof.
  revert P. induction features as [|f l IH]; intros P Hwf; simpl; [done|].
  apply IH. by apply upsert_wf.
Qed.

Lemma upserts_next_id_le (features : list Feature) P :
  (next_id P ≤ next_id (foldl upsert P features))%nat.
Proof.
  revert P. induction features as [|f l IH]; intros P; simpl; [done|].
  etrans; [apply (upsert_next_id_le P f)|apply IH].
Qed.

(** After the loop, an entry is the one the loop started with when no
    feature carries its key, and otherwise sits at the coordinates of the
    last feature that does. *)
Lemma upserts_lookup (features : list Feature) P k :
  match last_feature k features with
  | Some f => ∃ m, markersMap (foldl upsert P features) !! k = Some m
                   ∧ lngLat m = coordinates f
  | None => markersMap (foldl upsert P features) !! k = markersMap P !! k
  end.
Proof.
  induction features as [|f l IH] using rev_ind; [done|].
  unfold last_feature in *. rewrite foldl_app, filter_app, last_app. simpl.
  destruct (decide (feature_key f = Some k)) as [Hf|Hf].
  - rewrite filter_cons_True, filter_nil by done. simpl.
    destruct (upsert_lookup_eq (foldl upsert P l) f k Hf) as (m & Hm & Hpos & _). eauto.
  - rewrite filter_cons_False, filter_nil by done. simpl.
    rewrite upsert_lookup_ne by done. done.
Qed.

Lemma upserts_keeps_marker (features : list Feature) P k m :
  markersMap P !! k = Some m →
  ∃ m', markersMap (foldl upsert P features) !! k = Some m' ∧ marker_id m' = marker_id m.
Proof.
  revert P m. induction features as [|f l IH]; intros P m Hk; simpl; [by exists m|].
  destruct (decide (feature_key f = Some k)) as [Hf|Hf].
  - destruct (upsert_lookup_eq P f k Hf) as (m1 & Hm1 & _ & Hid). rewrite Hk in Hid.
    destruct (IH _ _ Hm1) as (m' & ? & ?). exists m'. split; [done|congruence].
  - apply IH. by rewrite upsert_lookup_ne.
Qed.

Lemma upserts_new_marker (features : list Feature) P k m :
  markersMap P !! k = None →
  markersMap (foldl upsert P features) !! k = Some m →
  (next_id P ≤ marker_id m)%nat.
Proof.
  revert P. induction features as [|f l IH]; intros P Hk; simpl; [congruence|].
  destruct (decide (feature_key f = Some k)) as [Hf|Hf].
  - destruct (upsert_lookup_eq P f k Hf) as (m1 & Hm1 & _ & Hid). rewrite Hk in Hid.
    intros Hm. destruct (upserts_keeps_marker l _ _ _ Hm1) as (m' & Hm' & Hid').
    assert (m' = m) by congruence. subst. lia.
  - intros Hm. pose proof (upsert_next_id_le P f).
    assert (next_id (upsert P f) ≤ marker_id m)%nat; [|lia].
    apply IH; [|done]. by rewrite upsert_lookup_ne.
Qed.

Lemma upserts_old_surface (features : list Feature) P i :
  (i < next_id P)%nat →
  (i ∈ onMap (foldl upsert P features) ↔ i ∈ onMap P)
  ∧ listeners (foldl upsert P features) !! i = listeners P !! i.
Proof.
  revert P. induction features as [|f l IH]; intros P Hlt; simpl; [done|].
  pose proof (upsert_next_id_le P f).
  destruct (IH (upsert P f)) as [-> ->]; [lia|].
  destruct (feature_key f) as [k|] eqn:Hf; [|by rewrite upsert_no_key].
  destruct (upsert_key P f k Hf) as (s & _ & Hs & ->).
  destruct (markersMap P !! k); [by case_bool_decide|].
  unfold create. simpl. rewrite lookup_insert_ne by lia. split; [|done].
  rewrite elem_of_union, elem_of_singleton. split; [intros [?|?]; [lia|done]|by right].
Qed.
End Upsert.

(** ** The diff as a whole *)

Section Diff.
Implicit Types (P : Pool) (f : Feature) (k : string) (i : nat) (features : list Feature).

Lemma elem_of_currentSessionIds features k :
  k ∈ currentSessionIds features ↔ ∃ f, f ∈ features ∧ feature_key f = Some k.
Proof.
  unfold currentSessionIds. rewrite elem_of_list_to_set, list_elem_of_omap. split.
  - intros (v & [Hb (f & -> & Hf)%list_elem_of_fmap]%list_elem_of_filter & Hv).
    exists f. split; [done|]. unfold feature_key. simpl in Hv. rewrite Hv in *.
    by destruct (Boolean (Some k)).
  - intros (f & Hf & Hk). apply feature_key_Some in Hk as [Hk Hne].
    exists (Some k). split; [|done]. apply list_elem_of_filter. split.
    + unfold Boolean. by rewrite bool_decide_false.
    + apply list_elem_of_fmap. by exists f.
Qed.

Lemma last_feature_Some features k f :
  last_feature k features = Some f → f ∈ features ∧ feature_key f = Some k.
Proof.
  unfold last_feature. intros H%last_Some_elem_of.
  apply list_elem_of_filter in H as [? ?]. done.
Qed.

Lemma last_feature_is_Some features k :
  k ∈ currentSessionIds features ↔ is_Some (last_feature k features).
Proof.
  rewrite elem_of_currentSessionIds. unfold last_feature. rewrite last_is_Some. split.
  - intros (f & Hf & Hk) Hnil.
    assert (f ∈ filter (λ f, feature_key f = Some k) features) as Hin
      by (by apply list_elem_of_filter).
    rewrite Hnil in Hin. by apply elem_of_nil in Hin.
  - intros Hne. destruct (filter _ features) as [|f l] eqn:Hfl; [done|].
    assert (f ∈ filter (λ f, feature_key f = Some k) features) as Hin
      by (rewrite Hfl; left).
    apply list_elem_of_filter in Hin as [? ?]. by exists f.
Qed.

Lemma apply_diff_wf features P : pool_wf P → pool_wf (apply_diff features P).
Proof. intros Hwf. unfold apply_diff. by apply upserts_wf, removal_pass_wf. Qed.

Lemma apply_diff_lookup features P k :
  match last_feature k features with
  | Some f => ∃ m, markersMap (apply_diff features P) !! k = Some m
                   ∧ lngLat m = coordinates f
  | None => markersMap (apply_diff features P) !! k = None
  end.
Proof.
  unfold apply_diff.
  pose proof (upserts_lookup features (removal_pass (currentSessionIds features) P) k) as H.
  destruct (last_feature k features) as [f|] eqn:Hl; [done|].
  rewrite H, removal_pass_lookup. case_decide as Hin; [|done].
  apply last_feature_is_Some in Hin as [? ?]. congruence.
Qed.

Lemma apply_diff_dom features P :
  dom (markersMap (apply_diff features P)) = currentSessionIds features.
Proof.
  apply set_eq. intros k. rewrite elem_of_dom, last_feature_is_Some.
  pose proof (apply_diff_lookup features P k) as H.
  destruct (last_feature k features) as [f|].
  - destruct H as (m & -> & _). done.
  - rewrite H. done.
Qed.

(** A marker whose identifier is not current is destroyed and evicted. *)
Lemma apply_diff_stale features P k m :
  pool_wf P → markersMap P !! k = Some m → k ∉ currentSessionIds features →
  markersMap (apply_diff features P) !! k = None ∧ destroyed m (apply_diff features P).
Proof.
  intros Hwf Hk Hnin. split.
  - pose proof (apply_diff_lookup features P k) as H.
    destruct (last_feature k features) as [f|] eqn:Hl; [|done].
    exfalso. apply Hnin, last_feature_is_Some. by rewrite Hl.
  - destruct Hwf as (H1 & _ & _). destruct (H1 _ _ Hk) as (_ & Hlt & _).
    unfold destroyed, apply_diff.
    destruct (upserts_old_surface features (removal_pass (currentSessionIds features) P)
                (marker_id m)) as [-> ->]; [by rewrite removal_pass_next_id|].
    split.
    + rewrite removal_pass_onMap. intros [_ H]. by apply (H k m).
    + by eapply removal_pass_listeners_stale.
Qed.

(** A marker whose identifier is current is kept: the entry still holds
    the same marker. *)
Lemma apply_diff_kept features P k m :
  markersMap P !! k = Some m → k ∈ currentSessionIds features →
  ∃ m', markersMap (apply_diff features P) !! k = Some m' ∧ marker_id m' = marker_id m.
Proof.
  intros Hk Hin. unfold apply_diff. apply upserts_keeps_marker.
  rewrite removal_pass_lookup. by rewrite decide_True.
Qed.

(** ** Destruction of the whole pool *)

Lemma destroy_all_markersMap P : markersMap (destroy_all P) = ∅.
Proof. done. Qed.

Lemma destroy_all_next_id P : next_id (destroy_all P) = next_id P.
Proof. unfold destroy_all. simpl. apply destroy_list_next_id. Qed.

Lemma destroy_all_destroyed P k m :
  markersMap P !! k = Some m → destroyed m (destroy_all P).
Proof.
  intros Hk. unfold destroyed, destroy_all. simpl. split.
  - rewrite destroy_list_onMap. intros [_ H]. apply (H (k, m)); [|done].
    by apply elem_of_map_to_list.
  - rewrite destroy_list_listeners, decide_True; [done|].
    apply list_elem_of_fmap. exists (k, m). split; [done|]. by apply elem_of_map_to_list.
Qed.

Lemma destroy_all_surface P :
  pool_wf P → onMap (destroy_all P) = ∅ ∧ listeners (destroy_all P) = ∅.
Proof.
  intros (H1 & H2 & H3). split.
  - apply set_eq. intros i. split; [|set_solver]. intros Hi. exfalso.
    unfold destroy_all in Hi. simpl in Hi. apply destroy_list_onMap in Hi as [Hi Hne].
    destruct (H2 _ Hi) as (k & m & Hk & Hid).
    apply (Hne (k, m)); [|done]. by apply elem_of_map_to_list.
  - apply map_eq. intros i. rewrite lookup_empty.
    destruct (listeners (destroy_all P) !! i) as [c|] eqn:Hc; [|done]. exfalso.
    unfold destroy_all in Hc. simpl in Hc. rewrite destroy_list_listeners in Hc.
    case_decide as Hin; [done|]. destruct (H3 _ _ Hc) as (m & Hk & Hid).
    apply Hin, list_elem_of_fmap. exists (session_id (closure_session c), m).
    split; [done|]. by apply elem_of_map_to_list.
Qed.

Lemma destroy_all_wf P : pool_wf P → pool_wf (destroy_all P).
Proof.
  intros Hwf. destruct (destroy_all_surface P Hwf) as [Hon Hli].
  split; [|split].
  - intros k m. by rewrite destroy_all_markersMap, lookup_empty.
  - intros i. rewrite Hon. set_solver.
  - intros i c. by rewrite Hli, lookup_empty.
Qed.

Lemma empty_pool_wf : pool_wf empty_pool.
Proof.
  split; [|split]; simpl.
  - intros k m. by rewrite lookup_empty.
  - intros i. set_solver.
  - intros i c. by rewrite lookup_empty.
Qed.
End Diff.

(** ** Passes and the state of the hook *)

Section Passes.
Implicit Types (st : State) (p : Pass) (props : Props) (P : Pool) (features : list Feature).

Lemma collect_app features f :
  collect (features ++ [f]) = visit (collect features) f.
Proof. unfold collect. by rewrite foldl_app. Qed.

(** The features gathered before any answer are the points of the query. *)
Lemma collect_unclusteredFeatures features :
  unclusteredFeatures (collect features) = filter (λ f, Is_true (is_point f)) features.
Proof.
  induction features as [|f l IH] using rev_ind; [done|].
  rewrite collect_app, filter_app. unfold visit.
  destruct (properties f) as [|s|cid c] eqn:Hf; simpl.
  - rewrite filter_cons_False, filter_nil, app_nil_r; [done|].
    unfold is_point. rewrite Hf. simpl. tauto.
  - rewrite filter_cons_True, filter_nil, IH; [done|].
    unfold is_point. rewrite Hf. simpl. tauto.
  - rewrite filter_cons_False, filter_nil, app_nil_r.
    + by destruct (small_cluster c).
    + unfold is_point. rewrite Hf. simpl. tauto.
Qed.

(** The requests issued are those of the small clusters of the query. *)
Lemma elem_of_collect_outstanding features cid c :
  (cid, c) ∈ outstanding (collect features)
  ↔ (∃ f, f ∈ features ∧ properties f = ClusterProperties cid c) ∧ small_cluster c = true.
Proof.
  induction features as [|f l IH] using rev_ind.
  - split; [by intros ?%elem_of_nil|]. by intros [(f & ?%elem_of_nil & _) _].
  - rewrite collect_app.
    assert (Hsnoc : (∃ g, g ∈ l ++ [f] ∧ properties g = ClusterProperties cid c)
              ↔ (∃ g, g ∈ l ∧ properties g = ClusterProperties cid c)
                ∨ properties f = ClusterProperties cid c).
    { split.
      - intros (g & [Hg| ->%list_elem_of_singleton]%elem_of_app & HP); eauto.
      - intros [(g & Hg & HP)|HP]; [exists g|exists f];
          (split; [apply elem_of_app|done]); [by left|right; by left]. }
    rewrite Hsnoc. unfold visit.
    destruct (properties f) as [|s|cid' c'] eqn:Hf.
    + rewrite IH. intuition congruence.
    + simpl. rewrite IH. intuition congruence.
    + destruct (small_cluster c') eqn:Hsmall; simpl.
      * rewrite elem_of_app, list_elem_of_singleton, IH. split.
        -- intros [[HA HS]|[= -> ->]]; [by split; [left|]|by split; [right|]].
        -- intros [[HA|[= -> ->]] HS]; [by left|by right].
      * rewrite IH. split.
        -- intros [HA HS]. by split; [left|].
        -- intros [[HA|[= -> ->]] HS]; [done|congruence].
Qed.

Lemma finish_outstanding p st : outstanding p ≠ [] → finish p st = st.
Proof. unfold finish. by destruct (outstanding p). Qed.

Lemma finish_done p st :
  outstanding p = [] → finish p st = with_pool (apply_diff (unclusteredFeatures p)) st.
Proof. unfold finish. by intros ->. Qed.

(** Without clusters the pass is a pass with nothing outstanding over the
    features of the sessions. *)
Lemma updateMarkers_individual sessions queried st :
  shouldShowClusters sessions = false →
  updateMarkers sessions queried st
  = finish {| unclusteredFeatures := individualFeatures sessions; outstanding := [] |} st.
Proof. unfold updateMarkers. by intros ->. Qed.

Lemma updateMarkers_clusters sessions queried st :
  shouldShowClusters sessions = true →
  updateMarkers sessions queried st
  = finish (collect queried) (with_passes (λ ps, ps ++ [collect queried]) st).
Proof. unfold updateMarkers. by intros ->. Qed.

Lemma finish_pool p st : rtc pool_step (pool st) (pool (finish p st)).
Proof.
  unfold finish. destruct (outstanding p); simpl; [|done].
  apply rtc_once. constructor.
Qed.

Lemma updateMarkers_pool sessions queried st :
  rtc pool_step (pool st) (pool (updateMarkers sessions queried st)).
Proof.
  unfold updateMarkers. destruct (shouldShowClusters sessions); simpl.
  - apply (finish_pool _ (with_passes _ st)).
  - apply rtc_once. constructor.
Qed.

Lemma leafCallback_pool i req r st :
  rtc pool_step (pool st) (pool (leafCallback i req r st)).
Proof.
  unfold leafCallback. destruct (passes st !! i); [|done].
  case_bool_decide; [|done]. apply (finish_pool _ (with_passes _ st)).
Qed.

Lemma cleanup_pool st : rtc pool_step (pool st) (pool (cleanup st)).
Proof.
  unfold cleanup. destruct (subscribed st); simpl; [|done]. apply rtc_once. constructor.
Qed.

Lemma init_effect_pool props st : pool (init_effect props st) = pool st.
Proof. unfold init_effect. by destruct (mapReady props). Qed.

Lemma effect_pool props queried st : rtc pool_step (pool st) (pool (effect props queried st)).
Proof.
  unfold effect. destruct (mapReady props); simpl; [|done].
  case_bool_decide; simpl; [|apply rtc_once; constructor].
  destruct (hasSource props); simpl; [|done].
  apply (updateMarkers_pool _ _ (with_sourceData _ (with_visibility _ st))).
Qed.

Lemma render_pool props queried st : rtc pool_step (pool st) (pool (render props queried st)).
Proof.
  unfold render. etrans; [apply cleanup_pool|].
  rewrite <- (init_effect_pool props (cleanup st)). apply effect_pool.
Qed.

Lemma step_pool st e : rtc pool_step (pool st) (pool (step st e)).
Proof.
  destruct e as [props queried| |queried|i req r|marker mc| | |attached|v]; simpl.
  - apply render_pool.
  - apply cleanup_pool.
  - destruct (subscribed st); [apply updateMarkers_pool|done].
  - apply leafCallback_pool.
  - by destruct (listeners (pool st) !! marker).
  - by destruct (subscribed st).
  - done.
  - done.
  - done.
Qed.

Lemma pool_steps_wf P Q : rtc pool_step P Q → pool_wf P → pool_wf Q.
Proof.
  induction 1 as [|P Q R HPQ _ IH]; [done|]. intros Hwf. apply IH.
  destruct HPQ; [by apply destroy_all_wf|by apply apply_diff_wf].
Qed.

Lemma pool_steps_next_id P Q : rtc pool_step P Q → (next_id P ≤ next_id Q)%nat.
Proof.
  induction 1 as [|P Q R HPQ _ IH]; [done|]. etrans; [|apply IH].
  destruct HPQ.
  - by rewrite destroy_all_next_id.
  - unfold apply_diff. etrans; [|apply upserts_next_id_le].
    by rewrite removal_pass_next_id.
Qed.

(** A destroyed marker stays destroyed. *)
Lemma pool_steps_destroyed P Q m :
  rtc pool_step P Q → (marker_id m < next_id P)%nat → destroyed m P → destroyed m Q.
Proof.
  induction 1 as [|P Q R HPQ HQR IH]; [done|]. intros Hlt [Hon Hli].
  pose proof (pool_steps_next_id P Q (rtc_once _ _ HPQ)) as Hle.
  apply IH; [lia|]. destruct HPQ as [|features].
  - unfold destroyed, destroy_all. simpl. split.
    + rewrite destroy_list_onMap. by intros [? _].
    + rewrite destroy_list_listeners. by case_decide.
  - unfold destroyed, apply_diff.
    destruct (upserts_old_surface features (removal_pass (currentSessionIds features) P)
                (marker_id m)) as [-> ->]; [by rewrite removal_pass_next_id|].
    split.
    + rewrite removal_pass_onMap. by intros [? _].
    + destruct (listeners (removal_pass _ P) !! marker_id m) as [c|] eqn:Hc; [|done].
      apply removal_pass_listeners_Some in Hc. congruence.
Qed.

(** Only markers created later can enter a pool that does not hold them. *)
Lemma pool_steps_new_marker P Q k m :
  rtc pool_step P Q → markersMap P = ∅ → markersMap Q !! k = Some m →
  (next_id P ≤ marker_id m)%nat.
Proof.
  intros HPQ Hempty. revert k m. revert Q HPQ.
  apply (rtc_ind_r (λ Q, ∀ k m, markersMap Q !! k = Some m → (next_id P ≤ marker_id m)%nat) P).
  - intros k m. by rewrite Hempty, lookup_empty.
  - intros Q R HPQ HQR IH k m Hk. pose proof (pool_steps_next_id _ _ HPQ) as Hle.
    destruct HQR as [|features].
    + by rewrite destroy_all_markersMap, lookup_empty in Hk.
    + unfold apply_diff in Hk.
      destruct (markersMap (removal_pass (currentSessionIds features) Q) !! k) as [m0|] eqn:Hk0.
      * destruct (upserts_keeps_marker features _ _ _ Hk0) as (m' & Hm' & Hid).
        assert (m' = m) by congruence. subst m'. rewrite Hid.
        rewrite removal_pass_lookup in Hk0. case_decide; [|done]. by eapply IH.
      * pose proof (upserts_new_marker features _ k m Hk0 Hk) as H.
        rewrite removal_pass_next_id in H. lia.
Qed.

Lemma reachable_wf st : reachable st → pool_wf (pool st).
Proof.
  induction 1 as [|st e _ IH]; [apply empty_pool_wf|].
  by eapply pool_steps_wf; [apply step_pool|].
Qed.
End Passes.

(** ** The data of the source *)

(** A run of the effect in the timeline view hands the features of the
    sessions to the source. *)
Lemma effect_sourceData (props : Props) (queried : list Feature) (st : State) :
  mapReady props = true → mapView props = "timeline"%string → hasSource props = true →
  sourceData (effect props queried st) = geojson (activeSessions props).
Proof.
  intros Hready Hview Hsource. unfold effect. rewrite Hready, Hsource.
  rewrite bool_decide_true by done. simpl.
  unfold updateMarkers, finish.
  destruct (shouldShowClusters (activeSessions props)); [|done].
  by destruct (outstanding (collect queried)).
Qed.

(** ** The model on the sample data *)

Example two_sessions_two_markers :
  dom (markersMap (pool Examples.two_markers)) = {["a"; "b"]}%string
  ∧ onMap (pool Examples.two_markers) = {[0; 1]}%nat
  ∧ passes Examples.two_markers = [].
Proof. by vm_compute. Qed.

Example session_without_position_is_not_shown :
  geojson [Examples.nowhere; Examples.bob] = [session_feature Examples.bob].
Proof. by vm_compute. Qed.

(** A feature whose session has an empty identifier is skipped by the
    pass: the empty string is falsy. *)
Example empty_identifier_has_no_marker :
  currentSessionIds [session_feature Examples.anonymous] = ∅
  ∧ apply_diff [session_feature Examples.anonymous] empty_pool = empty_pool.
Proof. by vm_compute. Qed.

Example crowd_is_clustered :
  shouldShowClusters Examples.crowd = true
  ∧ shouldShowClusters (take 500 Examples.crowd) = false.
Proof. by vm_compute. Qed.

Example small_cluster_is_awaited :
  passes Examples.awaiting = [{| unclusteredFeatures := []; outstanding := [(7, 2)] |}]
  ∧ markersMap (pool Examples.awaiting) = ∅
  ∧ is_Some (subscribed Examples.awaiting).
Proof. split; [by vm_compute|]. split; [by vm_compute|]. vm_compute. by eexists. Qed.

Example round_half_up :
  round (Some (num 123456 100000)) 4 = num 12346 10000
  ∧ round (Some (num (-12345) 100000)) 4 = num (-1234) 10000
  ∧ round None 4 = num 0 1.
Proof. repeat split; apply Qc_is_canon; by vm_compute. Qed.

(** Equality of values that hold numbers, after evaluation: two numbers
    are equal when their fractions are. *)
Ltac numbers_eq :=
  vm_compute; repeat first [reflexivity | apply Qc_is_canon; reflexivity | progress f_equal].

(** ** Sequences of events *)

Lemma run_snoc (st : State) (es : list Event) (e : Event) :
  run st (es ++ [e]) = step (run st es) e.
Proof. unfold run. by rewrite foldl_app. Qed.

Lemma run_pool (st : State) (es : list Event) : rtc pool_step (pool st) (pool (run st es)).
Proof.
  induction es as [|e es IH] using rev_ind; [done|].
  rewrite run_snoc. etrans; [apply IH|apply step_pool].
Qed.

Lemma run_reachable (st : State) (es : list Event) : reachable st → reachable (run st es).
Proof.
  intros Hst. induction es as [|e es IH] using rev_ind; [done|].
  rewrite run_snoc. by apply reachable_step.
Qed.

(** ** What a pass does to the listeners *)

Lemma updateMarkers_pool_eq (sessions : list Session) (queried : list Feature) (st st' : State) :
  pool st = pool st' →
  pool (updateMarkers sessions queried st) = pool (updateMarkers sessions queried st').
Proof.
  intros Heq. unfold updateMarkers, finish.
  destruct (shouldShowClusters sessions); [|by cbn; rewrite Heq].
  destruct (outstanding (collect queried)); cbn; by rewrite Heq.
Qed.

Lemma elem_of_reply_leaves (r : LeafReply) (l : Feature) :
  l ∈ reply_leaves r ↔ leaf_err r = false ∧ ∃ ls, leaves r = Some ls ∧ l ∈ ls.
Proof.
  unfold reply_leaves. destruct (leaf_err r).
  - rewrite elem_of_nil. split; [done|]. by intros [? _].
  - destruct (leaves r) as [ls|]; simpl.
    + split; [intros ?; split; [done|by exists ls]|]. by intros (_ & ? & [= <-] & ?).
    + rewrite elem_of_nil. split; [done|]. by intros (_ & ? & ? & _).
Qed.

(** The marker of a key that the pool lacks is created for the first
    feature with this key, and its listener captures the session and the
    coordinates of that feature; the later features of the pass leave the
    listener alone. *)
Lemma upserts_created (features : list Feature) (P : Pool) (k : string) (f : Feature)
    (s : Session) :
  markersMap P !! k = None →
  first_feature k features = Some f → properties f = PointProperties s →
  ∃ m, markersMap (foldl upsert P features) !! k = Some m
       ∧ (next_id P ≤ marker_id m < next_id (foldl upsert P features))%nat
       ∧ listeners (foldl upsert P features) !! marker_id m
         = Some {| closure_session := s; closure_lngLat := coordinates f |}.
Proof.
  revert P. induction features as [|f0 features IH]; intros P Hnone Hfirst Hprops; [done|].
  unfold first_feature in Hfirst. rewrite filter_cons in Hfirst.
  destruct (decide (feature_key f0 = Some k)) as [Hkey|Hkey].
  - injection Hfirst as ->. destruct (upsert_key P f k Hkey) as (s' & Hs' & Hid & Hup).
    rewrite Hnone in Hup. assert (s' = s) as -> by congruence.
    cbn [foldl]. rewrite Hup.
    assert (Hm : markersMap (create s (coordinates f) P) !! k
                 = Some {| marker_id := next_id P; lngLat := coordinates f |}).
    { cbn. rewrite Hid. apply lookup_insert_eq. }
    destruct (upserts_keeps_marker features _ _ _ Hm) as (m' & Hm' & Hid').
    exists m'. split; [done|]. cbn in Hid'. rewrite Hid'.
    pose proof (upserts_next_id_le features (create s (coordinates f) P)) as Hle.
    cbn [create next_id] in Hle. split; [lia|].
    destruct (upserts_old_surface features (create s (coordinates f) P) (next_id P))
      as [_ ->]; [cbn; lia|].
    cbn. apply lookup_insert_eq.
  - cbn [foldl]. destruct (IH (upsert P f0)) as (m & Hm & Hlt & Hl); [|done|done|].
    + by rewrite upsert_lookup_ne.
    + exists m. split; [done|]. split; [|done].
      pose proof (upsert_next_id_le P f0). lia.
Qed.

Lemma apply_diff_created (features : list Feature) (P : Pool) (k : string) (f : Feature)
    (s : Session) :
  markersMap P !! k = None →
  first_feature k features = Some f → properties f = PointProperties s →
  ∃ m, markersMap (apply_diff features P) !! k = Some m
       ∧ (next_id P ≤ marker_id m < next_id (apply_diff features P))%nat
       ∧ listeners (apply_diff features P) !! marker_id m
         = Some {| closure_session := s; closure_lngLat := coordinates f |}.
Proof.
  intros Hnone Hfirst Hprops. unfold apply_diff.
  destruct (upserts_created features (removal_pass (currentSessionIds features) P) k f s)
    as (m & Hm & Hlt & Hl); [|done..|].
  - rewrite removal_pass_lookup. by destruct (decide _).
  - rewrite removal_pass_next_id in Hlt. by exists m.
Qed.

(** A listener is never replaced: what listens on a marker after any
    operation on the pool is what listened before. *)
Lemma pool_step_listener (P Q : Pool) (i : nat) (c : Closure) :
  pool_step P Q → (i < next_id P)%nat →
  listeners Q !! i = Some c → listeners P !! i = Some c.
Proof.
  intros [|features] Hlt.
  - unfold destroy_all. cbn. rewrite destroy_list_listeners. by destruct (decide _).
  - unfold apply_diff.
    destruct (upserts_old_surface features (removal_pass (currentSessionIds features) P) i)
      as [_ ->]; [by rewrite removal_pass_next_id|].
    apply removal_pass_listeners_Some.
Qed.

Lemma pool_steps_listener (P Q : Pool) (i : nat) (c : Closure) :
  rtc pool_step P Q → (i < next_id P)%nat →
  listeners Q !! i = Some c → listeners P !! i = Some c.
Proof.
  induction 1 as [|P Q R HPQ HQR IH]; [done|]. intros Hlt HR.
  apply (pool_step_listener P Q); [done..|]. apply IH; [|done].
  pose proof (pool_steps_next_id P Q (rtc_once _ _ HPQ)). lia.
Qed.

Lemma first_feature_Some (features : list Feature) (k : string) (f : Feature) :
  first_feature k features = Some f → f ∈ features ∧ feature_key f = Some k.
Proof.
  unfold first_feature. intros Hh.
  assert (f ∈ filter (λ f, feature_key f = Some k) features) as Hin.
  { destruct (filter _ features) as [|x l]; [done|]. injection Hh as ->. apply list_elem_of_here. }
  by apply list_elem_of_filter in Hin as [? ?].
Qed.

(** * The properties of the specification *)

(** ** C1: the keys of the pool after a pass *)

(** C1.  When a reconciliation pass continues with nothing outstanding, the
    keys of the pool become exactly the session identifiers of the gathered
    features (the unclustered points and the leaves received), an identifier
    being a non-empty [session_id] of a point feature.  A marker whose
    identifier is absent from them is destroyed (off the map, its listener
    detached) and evicted; an identifier among them has one marker, which is
    on the map with its listener attached to it and to no other identifier;
    and the map shows no marker besides those of the pool. *)
Theorem C1_pool_keys_after_pass (p : Pass) (st : State) :
  pool_wf (pool st) → outstanding p = [] →
  let P' := pool (finish p st) in
  dom (markersMap P') = currentSessionIds (unclusteredFeatures p)
  ∧ (∀ k, k ∈ dom (markersMap P')
        ↔ ∃ f, f ∈ unclusteredFeatures p ∧ feature_session_id f = Some k ∧ k ≠ EmptyString)
  ∧ (∀ k m, markersMap (pool st) !! k = Some m → k ∉ currentSessionIds (unclusteredFeatures p) →
        markersMap P' !! k = None ∧ destroyed m P')
  ∧ (∀ k m, markersMap (pool st) !! k = Some m → k ∈ currentSessionIds (unclusteredFeatures p) →
        ∃ m', markersMap P' !! k = Some m' ∧ marker_id m' = marker_id m)
  ∧ pool_wf P'.
Proof.
  intros Hwf Hout P'. subst P'. rewrite finish_done by done. simpl.
  split; [apply apply_diff_dom|]. split; [|split; [|split]].
  - intros k. rewrite apply_diff_dom, elem_of_currentSessionIds.
    split; intros (f & Hf & Hk); exists f; (split; [done|]); by apply feature_key_Some.
  - intros k m Hk Hnin. by apply apply_diff_stale.
  - intros k m Hk Hin. by apply apply_diff_kept.
  - by apply apply_diff_wf.
Qed.

(** In the state with markers for alice and bob, a pass over the feature of
    bob alone leaves exactly the key of bob. *)
Lemma C1_pool_keys_after_pass_witness :
  let p := {| unclusteredFeatures := [session_feature Examples.bob]; outstanding := [] |} in
  dom (markersMap (pool (finish p Examples.two_markers))) = {["b"%string]}
  ∧ markersMap (pool (finish p Examples.two_markers)) !! "a"%string = None.
Proof.
  intros p.
  destruct (C1_pool_keys_after_pass p Examples.two_markers) as (Hdom & _ & Hstale & _).
  - apply reachable_wf. apply reachable_step, reachable_initial.
  - reflexivity.
  - split.
    + rewrite Hdom. vm_compute. reflexivity.
    + destruct (markersMap (pool Examples.two_markers) !! "a"%string) as [m|] eqn:Ha.
      * apply (Hstale "a"%string m Ha). vm_compute. intros H. discriminate H.
      * vm_compute in Ha. discriminate Ha.
Defined.

(** ** C2: the tooltip and the markers *)

Section TooltipUnchanged.
Implicit Types (st : State) (p : Pass) (props : Props).

Lemma finish_tooltip p st : tooltip (finish p st) = tooltip st.
Proof. unfold finish. by destruct (outstanding p). Qed.

Lemma updateMarkers_tooltip sessions queried st :
  tooltip (updateMarkers sessions queried st) = tooltip st.
Proof.
  unfold updateMarkers. destruct (shouldShowClusters sessions); [|done].
  by rewrite finish_tooltip.
Qed.

Lemma leafCallback_tooltip i req r st : tooltip (leafCallback i req r st) = tooltip st.
Proof.
  unfold leafCallback. destruct (passes st !! i); [|done].
  case_bool_decide; [|done]. by rewrite finish_tooltip.
Qed.

Lemma cleanup_tooltip st : tooltip (cleanup st) = tooltip st.
Proof. unfold cleanup. by destruct (subscribed st). Qed.

Lemma effect_tooltip props queried st : tooltip (effect props queried st) = tooltip st.
Proof.
  unfold effect. destruct (mapReady props); simpl; [|done].
  case_bool_decide; simpl; [|done].
  destruct (hasSource props); simpl; [|done]. by rewrite updateMarkers_tooltip.
Qed.

Lemma init_popup_open (t : Tooltip) :
  openTooltipSessionIdRef (init_popup t) = openTooltipSessionIdRef t
  ∧ popup_open (init_popup t) = popup_open t.
Proof. unfold init_popup, popup_open. by destruct (popupRef t) eqn:Hp; simpl; rewrite ?Hp. Qed.

(** The code that destroys markers does not close the popup and does not
    touch the recorded identifier. *)
Lemma destruction_keeps_tooltip st e :
  runs_destruction e = true →
  openTooltipSessionIdRef (tooltip (step st e)) = openTooltipSessionIdRef (tooltip st)
  ∧ popup_open (tooltip (step st e)) = popup_open (tooltip st).
Proof.
  destruct e as [props queried| |queried|i req r|marker mc| | |attached|v]; try done; intros _; simpl.
  - unfold render. rewrite effect_tooltip. unfold init_effect.
    destruct (mapReady props); simpl; rewrite cleanup_tooltip; [|done].
    apply init_popup_open.
  - by rewrite cleanup_tooltip.
  - destruct (subscribed st); [|done]. by rewrite updateMarkers_tooltip.
  - by rewrite leafCallback_tooltip.
Qed.
End TooltipUnchanged.

(** C2, as stated, fails: the tooltip is opened on the marker of alice, and
    then the marker is removed by the removal pass of a viewport event, or
    the view is switched, or the component is unmounted.  In the three
    states the popup is still open and alice still recorded, without a
    marker for alice in the pool. *)
Lemma C2_counterexample :
  let removed := step (step Examples.crowd_with_alice (MarkerClick 0 true)) (Viewport []) in
  let switched := step Examples.tooltip_on_alice (Render Examples.countries []) in
  let unmounted := step Examples.tooltip_on_alice Unmount in
  tooltip_outlives_marker "a" removed
  ∧ tooltip_outlives_marker "a" switched
  ∧ tooltip_outlives_marker "a" unmounted.
Proof.
  intros removed switched unmounted. unfold tooltip_outlives_marker.
  split; [|split];
    (split; [repeat apply reachable_step; apply reachable_initial|by vm_compute]).
Qed.

(** C2, amended.  One reference holds the recorded identifier, so at most
    one is recorded at any time.  In every reachable state: an event after
    which an identifier is recorded that was not recorded before is a click
    on a marker, and that marker is then in the pool under this identifier;
    and the code that destroys markers or clears the pool (the renders with
    their view switch and teardown, the unmount, the passes with their
    removals) leaves the popup and the recorded identifier as they are, so
    that the recorded identifier may be that of a marker that has been
    removed, until a change of the time, a click on the map or on a marker,
    or the button of the popup closes it. *)
Theorem C2_tooltip_recorded_by_click_on_pooled_marker (st : State) :
  reachable st →
  (∀ e k, openTooltipSessionIdRef (tooltip (step st e)) = Some k →
     openTooltipSessionIdRef (tooltip st) = Some k
     ∨ ∃ marker map_current m,
         e = MarkerClick marker map_current
         ∧ markersMap (pool (step st e)) !! k = Some m ∧ marker_id m = marker)
  ∧ (∀ e, runs_destruction e = true →
       openTooltipSessionIdRef (tooltip (step st e)) = openTooltipSessionIdRef (tooltip st)
       ∧ popup_open (tooltip (step st e)) = popup_open (tooltip st))
  ∧ (∀ e, e = TimeChange ∨ (e = MapClick ∧ is_Some (subscribed st)) →
       popup_open (tooltip st) = true →
       openTooltipSessionIdRef (tooltip (step st e)) = None
       ∧ popup_open (tooltip (step st e)) = false).
Proof.
  intros Hreach. pose proof (reachable_wf st Hreach) as (_ & _ & H3).
  split; [|split; [apply destruction_keeps_tooltip|]].
  - intros e k Hk.
    destruct (runs_destruction e) eqn:He.
    { left. by rewrite <- (proj1 (destruction_keeps_tooltip st e He)). }
    destruct e as [| | | |marker mc| | |attached|v]; try done; cbn [step] in Hk |- *.
    + destruct (listeners (pool st) !! marker) as [c|] eqn:Hc; [|by left].
      cbn [with_tooltip tooltip pool] in *. unfold toggleTooltip in Hk.
      destruct (popupRef (tooltip st)) as [pop|]; [|by left].
      destruct (negb mc); [by left|].
      destruct (isOpen pop && _); [done|]. simpl in Hk. injection Hk as <-.
      right. destruct (H3 _ _ Hc) as (m & Hm & Hid). by exists marker, mc, m.
    + left. destruct (subscribed st); [|done]. simpl in Hk.
    unfold handleMapClick, closeIfOpen in Hk.
      destruct (popupRef (tooltip st)) as [pop|]; [|done]. by destruct (isOpen pop).
    + left. simpl in Hk. unfold closeIfOpen in Hk.
      destruct (popupRef (tooltip st)) as [pop|]; [|done]. by destruct (isOpen pop).
    + left. simpl in Hk. unfold viewDetails in Hk.
      destruct (popupRef (tooltip st)) as [pop|]; [|done].
      by destruct (isOpen pop), (popup_content pop), attached.
    + by left.
  - intros e He Hopen. unfold popup_open in Hopen.
    destruct (popupRef (tooltip st)) as [pop|] eqn:Hpop; [|done].
    destruct He as [->|[-> [sessions Hs]]]; cbn [step].
    + simpl. unfold closeIfOpen, popup_open. by rewrite Hpop, Hopen.
    + rewrite Hs. simpl. unfold handleMapClick, closeIfOpen, popup_open.
    by rewrite Hpop, Hopen.
Qed.

(** The click on the marker of alice records her identifier, and her marker
    is in the pool. *)
Lemma C2_tooltip_recorded_by_click_on_pooled_marker_witness :
  ∃ m, markersMap (pool Examples.tooltip_on_alice) !! "a"%string = Some m
       ∧ marker_id m = 0%nat.
Proof.
  destruct (C2_tooltip_recorded_by_click_on_pooled_marker Examples.two_markers) as [Hrec _].
  - apply reachable_step, reachable_initial.
  - destruct (Hrec (MarkerClick 0 true) "a"%string) as [H|(marker & mc & m & He & Hm & Hid)].
    + vm_compute. reflexivity.
    + vm_compute in H. discriminate H.
    + injection He as <- <-. exists m. split; [exact Hm|exact Hid].
Defined.

(** ** C3: sessions without coordinates *)

Lemma has_coordinates_true (s : Session) :
  has_coordinates s = true
  ↔ ∃ la lo, lat s = Some la ∧ lon s = Some lo ∧ la ≠ Q2Qc 0 ∧ lo ≠ Q2Qc 0.
Proof.
  unfold has_coordinates, truthy_number. rewrite andb_true_iff. split.
  - intros [Hla Hlo]. destruct (lat s) as [la|], (lon s) as [lo|]; try done.
    exists la, lo. apply negb_true_iff, bool_decide_eq_false in Hla, Hlo. done.
  - intros (la & lo & -> & -> & Hla & Hlo).
    split; by apply negb_true_iff, bool_decide_eq_false.
Qed.

Lemma elem_of_individualFeatures (sessions : list Session) (f : Feature) :
  f ∈ individualFeatures sessions
  ↔ ∃ s, s ∈ sessions ∧ has_coordinates s = true ∧ f = session_feature s.
Proof.
  unfold individualFeatures. rewrite list_elem_of_fmap. split.
  - intros (s & -> & [Hc Hs]%list_elem_of_filter). exists s.
    split; [done|]. split; [by apply Is_true_true|done].
  - intros (s & Hs & Hc & ->). exists s. split; [done|].
    apply list_elem_of_filter. split; [by apply Is_true_true|done].
Qed.

Lemma geojson_individualFeatures (sessions : list Session) :
  geojson sessions = individualFeatures sessions.
Proof. reflexivity. Qed.

(** C3, as stated, fails on a session of the equator: its latitude and its
    longitude are both present, the latitude is [0], and the session is in
    neither feature list and gets no marker. *)
Lemma C3_counterexample :
  is_Some (lat Examples.equator) ∧ is_Some (lon Examples.equator)
  ∧ geojson [Examples.equator] = []
  ∧ individualFeatures [Examples.equator] = []
  ∧ markersMap (pool (step initial (Render (Examples.timeline [Examples.equator]) []))) = ∅.
Proof.
  split; [by eexists|]. split; [by eexists|].
  split; [by vm_compute|]. split; by vm_compute.
Qed.

(** C3, amended.  A session is left out of the feature collection of the
    source and of the features of the markers exactly when its latitude or
    its longitude is falsy, that is missing or equal to [0]; a session whose
    latitude and longitude are both present and different from [0] has its
    feature in both, and, its identifier being non-empty, a marker in the
    pool after a pass over the individual features. *)
Theorem C3_falsy_coordinates_excluded (sessions : list Session) (s : Session) :
  s ∈ sessions →
  (has_coordinates s = true
     ↔ ∃ la lo, lat s = Some la ∧ lon s = Some lo ∧ la ≠ Q2Qc 0 ∧ lo ≠ Q2Qc 0)
  ∧ ((∃ f, f ∈ geojson sessions ∧ properties f = PointProperties s) ↔ has_coordinates s = true)
  ∧ ((∃ f, f ∈ individualFeatures sessions ∧ properties f = PointProperties s)
       ↔ has_coordinates s = true)
  ∧ (has_coordinates s = true →
       session_feature s ∈ geojson sessions ∧ session_feature s ∈ individualFeatures sessions)
  ∧ (has_coordinates s = true → session_id s ≠ EmptyString →
       ∀ P, session_id s ∈ dom (markersMap (apply_diff (individualFeatures sessions) P))).
Proof.
  intros Hs. split; [apply has_coordinates_true|].
  assert (Hiff : (∃ f, f ∈ individualFeatures sessions ∧ properties f = PointProperties s)
                 ↔ has_coordinates s = true).
  { split.
    - intros (f & (s' & _ & Hc & ->)%elem_of_individualFeatures & [= ->]). done.
    - intros Hc. exists (session_feature s). split; [|done].
      apply elem_of_individualFeatures. by exists s. }
  assert (Hin : has_coordinates s = true → session_feature s ∈ individualFeatures sessions).
  { intros Hc. apply elem_of_individualFeatures. by exists s. }
  split; [by rewrite geojson_individualFeatures|]. split; [done|].
  split; [intros Hc; rewrite geojson_individualFeatures; auto|].
  intros Hc Hid P. rewrite apply_diff_dom. apply elem_of_currentSessionIds.
  exists (session_feature s). split; [auto|]. by apply feature_key_Some.
Qed.

Lemma C3_falsy_coordinates_excluded_witness :
  (∃ f, f ∈ geojson [Examples.alice; Examples.equator]
        ∧ properties f = PointProperties Examples.alice)
  ∧ ¬ (∃ f, f ∈ geojson [Examples.alice; Examples.equator]
            ∧ properties f = PointProperties Examples.equator).
Proof.
  split.
  - apply (C3_falsy_coordinates_excluded [Examples.alice; Examples.equator] Examples.alice).
    + apply list_elem_of_here.
    + vm_compute. reflexivity.
  - intros H.
    apply (C3_falsy_coordinates_excluded [Examples.alice; Examples.equator] Examples.equator) in H.
    + vm_compute in H. discriminate H.
    + apply list_elem_of_further, list_elem_of_here.
Defined.

(** ** C4: the position of a marker *)

(** C4, as stated, fails on a session whose longitude has more than four
    decimals: after the pass the marker bound to alice (longitude 1.23456)
    is at longitude 1.2346. *)
Lemma C4_counterexample :
  ∃ m c, markersMap (pool Examples.two_markers) !! "a"%string = Some m
    ∧ listeners (pool Examples.two_markers) !! marker_id m = Some c
    ∧ closure_session c = Examples.alice
    ∧ (lngLat m).1 = num 12346 10000
    ∧ Some (lngLat m).1 ≠ lon Examples.alice.
Proof.
  eexists _, _. split; [vm_compute; reflexivity|].
  split; [vm_compute; reflexivity|]. split; [reflexivity|]. split.
  - apply Qc_is_canon. vm_compute. reflexivity.
  - intros H. apply (f_equal (fmap this)) in H. vm_compute in H. discriminate H.
Qed.

(** C4, amended.  After a pass has continued with nothing outstanding,
    every marker of the pool is at the coordinates of the geometry of the
    last gathered feature that carries its identifier; when the features are
    those of the sessions (clustering disabled), these are the longitude and
    the latitude of a session with that identifier, each rounded to four
    decimals. *)
Theorem C4_marker_at_feature_coordinates
    (sessions : list Session) (p : Pass) (st : State) (k : string) (m : Marker) :
  outstanding p = [] →
  markersMap (pool (finish p st)) !! k = Some m →
  (∃ f, last_feature k (unclusteredFeatures p) = Some f
        ∧ f ∈ unclusteredFeatures p
        ∧ feature_session_id f = Some k
        ∧ lngLat m = coordinates f)
  ∧ (unclusteredFeatures p = individualFeatures sessions →
       ∃ s, s ∈ sessions ∧ session_id s = k ∧ has_coordinates s = true
            ∧ lngLat m = (round (lon s) 4, round (lat s) 4)).
Proof.
  intros Hout Hk. rewrite finish_done in Hk by done. simpl in Hk.
  pose proof (apply_diff_lookup (unclusteredFeatures p) (pool st) k) as H.
  destruct (last_feature k (unclusteredFeatures p)) as [f|] eqn:Hlast; [|congruence].
  destruct H as (m' & Hm' & Hpos). assert (m' = m) by congruence. subst m'.
  destruct (last_feature_Some _ _ _ Hlast) as [Hf Hkey].
  apply feature_key_Some in Hkey as [Hid _].
  split; [by exists f|].
  intros Heq. rewrite Heq in Hf.
  apply elem_of_individualFeatures in Hf as (s & Hs & Hc & ->).
  exists s. unfold feature_session_id in Hid. simpl in Hid.
  split; [done|]. split; [congruence|]. by split.
Qed.

Lemma C4_marker_at_feature_coordinates_witness :
  ∃ m, markersMap (pool Examples.two_markers) !! "a"%string = Some m
    ∧ ∃ s, s ∈ [Examples.alice; Examples.bob] ∧ session_id s = "a"%string
           ∧ has_coordinates s = true
           ∧ lngLat m = (round (lon s) 4, round (lat s) 4).
Proof.
  eexists. split; [vm_compute; reflexivity|].
  apply (C4_marker_at_feature_coordinates [Examples.alice; Examples.bob]
           {| unclusteredFeatures := individualFeatures [Examples.alice; Examples.bob];
              outstanding := [] |} (init_effect (Examples.timeline [Examples.alice; Examples.bob])
                                      (cleanup initial))).
  - reflexivity.
  - vm_compute. reflexivity.
  - reflexivity.
Defined.

(** ** C5: switches of view and of clustering mode *)

Lemma cleanup_subscribed (st : State) :
  is_Some (subscribed st) →
  cleanup st = with_subscribed None (with_pool destroy_all st).
Proof. intros [sessions Hs]. unfold cleanup. by rewrite Hs. Qed.

(** C5, as stated, fails.  A crowd is rendered and a pass awaits the leaves
    of a small cluster; the view leaves the timeline, which tears the layer
    down, and the leaves arrive afterwards: the pass puts the markers 0 and
    1 of alice and bob in the pool, while no teardown function is
    registered.  The next timeline render shows two sessions one by one:
    the clustering mode has flipped since the last pass, and yet the
    markers 0 and 1 are compared with the new features and kept, with
    their listeners.  Likewise a switch away from the timeline view while
    the map is not ready destroys none of them. *)
Lemma C5_counterexample :
  let late := run Examples.awaiting
                [Render Examples.countries []; LeafReplied 0 (7, 2) Examples.leaves_of_small] in
  let two := [Examples.alice; Examples.bob] in
  let flipped := step late (Render (Examples.timeline two) []) in
  let unready := {| mapReady := false; mapView := "countries"; activeSessions := [];
                    hasSource := true |} in
  let sourceless := {| mapReady := true; mapView := "timeline"; activeSessions := two;
                       hasSource := false |} in
  let away := run late [Render sourceless []; Render unready []] in
  reachable late
  ∧ shouldShowClusters Examples.crowd = true ∧ shouldShowClusters two = false
  ∧ (marker_id <$> markersMap (pool late)) = {[ "a"%string := 0%nat; "b"%string := 1%nat ]}
  ∧ (marker_id <$> markersMap (pool flipped)) = {[ "a"%string := 0%nat; "b"%string := 1%nat ]}
  ∧ onMap (pool flipped) = {[ 0%nat; 1%nat ]}
  ∧ dom (listeners (pool flipped)) = {[ 0%nat; 1%nat ]}
  ∧ (marker_id <$> markersMap (pool away)) = {[ "a"%string := 0%nat; "b"%string := 1%nat ]}
  ∧ onMap (pool away) = {[ 0%nat; 1%nat ]}.
Proof.
  intros late two flipped unready sourceless away.
  split; [repeat apply reachable_step; apply reachable_initial|].
  repeat split; by vm_compute.
Qed.

(** C5, amended.  A run of the effect in another view than the timeline,
    with the map ready, destroys every marker of the pool and leaves the
    pool empty; so does, whatever the map, the function returned by the
    previous run when that run is mounted.  When the clustering mode of a
    render differs from that of the mounted effect, this function runs
    first: it destroys every marker and clears the pool, so that no entry
    survives to be compared with the new features; the markers found in the
    pool afterwards have all been created anew.  When no run is mounted
    (the last one returned early, or has been torn down) the markers that a
    late pass has put in the pool are not destroyed by a timeline render:
    the pool is what the pass of the render makes of it, and without
    clusters a marker whose identifier is still current is kept, on the
    map. *)
Theorem C5_mode_switch_destroys_all (st : State) (props : Props) (queried : list Feature) :
  pool_wf (pool st) →
  (mapView props ≠ "timeline"%string →
   mapReady props = true ∨ is_Some (subscribed st) →
     markersMap (pool (render props queried st)) = ∅
     ∧ ∀ k m, markersMap (pool st) !! k = Some m →
         destroyed m (pool (render props queried st)))
  ∧ (∀ sessions, subscribed st = Some sessions →
     shouldShowClusters sessions ≠ shouldShowClusters (activeSessions props) →
       markersMap (pool (cleanup st)) = ∅
       ∧ (∀ k m, markersMap (pool st) !! k = Some m → destroyed m (pool (cleanup st)))
       ∧ (∀ k m, markersMap (pool st) !! k = Some m →
            destroyed m (pool (render props queried st)))
       ∧ (∀ k m, markersMap (pool (render props queried st)) !! k = Some m →
            (next_id (pool st) ≤ marker_id m)%nat))
  ∧ (subscribed st = None →
     mapReady props = true → mapView props = "timeline"%string → hasSource props = true →
       pool (render props queried st) = pool (updateMarkers (activeSessions props) queried st)
       ∧ (shouldShowClusters (activeSessions props) = false →
          ∀ k m, markersMap (pool st) !! k = Some m →
            k ∈ currentSessionIds (individualFeatures (activeSessions props)) →
            ∃ m', markersMap (pool (render props queried st)) !! k = Some m'
                  ∧ marker_id m' = marker_id m
                  ∧ marker_id m ∈ onMap (pool (render props queried st))
                  ∧ listeners (pool (render props queried st)) !! marker_id m
                    = listeners (pool st) !! marker_id m))
  ∧ (subscribed st = None → mapReady props = false → render props queried st = st).
Proof.
  intros Hwf. pose proof Hwf as (H1 & _ & _).
  assert (Hold : ∀ k m, markersMap (pool st) !! k = Some m →
            destroyed m (destroy_all (pool st)) ∧
            (marker_id m < next_id (destroy_all (pool st)))%nat).
  { intros k m Hk. split; [by eapply destroy_all_destroyed|].
    rewrite destroy_all_next_id. by destruct (H1 _ _ Hk) as (_ & ? & _). }
  split; [|split; [|split]].
  - intros Hview Hor.
    assert (Hpool : pool (render props queried st) = pool (cleanup st)
                    ∨ pool (render props queried st) = destroy_all (pool (cleanup st))).
    { unfold render, effect. destruct (mapReady props); simpl.
      - rewrite bool_decide_false by done. simpl. right. by rewrite init_effect_pool.
      - left. apply init_effect_pool. }
    destruct (subscribed st) as [sessions|] eqn:Hsub.
    + rewrite cleanup_subscribed in Hpool by (by rewrite Hsub). simpl in Hpool.
      destruct Hpool as [-> | ->].
      * split; [done|]. intros k m Hk. by apply (Hold k m).
      * split; [done|]. intros k m Hk. destruct (Hold k m Hk) as [Hd Hlt].
        eapply pool_steps_destroyed; [apply rtc_once; constructor|done..].
    + destruct Hor as [Hready|[? [=]]].
      unfold render, cleanup, effect, init_effect. rewrite Hsub, Hready. simpl.
      rewrite bool_decide_false by done. simpl. split; [done|].
      intros k m Hk. by eapply destroy_all_destroyed.
  - intros sessions Hsub _.
    assert (Hc : pool (cleanup st) = destroy_all (pool st)).
    { by rewrite cleanup_subscribed by (by rewrite Hsub). }
    assert (Hsteps : rtc pool_step (destroy_all (pool st)) (pool (render props queried st))).
    { unfold render. rewrite <- Hc, <- (init_effect_pool props (cleanup st)).
      apply effect_pool. }
    rewrite Hc. split; [done|]. split; [|split].
    + intros k m Hk. by apply (Hold k m).
    + intros k m Hk. destruct (Hold k m Hk) as [Hd Hlt].
      eapply pool_steps_destroyed; done.
    + intros k m Hk. rewrite <- (destroy_all_next_id (pool st)).
      eapply pool_steps_new_marker; done.
  - intros Hsub Hready Hview Hsource.
    assert (Hpool : pool (render props queried st)
                    = pool (updateMarkers (activeSessions props) queried st)).
    { unfold render, cleanup, effect, init_effect. rewrite Hsub, Hready, Hsource. cbn [negb].
      rewrite bool_decide_true by done. cbn [negb].
      change (pool (with_subscribed ?v ?s)) with (pool s).
      by apply updateMarkers_pool_eq. }
    split; [done|]. intros Hclusters k m Hk Hin. rewrite Hpool.
    rewrite updateMarkers_individual, finish_done by done. cbn [with_pool pool unclusteredFeatures].
    destruct (apply_diff_kept _ _ _ _ Hk Hin) as (m' & Hm' & Hid).
    exists m'. split; [done|]. split; [done|].
    pose proof (apply_diff_wf (individualFeatures (activeSessions props)) _ Hwf) as (H1' & _).
    destruct (H1' _ _ Hm') as (Hon & _). rewrite Hid in Hon. split; [done|].
    unfold apply_diff.
    destruct (upserts_old_surface (individualFeatures (activeSessions props))
                (removal_pass (currentSessionIds (individualFeatures (activeSessions props)))
                   (pool st)) (marker_id m)) as [_ ->].
    { rewrite removal_pass_next_id. by destruct (H1 _ _ Hk) as (_ & ? & _). }
    apply removal_pass_listeners_kept. intros k' m'' Hk' Hnin Hid'.
    assert (k' = k) by eauto using pool_wf_inj. congruence.
  - intros Hsub Hready. unfold render, cleanup, effect, init_effect.
    by rewrite Hsub, Hready.
Qed.

(** From the state that shows alice and bob one by one: leaving the
    timeline view empties the pool, and a crowd (clusters shown) replaces
    the marker of alice by a new one. *)
Lemma C5_mode_switch_destroys_all_witness :
  let flipped := render (Examples.timeline Examples.crowd) [session_feature Examples.alice]
                   Examples.two_markers in
  markersMap (pool (render Examples.countries [] Examples.two_markers)) = ∅
  ∧ ∃ m, markersMap (pool flipped) !! "a"%string = Some m ∧ (2 ≤ marker_id m)%nat.
Proof.
  intros flipped.
  assert (Hwf : pool_wf (pool Examples.two_markers)).
  { apply reachable_wf. apply reachable_step, reachable_initial. }
  split.
  - apply (C5_mode_switch_destroys_all Examples.two_markers Examples.countries [] Hwf).
    + vm_compute. intros H. discriminate H.
    + left. reflexivity.
  - destruct (C5_mode_switch_destroys_all Examples.two_markers
                (Examples.timeline Examples.crowd) [session_feature Examples.alice] Hwf)
      as (_ & Hflip & _).
    destruct (Hflip [Examples.alice; Examples.bob]) as (_ & _ & _ & Hnew).
    + reflexivity.
    + vm_compute. intros H. discriminate H.
    + assert (is_Some (markersMap (pool flipped) !! "a"%string)) as [m Hm].
      { vm_compute. by eexists. }
      exists m. split; [exact Hm|]. by apply (Hnew "a"%string).
Defined.

(** ** C6: a pass that is suspended when the layer is torn down *)

(** C6, as stated, fails: a pass awaits the leaves of a small cluster, the
    view leaves the timeline (or the component is unmounted), which clears
    the pool and unsubscribes the handlers; the leaves then arrive, the pass
    continues and puts the markers of alice and bob in the pool. *)
Lemma C6_counterexample :
  let late := LeafReplied 0 (7, 2) Examples.leaves_of_small in
  let switched := step Examples.awaiting (Render Examples.countries []) in
  let unmounted := step Examples.awaiting Unmount in
  passes Examples.awaiting !! 0%nat = Some {| unclusteredFeatures := []; outstanding := [(7, 2)] |}
  ∧ torn_down switched ∧ torn_down unmounted
  ∧ dom (markersMap (pool (step switched late))) = {["a"; "b"]}%string
  ∧ dom (markersMap (pool (step unmounted late))) = {["a"; "b"]}%string.
Proof.
  intros late switched unmounted.
  split; [by vm_compute|]. split; [by vm_compute|]. split; [by vm_compute|].
  split; by vm_compute.
Qed.

Lemma leafCallback_last (st : State) (i : nat) (p : Pass) (req : LeafRequest) (r : LeafReply) :
  passes st !! i = Some p → outstanding p = [req] →
  pool (leafCallback i req r st)
  = apply_diff (unclusteredFeatures p ++ reply_leaves r) (pool st).
Proof.
  intros Hp Hout. unfold leafCallback. rewrite Hp, Hout.
  rewrite bool_decide_true by apply list_elem_of_here.
  unfold finish, deliver. rewrite Hout. simpl. by rewrite decide_True.
Qed.

(** C6, amended.  The teardown is the function returned by a run of the
    effect that reached the subscription of its handlers: React runs it at
    the unmount and before the next run of the effect.  It clears the pool
    and unsubscribes the handlers at once; a run of the effect in another
    view, with the map ready, clears the pool as well.  Afterwards viewport
    events and map clicks change nothing and start no pass.  A pass that
    was suspended at that time is not cancelled: when its last request is
    answered it applies its diff, and the keys of the pool become the
    identifiers of its features; the pool stays empty only if the pass has
    no feature with an identifier.  When no such function is registered
    (the last run of the effect returned early) an unmount changes
    nothing, and neither does a render with the map not ready: markers
    that a late pass has created stay in the pool. *)
Theorem C6_suspended_pass_applies_after_teardown
    (st : State) (props : Props) (queried : list Feature)
    (i : nat) (p : Pass) (req : LeafRequest) (r : LeafReply) (st0 : State) :
  (passes st !! i = Some p → outstanding p = [req] →
   (st0 = step st Unmount ∧ is_Some (subscribed st))
   ∨ (st0 = step st (Render props queried) ∧ mapView props ≠ "timeline"%string
      ∧ (mapReady props = true ∨ is_Some (subscribed st))) →
   torn_down st0
   ∧ (∀ queried', step st0 (Viewport queried') = st0)
   ∧ step st0 MapClick = st0
   ∧ dom (markersMap (pool (step st0 (LeafReplied i req r))))
     = currentSessionIds (unclusteredFeatures p ++ reply_leaves r)
   ∧ (markersMap (pool (step st0 (LeafReplied i req r))) = ∅
      ↔ currentSessionIds (unclusteredFeatures p ++ reply_leaves r) = ∅))
  ∧ (subscribed st = None →
     step st Unmount = st
     ∧ (mapReady props = false → step st (Render props queried) = st)).
Proof.
  split.
  - intros Hp Hout Hst0.
    assert (Htorn : torn_down st0 ∧ passes st0 = passes st).
    { destruct Hst0 as [[-> Hsub]|(-> & Hview & Hor)]; cbn [step].
      - rewrite cleanup_subscribed by done. by repeat split.
      - unfold render, effect, init_effect.
        destruct (subscribed st) as [sessions|] eqn:Hsub.
        + rewrite cleanup_subscribed by (by rewrite Hsub).
          destruct (mapReady props); simpl; [|by repeat split].
          rewrite bool_decide_false by done. simpl. by repeat split.
        + destruct Hor as [Hready|[? [=]]]. unfold cleanup. rewrite Hsub, Hready. simpl.
          rewrite bool_decide_false by done. simpl. by repeat split. }
    destruct Htorn as [[Hempty Hnone] Hpasses].
    split; [done|]. split; [|split].
    + intros queried'. simpl. by rewrite Hnone.
    + simpl. by rewrite Hnone.
    + simpl. rewrite <- Hpasses in Hp.
      rewrite (leafCallback_last st0 i p req r Hp Hout).
      split; [apply apply_diff_dom|].
      rewrite <- (apply_diff_dom (unclusteredFeatures p ++ reply_leaves r) (pool st0)).
      split; [intros ->; apply dom_empty_L|apply dom_empty_inv_L].
  - intros Hsub. cbn [step]. unfold render, cleanup, effect, init_effect. rewrite Hsub.
    split; [done|]. by intros ->.
Qed.

(** The layer that awaits the leaves of alice and bob is unmounted, and
    the leaves arrive. *)
Lemma C6_suspended_pass_applies_after_teardown_witness :
  dom (markersMap (pool (step (step Examples.awaiting Unmount)
         (LeafReplied 0 (7, 2) Examples.leaves_of_small))))
  = {["a"; "b"]}%string.
Proof.
  destruct (C6_suspended_pass_applies_after_teardown
              Examples.awaiting Examples.countries [] 0
              {| unclusteredFeatures := []; outstanding := [(7, 2)] |} (7, 2)
              Examples.leaves_of_small
              (step Examples.awaiting Unmount)) as [Hlate _].
  destruct Hlate as (_ & _ & _ & Hdom & _).
  - vm_compute. reflexivity.
  - reflexivity.
  - left. split; [reflexivity|]. vm_compute. by eexists.
  - rewrite Hdom. vm_compute. reflexivity.
Defined.

(** ** C7: the threshold of the cluster expansion *)

(** C7.  With clusters shown, a pass is started for what the source
    answers, and a cluster feature of the answer has the point count [c]
    (never [0]: a cluster aggregates at least one point).  Its leaves are
    requested exactly when [c < 10].  When the request is answered, the
    features of the pass are those it had and the leaves answered (every
    one of them, unless the answer is an error or has no leaves), and when
    it was the only request the markers of the pool are those of the
    identifiers of these features.  With [c >= 10] nothing is requested,
    so no answer for the cluster is ever taken, whatever it holds, and the
    cluster is drawn by the cluster circle layer, which draws exactly the
    clusters of ten points or more; the cluster feature itself is never
    among the features of the pass. *)
Theorem C7_cluster_threshold
    (sessions : list Session) (queried : list Feature) (st : State)
    (f : Feature) (cid c : Z) :
  shouldShowClusters sessions = true →
  f ∈ queried → properties f = ClusterProperties cid c → c ≠ 0 →
  let p := collect queried in
  let i := length (passes st) in
  let st' := updateMarkers sessions queried st in
  let substituted (r : LeafReply) (l : Feature) :=
    l ∈ unclusteredFeatures p ∨ (leaf_err r = false ∧ ∃ ls, leaves r = Some ls ∧ l ∈ ls) in
  passes st' !! i = Some p
  ∧ ((cid, c) ∈ outstanding p ↔ c < 10)
  ∧ (c < 10 → ∀ r,
       (∃ p', passes (step st' (LeafReplied i (cid, c) r)) !! i = Some p'
              ∧ ∀ l, l ∈ unclusteredFeatures p' ↔ substituted r l)
       ∧ (outstanding p = [(cid, c)] →
          ∀ k, is_Some (markersMap (pool (step st' (LeafReplied i (cid, c) r))) !! k)
               ↔ ∃ l, substituted r l ∧ feature_key l = Some k))
  ∧ (10 ≤ c → ∀ r, step st' (LeafReplied i (cid, c) r) = st')
  ∧ (cluster_layer_filter f = true ↔ 10 ≤ c)
  ∧ f ∉ unclusteredFeatures p.
Proof.
  intros Hclusters Hf Hprops Hc p i st' substituted.
  assert (Hsmall : small_cluster c = true ↔ c < 10).
  { unfold small_cluster. rewrite andb_true_iff, negb_true_iff.
    rewrite bool_decide_eq_false, bool_decide_eq_true. lia. }
  assert (Hreq : (cid, c) ∈ outstanding p ↔ c < 10).
  { unfold p. rewrite elem_of_collect_outstanding, Hsmall. split; [by intros [_ ?]|].
    intros Hlt. split; [by exists f|done]. }
  assert (Hst' : st' = finish p (with_passes (λ ps, ps ++ [p]) st))
    by by apply updateMarkers_clusters.
  assert (Hpasses : passes st' = passes st ++ [p]).
  { rewrite Hst'. unfold finish. by destruct (outstanding p). }
  assert (Hi : passes st' !! i = Some p).
  { rewrite Hpasses. unfold i. rewrite lookup_app_r by done.
    by rewrite Nat.sub_diag. }
  split; [done|]. split; [done|]. split; [|split; [|split]].
  - intros Hlt r. apply Hreq in Hlt as Hout.
    assert (Hsub : ∀ l, l ∈ unclusteredFeatures (deliver (cid, c) r p) ↔ substituted r l).
    { intros l. cbn [deliver unclusteredFeatures]. rewrite elem_of_app, elem_of_reply_leaves.
      done. }
    split.
    + exists (deliver (cid, c) r p). split; [|done].
      cbn [step]. unfold leafCallback. rewrite Hi, bool_decide_true by done.
      assert (∀ q s, passes (finish q s) = passes s) as ->.
      { intros q s. unfold finish. by destruct (outstanding q). }
      cbn [with_passes passes]. apply list_lookup_insert_eq.
      by apply lookup_lt_Some in Hi.
    + intros Honly k. cbn [step].
      rewrite (leafCallback_last st' i p (cid, c) r Hi Honly).
      rewrite <- elem_of_dom, apply_diff_dom, elem_of_currentSessionIds.
      split.
      * intros (l & Hl & Hk). exists l. split; [|done].
        apply elem_of_app in Hl as [Hl|Hl]; [by left|right]. by apply elem_of_reply_leaves.
      * intros (l & Hl & Hk). exists l. split; [|done]. apply elem_of_app.
        destruct Hl as [Hl|Hl]; [by left|right]. by apply elem_of_reply_leaves.
  - intros Hge r. cbn [step]. unfold leafCallback. rewrite Hi.
    rewrite bool_decide_false; [done|]. rewrite Hreq. lia.
  - unfold cluster_layer_filter. rewrite Hprops. apply bool_decide_eq_true.
  - unfold p. rewrite collect_unclusteredFeatures, list_elem_of_filter.
    unfold is_point. rewrite Hprops. simpl. tauto.
Qed.

(** A crowd, and the source answers a cluster of two points and one of
    ten: the leaves of the former are requested, and alice and bob get
    their markers when they arrive; an answer for the latter is not
    taken. *)
Lemma C7_cluster_threshold_witness :
  let st' := updateMarkers Examples.crowd [Examples.small; Examples.large] initial in
  (7, 2) ∈ outstanding (collect [Examples.small; Examples.large])
  ∧ is_Some (markersMap (pool (step st' (LeafReplied 0 (7, 2) Examples.leaves_of_small)))
               !! "a"%string)
  ∧ step st' (LeafReplied 0 (9, 10) Examples.leaves_of_small) = st'.
Proof.
  intros st'. split; [|split].
  - apply (C7_cluster_threshold Examples.crowd [Examples.small; Examples.large] initial
             Examples.small 7 2).
    + reflexivity.
    + apply list_elem_of_here.
    + reflexivity.
    + lia.
    + lia.
  - destruct (C7_cluster_threshold Examples.crowd [Examples.small; Examples.large] initial
                Examples.small 7 2) as (_ & _ & Hsub & _).
    + reflexivity.
    + apply list_elem_of_here.
    + reflexivity.
    + lia.
    + destruct (Hsub ltac:(lia) Examples.leaves_of_small) as [_ Hmarkers].
      apply Hmarkers; [reflexivity|].
      exists (session_feature Examples.alice). split; [|reflexivity].
      right. split; [reflexivity|]. eexists. split; [reflexivity|]. apply list_elem_of_here.
  - apply (C7_cluster_threshold Examples.crowd [Examples.small; Examples.large] initial
             Examples.large 9 10).
    + reflexivity.
    + apply list_elem_of_further, list_elem_of_here.
    + reflexivity.
    + lia.
    + lia.
Defined.

(** ** C8: nothing is applied before all answers have arrived *)

Lemma finish_passes (p : Pass) (st : State) : passes (finish p st) = passes st.
Proof. unfold finish. by destruct (outstanding p). Qed.

Lemma leafCallback_passes (st : State) (i : nat) (p : Pass) (req : LeafRequest) (r : LeafReply) :
  passes st !! i = Some p → req ∈ outstanding p →
  passes (leafCallback i req r st) = <[i := deliver req r p]> (passes st).
Proof.
  intros Hp Hreq. unfold leafCallback. rewrite Hp, bool_decide_true by done.
  by rewrite finish_passes.
Qed.

Lemma leafCallback_outstanding (st : State) (i : nat) (p : Pass) (req : LeafRequest) (r : LeafReply) :
  passes st !! i = Some p → req ∈ outstanding p →
  passes (leafCallback i req r st) !! i = Some (deliver req r p)
  ∧ (outstanding (deliver req r p) ≠ [] → pool (leafCallback i req r st) = pool st)
  ∧ (outstanding (deliver req r p) = [] →
       pool (leafCallback i req r st)
       = apply_diff (unclusteredFeatures p ++ reply_leaves r) (pool st)).
Proof.
  intros Hp Hreq. unfold leafCallback. rewrite Hp, bool_decide_true by done.
  assert (Hi : (i < length (passes st))%nat) by by eapply lookup_lt_Some.
  unfold finish. destruct (outstanding (deliver req r p)) eqn:Hout; simpl.
  - split; [by apply list_lookup_insert_eq|]. split; [done|]. done.
  - split; [by apply list_lookup_insert_eq|]. split; [done|]. done.
Qed.

(** A pass that awaits answers: while one request at least is outstanding
    the pool is as it was, and after the last answer it is the pool of the
    diff of all the features of the pass. *)
Lemma replies_await_all
    (rs : list (LeafRequest * LeafReply)) (st : State) (i : nat) (p : Pass)
    (out : list LeafRequest) :
  passes st !! i = Some p →
  answered (outstanding p) rs = Some out →
  let st' := run st (replies i rs) in
  passes st' !! i
  = Some {| unclusteredFeatures := unclusteredFeatures p ++ received rs; outstanding := out |}
  ∧ (out ≠ [] → pool st' = pool st)
  ∧ (out = [] → rs ≠ [] →
       pool st' = apply_diff (unclusteredFeatures p ++ received rs) (pool st)).
Proof.
  revert st p. induction rs as [|[req r] rs IH]; intros st p Hp Hans st'; subst st'.
  - simpl in *. injection Hans as <-. unfold received. simpl. rewrite app_nil_r.
    split; [by destruct p|]. split; done.
  - simpl in Hans. case_bool_decide as Hreq; [|done].
    destruct (leafCallback_outstanding st i p req r Hp Hreq) as (Hp' & Hsame & Hdiff).
    assert (Hrun : run st (replies i ((req, r) :: rs))
                   = run (leafCallback i req r st) (replies i rs)) by done.
    assert (Hrec : unclusteredFeatures p ++ received ((req, r) :: rs)
                   = unclusteredFeatures (deliver req r p) ++ received rs).
    { unfold received. simpl. by rewrite app_assoc. }
    assert (Hans' : answered (outstanding (deliver req r p)) rs = Some out) by done.
    rewrite Hrun, Hrec. clear Hrun Hrec Hans.
    assert (Huf : unclusteredFeatures (deliver req r p)
                  = unclusteredFeatures p ++ reply_leaves r) by done.
    rewrite <- Huf in Hdiff. clear Huf.
    set (p' := deliver req r p) in *. clearbody p'.
    destruct (outstanding p') as [|req' out'] eqn:Hout.
    + destruct rs as [|[req'' r''] rs].
      * simpl in *. injection Hans' as <-. unfold received. simpl. rewrite app_nil_r.
        split; [rewrite Hp'; destruct p'; simpl in *; congruence|].
        split; [done|]. intros _ _. by apply Hdiff.
      * cbn [answered] in Hans'.
        rewrite bool_decide_false in Hans' by apply not_elem_of_nil. done.
    + destruct (IH (leafCallback i req r st) p' Hp') as (Hq & Hs & Hd).
      { by rewrite Hout. }
      split; [done|]. split.
      * intros Hne. rewrite Hs by done. by apply Hsame.
      * intros -> _. destruct rs as [|a rs]; [simpl in Hans'; congruence|].
        rewrite Hd by done. by rewrite Hsame.
Qed.

(** C8.  Within one pass over a query, with clusters shown: from the start
    of the pass and while answers arrive, as long as one request at least is
    outstanding the pool (its entries, the markers on the map, the
    listeners) is as it was before the pass; once every request has been
    answered (at once when there is none), the pool is the one of the diff
    computed from all the features of the pass, the points of the query and
    the leaves of all the answers. *)
Theorem C8_diff_awaits_all_leaves
    (sessions : list Session) (queried : list Feature) (st : State)
    (rs : list (LeafRequest * LeafReply)) (out : list LeafRequest) :
  shouldShowClusters sessions = true →
  answered (outstanding (collect queried)) rs = Some out →
  let st' := run (updateMarkers sessions queried st) (replies (length (passes st)) rs) in
  let features := unclusteredFeatures (collect queried) ++ received rs in
  passes st' !! length (passes st)
  = Some {| unclusteredFeatures := features; outstanding := out |}
  ∧ (out ≠ [] → pool st' = pool st)
  ∧ (out = [] → pool st' = apply_diff features (pool st)).
Proof.
  intros Hclusters Hans st' features. subst st' features.
  rewrite updateMarkers_clusters by done.
  set (p := collect queried) in *.
  set (st1 := with_passes (λ ps, ps ++ [p]) st).
  assert (Hp : passes st1 !! length (passes st) = Some p).
  { simpl. rewrite lookup_app_r by done. by rewrite Nat.sub_diag. }
  destruct (outstanding p) as [|req0 out0] eqn:Hout.
  - destruct rs as [|[req r] rs].
    + simpl in Hans. injection Hans as <-. unfold received. simpl. rewrite app_nil_r.
      rewrite finish_done by done. simpl.
      split; [|done]. rewrite lookup_app_r by done. rewrite Nat.sub_diag. simpl.
      destruct p; simpl in *; congruence.
    + cbn [answered] in Hans.
      rewrite bool_decide_false in Hans by apply not_elem_of_nil. done.
  - rewrite finish_outstanding by (by rewrite Hout).
    destruct (replies_await_all rs st1 (length (passes st)) p out Hp) as (Hq & Hs & Hd).
    { by rewrite Hout. }
    split; [done|]. split; [done|].
    intros ->. apply Hd; [done|]. intros ->. simpl in Hans. congruence.
Qed.

(** A query with two small clusters: after the first answer the pool is
    untouched, after the second it holds the markers of both answers. *)
Lemma C8_diff_awaits_all_leaves_witness :
  let first := ((7, 2), Examples.leaves_of_small) in
  let second := ((8, 3), Examples.leaves_of_small') in
  let start := updateMarkers Examples.crowd [Examples.small; Examples.small'] initial in
  pool (run start (replies 0 [first])) = pool initial
  ∧ dom (markersMap (pool (run start (replies 0 [first; second]))))
    = {["a"; "b"; "c"; "d"; "e"]}%string.
Proof.
  intros first second start. split.
  - apply (C8_diff_awaits_all_leaves Examples.crowd [Examples.small; Examples.small']
             initial [first] [(8, 3)]).
    + vm_compute. reflexivity.
    + vm_compute. reflexivity.
    + intros H. discriminate H.
  - destruct (C8_diff_awaits_all_leaves Examples.crowd [Examples.small; Examples.small']
                initial [first; second] []) as (_ & _ & Hd).
    + vm_compute. reflexivity.
    + vm_compute. reflexivity.
    + unfold start. simpl length in Hd. rewrite Hd by reflexivity.
      rewrite apply_diff_dom. vm_compute. reflexivity.
Defined.

(** ** C9: a click on a marker *)

(** C9, as stated, fails in its last clause: the popup is not put at the
    coordinates of the session.  The marker of alice, whose longitude is
    1.23456, is clicked: the popup shows alice at the longitude 1.2346, the
    longitude of the feature for which the marker was created.  And in a
    crowd, when a later answer of the source has the point of alice at the
    longitude 1.2345, her marker is kept and moved there, but a click
    still opens the popup at the longitude 1.2346. *)
Lemma C9_counterexample :
  let clicked := step Examples.two_markers (MarkerClick 0 true) in
  let elsewhere := mkFeature (PointProperties Examples.alice) (num 12345 10000, num 2 1) in
  let moved := step Examples.crowd_with_alice (Viewport [elsewhere]) in
  reachable clicked ∧ reachable moved
  ∧ lon Examples.alice = Some (num 123456 100000) ∧ lat Examples.alice = Some (num 2 1)
  ∧ openTooltipSessionIdRef (tooltip clicked) = Some "a"%string
  ∧ popupRef (tooltip clicked)
    = Some {| isOpen := true; popup_lngLat := Some (num 12346 10000, num 2 1);
              popup_content := Some Examples.alice |}
  ∧ num 12346 10000 ≠ num 123456 100000
  ∧ markersMap (pool moved) !! "a"%string
    = Some {| marker_id := 0; lngLat := (num 12345 10000, num 2 1) |}
  ∧ popupRef (tooltip (step moved (MarkerClick 0 true)))
    = Some {| isOpen := true; popup_lngLat := Some (num 12346 10000, num 2 1);
              popup_content := Some Examples.alice |}.
Proof.
  intros clicked elsewhere moved.
  split; [repeat apply reachable_step; apply reachable_initial|].
  split; [repeat apply reachable_step; apply reachable_initial|].
  split; [reflexivity|]. split; [reflexivity|]. split; [by vm_compute|].
  split; [numbers_eq|]. split; [by vm_compute|]. split; numbers_eq.
Qed.

(** C9, amended.  Let the popup exist, [map.current] be set and a marker be
    clicked whose listener captured the session [s].  If the popup is
    closed, it is opened with the content of [s] and the identifier of [s]
    is recorded.  If it is open and the identifier of [s] is the recorded
    one, it is closed and nothing is recorded.  If it is open and another
    identifier is recorded, it is closed and opened again with the content
    of [s], and the identifier of [s] is recorded.  The pool is not changed
    by any of this, and without [map.current] the click changes nothing.
    The popup is put at the coordinates that the listener captured, and
    these are the coordinates of the feature for which the marker was
    created, whatever has happened since: if a pass created the marker for
    the identifier [k], which had none, then the session is that of the
    first feature of the pass with this identifier and the coordinates are
    those of the geometry of this feature; for the features of the sessions
    shown one by one, these are the longitude and the latitude of the
    session rounded to four decimals. *)
Theorem C9_marker_click_toggles_tooltip
    (st : State) (marker : nat) (c : Closure) (pop : Popup) :
  listeners (pool st) !! marker = Some c →
  popupRef (tooltip st) = Some pop →
  let s := closure_session c in
  let st' := step st (MarkerClick marker true) in
  let shown := {| isOpen := true; popup_lngLat := Some (closure_lngLat c);
                  popup_content := Some s |} in
  (isOpen pop = false →
     popupRef (tooltip st') = Some shown
     ∧ openTooltipSessionIdRef (tooltip st') = Some (session_id s))
  ∧ (isOpen pop = true → openTooltipSessionIdRef (tooltip st) = Some (session_id s) →
     popupRef (tooltip st') = Some (popup_remove pop)
     ∧ isOpen (popup_remove pop) = false
     ∧ openTooltipSessionIdRef (tooltip st') = None)
  ∧ (isOpen pop = true → openTooltipSessionIdRef (tooltip st) ≠ Some (session_id s) →
     popupRef (tooltip st') = Some (popup_show (closure_lngLat c) s (popup_remove pop))
     ∧ popup_show (closure_lngLat c) s (popup_remove pop) = shown
     ∧ openTooltipSessionIdRef (tooltip st') = Some (session_id s))
  ∧ pool st' = pool st
  ∧ step st (MarkerClick marker false) = st
  ∧ (∀ (st0 st1 : State) (features : list Feature) (k : string) (f : Feature)
       (s0 : Session) (m : Marker) (es : list Event),
       markersMap (pool st0) !! k = None →
       first_feature k features = Some f → properties f = PointProperties s0 →
       pool st1 = apply_diff features (pool st0) →
       markersMap (pool st1) !! k = Some m → marker_id m = marker →
       st = run st1 es →
       s = s0 ∧ session_id s = k ∧ closure_lngLat c = coordinates f
       ∧ (∀ sessions, features = individualFeatures sessions →
            coordinates f = (round (lon s) 4, round (lat s) 4))).
Proof.
  intros Hc Hpop s st' shown. subst s st' shown. cbn [step]. rewrite Hc.
  cbn [with_tooltip tooltip pool]. unfold toggleTooltip. rewrite Hpop. cbn [negb].
  split; [|split; [|split; [|split; [|split]]]].
  - intros ->. done.
  - intros -> Hid. rewrite bool_decide_true by done. done.
  - intros -> Hid. rewrite bool_decide_false by done. done.
  - done.
  - destruct st as [P t sub ps vis data]. cbn in *. unfold with_tooltip. cbn.
    by rewrite Hpop.
  - intros st0 st1 features k f s0 m es Hnone Hfirst Hprops Hst1 Hm Hid Hrun.
    destruct (apply_diff_created features (pool st0) k f s0 Hnone Hfirst Hprops)
      as (m' & Hm' & Hlt & Hl).
    rewrite <- Hst1 in Hm', Hlt, Hl. assert (m' = m) as -> by congruence.
    rewrite Hid in Hlt, Hl.
    assert (listeners (pool st1) !! marker = Some c) as Hc1.
    { apply (pool_steps_listener (pool st1) (pool st)); [|lia|done].
      rewrite Hrun. apply run_pool. }
    assert (c = {| closure_session := s0; closure_lngLat := coordinates f |}) as ->
      by congruence.
    cbn [closure_session closure_lngLat].
    apply first_feature_Some in Hfirst as [Hin Hkey].
    split; [done|]. split; [|split; [done|]].
    + apply feature_key_Some in Hkey as [Hkey _]. unfold feature_session_id in Hkey.
      rewrite Hprops in Hkey. congruence.
    + intros sessions ->. unfold individualFeatures in Hin.
      apply list_elem_of_fmap in Hin as (s1 & -> & _).
      cbn in Hprops. by injection Hprops as ->.
Qed.

(** The marker of alice is clicked while the popup is closed, clicked
    again, and the marker of bob is clicked while the popup shows alice;
    the popup of alice is at her rounded coordinates. *)
Lemma C9_marker_click_toggles_tooltip_witness :
  openTooltipSessionIdRef (tooltip (step Examples.two_markers (MarkerClick 0 true)))
  = Some "a"%string
  ∧ openTooltipSessionIdRef (tooltip (step Examples.tooltip_on_alice (MarkerClick 0 true)))
    = None
  ∧ openTooltipSessionIdRef (tooltip (step Examples.tooltip_on_alice (MarkerClick 1 true)))
    = Some "b"%string
  ∧ ∃ pop, popupRef (tooltip (step Examples.two_markers (MarkerClick 0 true))) = Some pop
           ∧ popup_lngLat pop = Some (round (lon Examples.alice) 4, round (lat Examples.alice) 4).
Proof.
  split; [|split; [|split]].
  - edestruct (C9_marker_click_toggles_tooltip Examples.two_markers 0) as (Hclosed & _).
    + vm_compute. reflexivity.
    + vm_compute. reflexivity.
    + destruct Hclosed as [_ H]; [reflexivity|]. exact H.
  - edestruct (C9_marker_click_toggles_tooltip Examples.tooltip_on_alice 0) as (_ & Hsame & _).
    + vm_compute. reflexivity.
    + vm_compute. reflexivity.
    + destruct Hsame as (_ & _ & H); [reflexivity|vm_compute; reflexivity|]. exact H.
  - edestruct (C9_marker_click_toggles_tooltip Examples.tooltip_on_alice 1) as (_ & _ & Hother & _).
    + vm_compute. reflexivity.
    + vm_compute. reflexivity.
    + destruct Hother as (_ & _ & H); [reflexivity|vm_compute; intros H; discriminate H|].
      exact H.
  - edestruct (C9_marker_click_toggles_tooltip Examples.two_markers 0)
      as (Hclosed & _ & _ & _ & _ & Hcreated).
    + vm_compute. reflexivity.
    + vm_compute. reflexivity.
    + destruct Hclosed as [Hshown _]; [reflexivity|].
      eexists. split; [exact Hshown|]. cbn [popup_lngLat].
      edestruct (Hcreated initial Examples.two_markers
                   (individualFeatures [Examples.alice; Examples.bob]) "a"%string
                   (session_feature Examples.alice) Examples.alice
                   {| marker_id := 0; lngLat := (num 12346 10000, num 2 1) |} [])
        as (Hs & _ & Hat & Hround).
      * reflexivity.
      * reflexivity.
      * reflexivity.
      * reflexivity.
      * numbers_eq.
      * reflexivity.
      * reflexivity.
      * rewrite Hat, <- Hs. reflexivity.
Defined.

(** ** C10: failed and empty answers *)

Lemma remove_first_length (req : LeafRequest) (out : list LeafRequest) :
  req ∈ out → S (length (remove_first req out)) = length out.
Proof.
  induction out as [|x out IH]; [by intros ?%elem_of_nil|].
  intros Hin. simpl. case_decide as Hx; [done|].
  apply elem_of_cons in Hin as [->|Hin]; [done|]. simpl. by rewrite IH.
Qed.

(** C10.  An answer to a leaf request that reports an error, or carries no
    leaves, adds no feature to the pass and resolves the request: the
    request leaves the outstanding ones and is not issued again, no pass is
    started, the other passes are as they were; the pass goes on, and once
    nothing is outstanding it applies the diff of the features it has.  An
    answer to the expansion zoom query that reports an error, or carries no
    zoom (or the zoom [0]), makes the cluster click handler request no
    camera movement.  All of these functions are total: nothing is
    raised. *)
Theorem C10_failed_queries_are_skipped :
  (∀ (st : State) (i : nat) (p : Pass) (req : LeafRequest) (r : LeafReply),
     passes st !! i = Some p → req ∈ outstanding p →
     leaf_err r = true ∨ leaves r = None ∨ leaves r = Some [] →
     let st' := step st (LeafReplied i req r) in
     passes st' !! i
     = Some {| unclusteredFeatures := unclusteredFeatures p;
               outstanding := remove_first req (outstanding p) |}
     ∧ S (length (remove_first req (outstanding p))) = length (outstanding p)
     ∧ length (passes st') = length (passes st)
     ∧ (∀ j, j ≠ i → passes st' !! j = passes st !! j)
     ∧ (remove_first req (outstanding p) ≠ [] → pool st' = pool st)
     ∧ (remove_first req (outstanding p) = [] →
          pool st' = apply_diff (unclusteredFeatures p) (pool st)))
  ∧ (∀ (rendered : list Feature) (err : bool) (zoom : option number),
       err = true ∨ zoom = None ∨ zoom = Some (Q2Qc 0) →
       handleClusterClick rendered err zoom = None).
Proof.
  split.
  - intros st i p req r Hp Hreq Hfail st'. subst st'. cbn [step].
    assert (Hnone : reply_leaves r = []).
    { unfold reply_leaves. destruct Hfail as [->|[->| ->]]; [done|by destruct (leaf_err r)..]. }
    destruct (leafCallback_outstanding st i p req r Hp Hreq) as (Hp' & Hsame & Hdiff).
    unfold deliver in *. cbn [outstanding unclusteredFeatures] in *.
    rewrite Hnone, app_nil_r in *.
    split; [done|]. split; [by apply remove_first_length|].
    split; [|split; [|split; done]].
    + rewrite (leafCallback_passes st i p req r Hp Hreq). apply length_insert.
    + intros j Hj. rewrite (leafCallback_passes st i p req r Hp Hreq).
      by apply list_lookup_insert_ne.
  - intros rendered err zoom Hfail. unfold handleClusterClick, expansionZoomCallback.
    destruct rendered as [|f rendered]; [done|].
    destruct Hfail as [->|[->| ->]]; [done|by destruct err|].
    destruct err; [done|]. unfold truthy_number. by rewrite bool_decide_true.
Qed.

(** Of two small clusters the first fails: the pass waits for the second,
    and then shows the leaves of the second alone.  A click on a cluster
    whose expansion zoom query fails moves nothing. *)
Lemma C10_failed_queries_are_skipped_witness :
  let start := updateMarkers Examples.crowd [Examples.small; Examples.small'] initial in
  let failed := step start (LeafReplied 0 (7, 2) Examples.leaves_failed) in
  passes failed !! 0%nat = Some {| unclusteredFeatures := []; outstanding := [(8, 3)] |}
  ∧ pool failed = pool start
  ∧ handleClusterClick [Examples.large] true None = None.
Proof.
  intros start failed.
  destruct C10_failed_queries_are_skipped as [Hleaf Hzoom].
  destruct (Hleaf start 0%nat {| unclusteredFeatures := []; outstanding := [(7, 2); (8, 3)] |}
              (7, 2) Examples.leaves_failed) as (Hp & _ & _ & _ & Hsame & _).
  - vm_compute. reflexivity.
  - apply list_elem_of_here.
  - left. reflexivity.
  - split; [exact Hp|]. split.
    + apply Hsame. vm_compute. intros H. discriminate H.
    + apply Hzoom. left. reflexivity.
Defined.

(** * Further properties of the hook *)

(** ** Repeating a pass *)

Lemma filter_none {A} (P : A → Prop) `{!∀ x, Decision (P x)} (l : list A) :
  (∀ x, x ∈ l → ¬ P x) → filter P l = [].
Proof.
  induction l as [|x l IH]; intros Hl; [done|].
  rewrite filter_cons_False by (apply Hl; left). apply IH. intros y Hy. apply Hl. by right.
Qed.

Lemma removal_pass_nothing_stale (ids : gset string) (P : Pool) :
  dom (markersMap P) ⊆ ids → removal_pass ids P = P.
Proof.
  intros Hsub. unfold removal_pass, toRemove. rewrite filter_none; [done|].
  intros [k m] Hkm%elem_of_map_to_list Hnin. apply Hnin, Hsub.
  apply elem_of_dom. by exists m.
Qed.

(** When the keys of all the features are in the pool, the loop creates
    nothing: the map, the listeners and the next identity are untouched. *)
Lemma upserts_surface_same (features : list Feature) (P : Pool) :
  (∀ f k, f ∈ features → feature_key f = Some k → is_Some (markersMap P !! k)) →
  onMap (foldl upsert P features) = onMap P
  ∧ listeners (foldl upsert P features) = listeners P
  ∧ next_id (foldl upsert P features) = next_id P.
Proof.
  revert P. induction features as [|f l IH]; intros P Hkeys; [done|]. simpl.
  assert (Hstep : onMap (upsert P f) = onMap P ∧ listeners (upsert P f) = listeners P
                  ∧ next_id (upsert P f) = next_id P).
  { destruct (feature_key f) as [k|] eqn:Hf; [|by rewrite upsert_no_key].
    destruct (upsert_key P f k Hf) as (s & _ & _ & ->).
    destruct (Hkeys f k) as [m Hm]; [by left|done|]. rewrite Hm.
    by case_bool_decide. }
  destruct Hstep as (Hon & Hli & Hnext).
  destruct (IH (upsert P f)) as (-> & -> & ->); [|done].
  intros g k Hg Hk. destruct (Hkeys g k) as [m Hm]; [by right|done|].
  destruct (upserts_keeps_marker [f] P k m Hm) as (m' & Hm' & _). by exists m'.
Qed.

Lemma Pool_eq (P Q : Pool) :
  markersMap P = markersMap Q → onMap P = onMap Q → listeners P = listeners Q →
  next_id P = next_id Q → P = Q.
Proof. destruct P, Q. simpl. by intros -> -> -> ->. Qed.

Lemma Marker_eq (m m' : Marker) :
  marker_id m = marker_id m' → lngLat m = lngLat m' → m = m'.
Proof. destruct m, m'. simpl. by intros -> ->. Qed.

Lemma apply_diff_twice (features : list Feature) (P : Pool) :
  apply_diff features (apply_diff features P) = apply_diff features P.
Proof.
  set (P1 := apply_diff features P).
  assert (Hdom : dom (markersMap P1) = currentSessionIds features) by apply apply_diff_dom.
  unfold apply_diff at 1. rewrite removal_pass_nothing_stale by (by rewrite Hdom).
  assert (Hkeys : ∀ f k, f ∈ features → feature_key f = Some k →
                    is_Some (markersMap P1 !! k)).
  { intros f k Hf Hk. apply elem_of_dom. rewrite Hdom.
    apply elem_of_currentSessionIds. by exists f. }
  destruct (upserts_surface_same features P1 Hkeys) as (Hon & Hli & Hnext).
  apply Pool_eq; try done.
  apply map_eq. intros k.
  pose proof (upserts_lookup features P1 k) as Hup.
  pose proof (apply_diff_lookup features P k) as H1. fold P1 in H1.
  destruct (last_feature k features) as [f|]; [|done].
  destruct Hup as (m' & Hm' & Hpos'). destruct H1 as (m & Hm & Hpos).
  destruct (upserts_keeps_marker features P1 k m Hm) as (m'' & Hm'' & Hid).
  rewrite Hm', Hm. f_equal. apply Marker_eq; congruence.
Qed.

(** X1.  A pass is idempotent: applying the diff of the same features a
    second time changes nothing, neither the entries of the pool and their
    positions, nor the markers on the map, nor the listeners; no marker is
    created or destroyed.  The same holds for a pass that continues twice
    with nothing outstanding. *)
Theorem X1_diff_is_idempotent (features : list Feature) (P : Pool) (p : Pass) (st : State) :
  apply_diff features (apply_diff features P) = apply_diff features P
  ∧ finish p (finish p st) = finish p st.
Proof.
  split; [apply apply_diff_twice|].
  unfold finish. destruct (outstanding p); [|done].
  unfold with_pool. cbn. by rewrite apply_diff_twice.
Qed.

(** ** Viewport events without clusters *)



(** ** What a kept marker keeps *)

(** A pass leaves the listener of a marker it keeps as it is. *)
Lemma apply_diff_keeps_listener (features : list Feature) (P : Pool) (k : string) (m : Marker) :
  pool_wf P → markersMap P !! k = Some m → k ∈ currentSessionIds features →
  listeners (apply_diff features P) !! marker_id m = listeners P !! marker_id m.
Proof.
  intros Hwf Hk Hin. pose proof Hwf as (H1 & _ & _).
  destruct (H1 _ _ Hk) as (_ & Hlt & _). unfold apply_diff.
  destruct (upserts_old_surface features (removal_pass (currentSessionIds features) P)
              (marker_id m)) as [_ ->]; [by rewrite removal_pass_next_id|].
  apply removal_pass_listeners_kept. intros k' m' Hk' Hnin Hid.
  assert (k' = k) by eauto using pool_wf_inj. congruence.
Qed.

(** X3.  A pass that finds a marker for an identifier that is still visible
    keeps the marker and moves it to the coordinates of the feature, but
    does not renew its click listener: the listener still holds the session
    and the coordinates of the feature for which the marker was created.
    A click on the moved marker therefore opens the popup at the place
    where the marker was created, with the content of the session captured
    then. *)
Theorem X3_kept_marker_keeps_its_listener
    (features : list Feature) (st : State) (k : string) (m : Marker) (c : Closure) (pop : Popup) :
  pool_wf (pool st) →
  markersMap (pool st) !! k = Some m →
  listeners (pool st) !! marker_id m = Some c →
  k ∈ currentSessionIds features →
  popupRef (tooltip st) = Some pop → isOpen pop = false →
  let st' := with_pool (apply_diff features) st in
  (∃ m' f, markersMap (pool st') !! k = Some m'
           ∧ marker_id m' = marker_id m
           ∧ last_feature k features = Some f ∧ lngLat m' = coordinates f)
  ∧ listeners (pool st') !! marker_id m = Some c
  ∧ popupRef (tooltip (step st' (MarkerClick (marker_id m) true)))
    = Some {| isOpen := true; popup_lngLat := Some (closure_lngLat c);
              popup_content := Some (closure_session c) |}.
Proof.
  intros Hwf Hk Hc Hin Hpop Hclosed st'. subst st'. cbn [with_pool pool tooltip].
  assert (Hli : listeners (apply_diff features (pool st)) !! marker_id m = Some c).
  { by rewrite (apply_diff_keeps_listener features (pool st) k m). }
  split; [|split; [done|]].
  - destruct (apply_diff_kept features (pool st) k m Hk Hin) as (m' & Hm' & Hid).
    pose proof (apply_diff_lookup features (pool st) k) as Hl.
    destruct (last_feature k features) as [f|]; [|congruence].
    destruct Hl as (m'' & Hm'' & Hpos). exists m', f. split; [done|]. split; [done|].
    split; [done|]. congruence.
  - cbn [step pool with_pool]. rewrite Hli. cbn [with_tooltip tooltip with_pool].
    unfold toggleTooltip. rewrite Hpop, Hclosed. done.
Qed.

(** The marker of alice is moved by a pass; the popup still opens at the
    coordinates where the marker was created. *)
Lemma X3_kept_marker_keeps_its_listener_witness :
  let moved := mkFeature (PointProperties Examples.alice) (num 3 1, num 4 1) in
  let st' := with_pool (apply_diff [moved]) Examples.two_markers in
  (∃ m', markersMap (pool st') !! "a"%string = Some m' ∧ lngLat m' = (num 3 1, num 4 1))
  ∧ ∃ pop, popupRef (tooltip (step st' (MarkerClick 0 true))) = Some pop
           ∧ popup_lngLat pop = Some (round (lon Examples.alice) 4, round (lat Examples.alice) 4).
Proof.
  intros moved st'.
  edestruct (X3_kept_marker_keeps_its_listener [moved] Examples.two_markers "a"%string)
    as ((m' & f & Hm' & _ & Hf & Hpos) & _ & Hpopup).
  - apply reachable_wf. apply reachable_step, reachable_initial.
  - vm_compute. reflexivity.
  - vm_compute. reflexivity.
  - vm_compute. reflexivity.
  - vm_compute. reflexivity.
  - reflexivity.
  - split.
    + exists m'. split; [exact Hm'|]. rewrite Hpos.
      vm_compute in Hf. injection Hf as <-. reflexivity.
    + eexists. split; [exact Hpopup|]. reflexivity.
Defined.

(** ** The popup and the recorded identifier *)

Lemma init_popup_consistent (t : Tooltip) :
  tooltip_consistent t → tooltip_consistent (init_popup t).
Proof.
  unfold tooltip_consistent, init_popup.
  destruct (popupRef t) as [p|] eqn:Hp; simpl; [by rewrite Hp|done].
Qed.

Lemma closeIfOpen_consistent (t : Tooltip) :
  tooltip_consistent t → tooltip_consistent (closeIfOpen t).
Proof.
  unfold tooltip_consistent, closeIfOpen.
  destruct (popupRef t) as [p|] eqn:Hp; [|by rewrite Hp].
  destruct (isOpen p) eqn:Ho; simpl; [done|]. by rewrite Hp, Ho.
Qed.

Lemma toggleTooltip_consistent (map_current : bool) (c : Closure) (t : Tooltip) :
  tooltip_consistent t → tooltip_consistent (toggleTooltip map_current c t).
Proof.
  unfold tooltip_consistent, toggleTooltip.
  destruct (popupRef t) as [p|] eqn:Hp; [|by rewrite Hp].
  destruct map_current; simpl; [|by rewrite Hp].
  destruct (isOpen p && _); simpl; [done|]. intros _. by eexists _, _.
Qed.

Lemma viewDetails_consistent (attached : bool) (t : Tooltip) :
  tooltip_consistent t → tooltip_consistent (viewDetails attached t).
Proof.
  unfold tooltip_consistent, viewDetails.
  destruct (popupRef t) as [p|] eqn:Hp; [|by rewrite Hp].
  destruct (isOpen p) eqn:Ho; [|by rewrite Hp, Ho].
  destruct (popup_content p) as [s|] eqn:Hs;
    [|rewrite Hp, Ho; by intros (? & ? & ? & _)].
  destruct attached; simpl; [done|]. by rewrite Hp, Ho, Hs.
Qed.

Lemma step_consistent (st : State) (e : Event) :
  tooltip_consistent (tooltip st) → tooltip_consistent (tooltip (step st e)).
Proof.
  intros Hc. destruct e as [props queried| |queried|i req r|marker mc| | |attached|v]; cbn [step].
  - unfold render. rewrite effect_tooltip. unfold init_effect.
    destruct (mapReady props); cbn [with_tooltip tooltip]; rewrite cleanup_tooltip; [|done].
    by apply init_popup_consistent.
  - by rewrite cleanup_tooltip.
  - destruct (subscribed st); [|done]. by rewrite updateMarkers_tooltip.
  - by rewrite leafCallback_tooltip.
  - destruct (listeners (pool st) !! marker); [|done].
    by apply toggleTooltip_consistent.
  - destruct (subscribed st); [|done]. by apply closeIfOpen_consistent.
  - by apply closeIfOpen_consistent.
  - by apply viewDetails_consistent.
  - done.
Qed.

Lemma reachable_consistent (st : State) : reachable st → tooltip_consistent (tooltip st).
Proof. induction 1 as [|st e _ IH]; [done|]. by apply step_consistent. Qed.

(** X4.  In every reachable state an identifier is recorded in
    [openTooltipSessionIdRef] exactly when the popup is open, and it is then
    the identifier of the session whose content the popup shows; an open
    popup has a position. *)
Theorem X4_recorded_identifier_matches_popup (st : State) :
  reachable st →
  (popup_open (tooltip st) = true ↔ is_Some (openTooltipSessionIdRef (tooltip st)))
  ∧ (∀ k, openTooltipSessionIdRef (tooltip st) = Some k →
       ∃ pop s c, popupRef (tooltip st) = Some pop ∧ isOpen pop = true
                  ∧ popup_content pop = Some s ∧ session_id s = k
                  ∧ popup_lngLat pop = Some c).
Proof.
  intros Hc%reachable_consistent. unfold tooltip_consistent, popup_open in *.
  destruct (popupRef (tooltip st)) as [pop|].
  - destruct (isOpen pop) eqn:Ho.
    + destruct Hc as (s & c & Hs & Hl & Hid). rewrite Hid. split; [by split; eauto|].
      intros k [= <-]. by exists pop, s, c.
    + rewrite Hc. split; [|done]. split; [done|]. by intros [? ?].
  - rewrite Hc. split; [|done]. split; [done|]. by intros [? ?].
Qed.

Lemma X4_recorded_identifier_matches_popup_witness :
  ∃ pop s c, popupRef (tooltip Examples.tooltip_on_alice) = Some pop ∧ isOpen pop = true
             ∧ popup_content pop = Some s ∧ session_id s = "a"%string
             ∧ popup_lngLat pop = Some c.
Proof.
  apply (X4_recorded_identifier_matches_popup Examples.tooltip_on_alice).
  - repeat apply reachable_step. apply reachable_initial.
  - vm_compute. reflexivity.
Defined.

(** ** The button of the popup *)

(** X5.  The hook itself changes the selected session only in the listener
    of the button of the popup; the only other way is the setter that the
    hook hands to its caller, which changes nothing else.  In a reachable
    state with the popup open, a click on the button, if its listener was
    attached, selects the session whose content the popup shows, which is
    the session of the recorded identifier, closes the popup and records
    nothing.  A click on a button that the lookup did not find, and that
    has no listener therefore, changes nothing; with the popup closed
    there is no button and nothing is selected. *)
Theorem X5_view_details_selects_shown_session (st : State) :
  reachable st →
  (∀ e, (∀ attached, e ≠ ViewDetails attached) → (∀ v, e ≠ SetSelectedSession v) →
     selectedSession (tooltip (step st e)) = selectedSession (tooltip st))
  ∧ (∀ v, selectedSession (tooltip (step st (SetSelectedSession v))) = v
          ∧ popupRef (tooltip (step st (SetSelectedSession v))) = popupRef (tooltip st)
          ∧ openTooltipSessionIdRef (tooltip (step st (SetSelectedSession v)))
            = openTooltipSessionIdRef (tooltip st)
          ∧ pool (step st (SetSelectedSession v)) = pool st)
  ∧ (∀ k, openTooltipSessionIdRef (tooltip st) = Some k →
       ∃ s, selectedSession (tooltip (step st (ViewDetails true))) = Some s
            ∧ session_id s = k
            ∧ (∃ pop, popupRef (tooltip st) = Some pop ∧ popup_content pop = Some s)
            ∧ popup_open (tooltip (step st (ViewDetails true))) = false
            ∧ openTooltipSessionIdRef (tooltip (step st (ViewDetails true))) = None)
  ∧ step st (ViewDetails false) = st
  ∧ (popup_open (tooltip st) = false → ∀ attached, step st (ViewDetails attached) = st).
Proof.
  intros Hreach. split; [|split; [done|split; [|split]]].
  - intros e He He'. destruct e as [props queried| |queried|i req r|marker mc| | |attached|v];
      cbn [step].
    + unfold render. rewrite effect_tooltip. unfold init_effect.
      destruct (mapReady props); cbn [with_tooltip tooltip]; rewrite cleanup_tooltip; [|done].
      unfold init_popup. by destruct (popupRef (tooltip st)).
    + by rewrite cleanup_tooltip.
    + destruct (subscribed st); [|done]. by rewrite updateMarkers_tooltip.
    + by rewrite leafCallback_tooltip.
    + destruct (listeners (pool st) !! marker); [|done]. cbn [with_tooltip tooltip].
      unfold toggleTooltip. destruct (popupRef (tooltip st)); [|done].
      destruct (negb mc); [done|]. by destruct (isOpen _ && _).
    + destruct (subscribed st); [|done]. cbn [with_tooltip tooltip].
      unfold handleMapClick, closeIfOpen. destruct (popupRef (tooltip st)) as [p|]; [|done].
      by destruct (isOpen p).
    + cbn [with_tooltip tooltip].
      unfold closeIfOpen. destruct (popupRef (tooltip st)) as [p|]; [|done].
      by destruct (isOpen p).
    + by destruct (He attached).
    + by destruct (He' v).
  - intros k Hk.
    pose proof (reachable_consistent st Hreach) as Hc. unfold tooltip_consistent in Hc.
    destruct (popupRef (tooltip st)) as [pop|] eqn:Hpop; [|congruence].
    destruct (isOpen pop) eqn:Ho; [|congruence].
    destruct Hc as (s & c & Hs & _ & Hid). assert (session_id s = k) as Hsk by congruence.
    exists s. cbn [step with_tooltip tooltip]. unfold viewDetails, popup_open.
    rewrite Hpop, Ho, Hs. cbn. split; [done|]. split; [done|]. split; [|done].
    by exists pop.
  - cbn [step]. unfold with_tooltip, viewDetails.
    destruct st as [P t sub ps vis data]. cbn.
    destruct t as [[p|] ref sel]; cbn; [|done].
    by destruct (isOpen p), (popup_content p).
  - intros Hclosed attached. cbn [step]. unfold popup_open in Hclosed.
    unfold with_tooltip, viewDetails.
    destruct st as [P t sub ps vis data]. cbn in *.
    destruct t as [[p|] ref sel]; cbn in *; [|done]. by rewrite Hclosed.
Qed.

(** With the popup open on alice, the button with its listener selects
    alice. *)
Lemma X5_view_details_selects_shown_session_witness :
  selectedSession (tooltip (step Examples.tooltip_on_alice (ViewDetails true)))
  = Some Examples.alice.
Proof.
  destruct (X5_view_details_selects_shown_session Examples.tooltip_on_alice)
    as (_ & _ & Hsel & _).
  - repeat apply reachable_step. apply reachable_initial.
  - destruct (Hsel "a"%string) as (s & Hs & _ & (pop & Hpop & Hcontent) & _).
    + vm_compute. reflexivity.
    + rewrite Hs. vm_compute in Hpop. injection Hpop as <-.
      cbn in Hcontent. injection Hcontent as <-. reflexivity.
Defined.

(** ** The pool and the map *)

Lemma elem_of_pooled_markers (P : Pool) (i : nat) :
  i ∈ pooled_markers P ↔ ∃ k m, markersMap P !! k = Some m ∧ marker_id m = i.
Proof.
  unfold pooled_markers. rewrite elem_of_list_to_set, list_elem_of_fmap. split.
  - intros ([k m] & -> & Hkm%elem_of_map_to_list). by exists k, m.
  - intros (k & m & Hk & <-). exists (k, m). split; [done|]. by apply elem_of_map_to_list.
Qed.

(** X6.  In every reachable state the map shows exactly the markers of the
    pool and the click listeners are exactly those of the markers of the
    pool: no marker element and no listener is left behind by a removal, a
    view switch or a teardown, and two identifiers never share a marker.
    After the teardown the map shows no marker and no listener is
    attached. *)
Theorem X6_map_shows_exactly_the_pool (st : State) :
  reachable st →
  onMap (pool st) = pooled_markers (pool st)
  ∧ dom (listeners (pool st)) = pooled_markers (pool st)
  ∧ (∀ k m, markersMap (pool st) !! k = Some m →
       ∃ c, listeners (pool st) !! marker_id m = Some c ∧ session_id (closure_session c) = k)
  ∧ (∀ k1 k2 m1 m2, markersMap (pool st) !! k1 = Some m1 → markersMap (pool st) !! k2 = Some m2 →
       marker_id m1 = marker_id m2 → k1 = k2)
  ∧ (is_Some (subscribed st) →
       onMap (pool (step st Unmount)) = ∅ ∧ listeners (pool (step st Unmount)) = ∅).
Proof.
  intros Hwf%reachable_wf. pose proof Hwf as (H1 & H2 & H3).
  split; [|split; [|split; [|split]]].
  - apply set_eq. intros i. rewrite elem_of_pooled_markers. split; [apply H2|].
    intros (k & m & Hk & <-). by destruct (H1 _ _ Hk) as (? & _).
  - apply set_eq. intros i. rewrite elem_of_pooled_markers, elem_of_dom. split.
    + intros [c Hc]. destruct (H3 _ _ Hc) as (m & Hm & Hid). eauto.
    + intros (k & m & Hk & <-). destruct (H1 _ _ Hk) as (_ & _ & c & Hc & _). by exists c.
  - intros k m Hk. by destruct (H1 _ _ Hk) as (_ & _ & ?).
  - intros k1 k2 m1 m2. by apply pool_wf_inj.
  - intros Hsub. cbn [step]. rewrite cleanup_subscribed by done. cbn.
    by apply destroy_all_surface.
Qed.

Lemma X6_map_shows_exactly_the_pool_witness :
  onMap (pool Examples.two_markers) = pooled_markers (pool Examples.two_markers)
  ∧ onMap (pool (step Examples.two_markers Unmount)) = ∅.
Proof.
  destruct (X6_map_shows_exactly_the_pool Examples.two_markers) as (Hon & _ & _ & _ & Hun).
  - apply reachable_step, reachable_initial.
  - split; [exact Hon|]. apply Hun. vm_compute. by eexists.
Defined.

(** X7.  A marker that has been destroyed is never put back: from a state
    in which a marker created earlier is off the map and without listener,
    no sequence of events brings it back on the map or attaches a listener
    to it, and the markers created later have new identities. *)
Theorem X7_destroyed_marker_never_returns (st : State) (m : Marker) (es : list Event) :
  (marker_id m < next_id (pool st))%nat → destroyed m (pool st) →
  destroyed m (pool (run st es))
  ∧ (next_id (pool st) ≤ next_id (pool (run st es)))%nat.
Proof.
  intros Hlt Hd. pose proof (run_pool st es) as Hsteps. split.
  - by eapply pool_steps_destroyed.
  - by apply pool_steps_next_id.
Qed.

(** The marker of alice, destroyed by a switch of view, stays off the map
    when the timeline view returns: alice gets another marker. *)
Lemma X7_destroyed_marker_never_returns_witness :
  let st := step Examples.two_markers (Render Examples.countries []) in
  let back := run st [Render (Examples.timeline [Examples.alice; Examples.bob]) []] in
  (0%nat ∉ onMap (pool back))
  ∧ ∃ m, markersMap (pool back) !! "a"%string = Some m ∧ marker_id m = 2%nat.
Proof.
  intros st back. split.
  - apply (X7_destroyed_marker_never_returns st {| marker_id := 0; lngLat := (num 0 1, num 0 1) |}
             [Render (Examples.timeline [Examples.alice; Examples.bob]) []]).
    + vm_compute. lia.
    + split; [vm_compute; intros H; discriminate H|vm_compute; reflexivity].
  - eexists. split; [vm_compute; reflexivity|reflexivity].
Defined.

(** ** How many markers *)

Lemma size_list_to_set_le (l : list string) :
  (size (list_to_set l : gset string) ≤ length l)%nat.
Proof.
  induction l as [|x l IH]; [by rewrite list_to_set_nil, size_empty|].
  rewrite list_to_set_cons, size_union_alt, size_singleton. cbn [length].
  pose proof (subseteq_size (list_to_set l ∖ {[x]}) (list_to_set l : gset string)) as Hle.
  assert (list_to_set l ∖ {[x]} ⊆ (list_to_set l : gset string)) as Hsub by set_solver.
  specialize (Hle Hsub). lia.
Qed.

Lemma length_omap_le {A B} (f : A → option B) (l : list A) :
  (length (omap f l) ≤ length l)%nat.
Proof. induction l as [|x l IH]; [done|]. csimpl. destruct (f x); csimpl; lia. Qed.

Lemma size_currentSessionIds (features : list Feature) :
  (size (currentSessionIds features) ≤ length features)%nat.
Proof.
  unfold currentSessionIds. etrans; [apply size_list_to_set_le|].
  etrans; [apply length_omap_le|]. etrans; [apply length_filter|]. by rewrite length_fmap.
Qed.

Lemma length_individualFeatures (sessions : list Session) :
  (length (individualFeatures sessions) ≤ length sessions)%nat.
Proof. unfold individualFeatures. rewrite length_fmap. apply length_filter. Qed.

(** X8.  After a pass the pool has at most as many markers as the pass has
    features (repeated features and features without identifier add
    none).  Without clusters the markers are those of the sessions, so
    there are never more than 500 of them, and never more than there are
    sessions. *)
Theorem X8_marker_count_is_bounded
    (sessions : list Session) (queried : list Feature) (features : list Feature)
    (P : Pool) (st : State) :
  (size (markersMap (apply_diff features P)) ≤ length features)%nat
  ∧ (shouldShowClusters sessions = false →
       (size (markersMap (pool (updateMarkers sessions queried st))) ≤ 500)%nat
       ∧ (size (markersMap (pool (updateMarkers sessions queried st))) ≤ length sessions)%nat).
Proof.
  assert (Hsize : ∀ fs Q, (size (markersMap (apply_diff fs Q)) ≤ length fs)%nat).
  { intros fs Q. rewrite <- size_dom, apply_diff_dom. apply size_currentSessionIds. }
  split; [apply Hsize|]. intros Hclusters.
  rewrite updateMarkers_individual, finish_done by done.
  cbn [with_pool pool unclusteredFeatures].
  pose proof (Hsize (individualFeatures sessions) (pool st)) as H1.
  pose proof (length_individualFeatures sessions) as H2.
  unfold shouldShowClusters in Hclusters. apply bool_decide_eq_false in Hclusters.
  lia.
Qed.

Lemma X8_marker_count_is_bounded_witness :
  (size (markersMap (pool (updateMarkers (take 500 Examples.crowd) [] initial))) ≤ 500)%nat.
Proof.
  apply (X8_marker_count_is_bounded (take 500 Examples.crowd) [] [] empty_pool initial).
  vm_compute. reflexivity.
Defined.

(** ** The requests of a pass *)

Lemma collect_lengths (queried : list Feature) :
  (length (unclusteredFeatures (collect queried)) + length (outstanding (collect queried))
   ≤ length queried)%nat.
Proof.
  induction queried as [|f l IH] using rev_ind; [done|].
  rewrite collect_app, length_app. simpl. unfold visit.
  destruct (properties f) as [|s|cid c]; simpl; [lia|rewrite length_app; simpl; lia|].
  destruct (small_cluster c); simpl; [rewrite length_app; simpl|]; lia.
Qed.

(** X9.  A pass asks for the leaves of clusters of the query only, with a
    limit equal to the point count of the cluster, which is below ten and
    not zero, from offset zero; every feature of the query is used at
    most once, as a point or as a request; and a query without small
    cluster leaves nothing outstanding, so that the pass applies its diff
    at once. *)
Theorem X9_requests_of_a_pass (sessions : list Session) (queried : list Feature) (st : State) :
  (∀ cid c, (cid, c) ∈ outstanding (collect queried) →
     c < 10 ∧ c ≠ 0
     ∧ ∃ f, f ∈ queried ∧ properties f = ClusterProperties cid c)
  ∧ (length (unclusteredFeatures (collect queried)) + length (outstanding (collect queried))
     ≤ length queried)%nat
  ∧ ((∀ f cid c, f ∈ queried → properties f = ClusterProperties cid c → 10 ≤ c ∨ c = 0) →
     shouldShowClusters sessions = true →
     outstanding (collect queried) = []
     ∧ pool (updateMarkers sessions queried st)
       = apply_diff (filter (λ f, Is_true (is_point f)) queried) (pool st)).
Proof.
  split; [|split; [apply collect_lengths|]].
  - intros cid c [Hf Hsmall]%elem_of_collect_outstanding.
    unfold small_cluster in Hsmall. apply andb_true_iff in Hsmall as [Hz Hlt].
    apply negb_true_iff, bool_decide_eq_false in Hz. apply bool_decide_eq_true in Hlt. done.
  - intros Hlarge Hclusters.
    assert (Hout : outstanding (collect queried) = []).
    { destruct (outstanding (collect queried)) as [|[cid c] out] eqn:Ho; [done|].
      assert ((cid, c) ∈ outstanding (collect queried)) as Hin by (rewrite Ho; left).
      apply elem_of_collect_outstanding in Hin as [(f & Hf & Hp) Hsmall].
      unfold small_cluster in Hsmall. apply andb_true_iff in Hsmall as [Hz Hlt].
      apply negb_true_iff, bool_decide_eq_false in Hz. apply bool_decide_eq_true in Hlt.
      destruct (Hlarge f cid c Hf Hp); lia. }
    split; [done|].
    rewrite updateMarkers_clusters, finish_done by done.
    cbn [with_pool with_passes pool]. by rewrite collect_unclusteredFeatures.
Qed.

Lemma X9_requests_of_a_pass_witness :
  pool (updateMarkers Examples.crowd [session_feature Examples.alice; Examples.large] initial)
  = apply_diff [session_feature Examples.alice] empty_pool.
Proof.
  destruct (X9_requests_of_a_pass Examples.crowd
              [session_feature Examples.alice; Examples.large] initial) as (_ & _ & H).
  destruct H as [_ Hpool].
  - intros f cid c Hf Hp.
    apply elem_of_cons in Hf as [->|Hf]; [discriminate Hp|].
    apply list_elem_of_singleton in Hf as ->. injection Hp as <- <-. left. lia.
  - vm_compute. reflexivity.
  - exact Hpool.
Defined.

(** ** A render starts afresh *)

(** X10.  A render while the effect is mounted recreates every marker:
    the function returned by the previous run destroys all the markers of
    the pool, even those of sessions that are still shown, so that every
    marker of the pool after the render is a new one and every marker of
    the pool before the render is off the map and without listener. *)
Theorem X10_render_recreates_all_markers
    (props : Props) (queried : list Feature) (st : State) :
  reachable st → is_Some (subscribed st) →
  let st' := render props queried st in
  (∀ k m, markersMap (pool st) !! k = Some m → destroyed m (pool st'))
  ∧ (∀ k m', markersMap (pool st') !! k = Some m' → (next_id (pool st) ≤ marker_id m')%nat)
  ∧ (∀ k m m', markersMap (pool st) !! k = Some m → markersMap (pool st') !! k = Some m' →
       marker_id m ≠ marker_id m').
Proof.
  intros Hwf%reachable_wf Hsub st'. subst st'. pose proof Hwf as (H1 & _ & _).
  assert (Hc : pool (cleanup st) = destroy_all (pool st)).
  { by rewrite cleanup_subscribed. }
  assert (Hsteps : rtc pool_step (destroy_all (pool st)) (pool (render props queried st))).
  { unfold render. rewrite <- Hc, <- (init_effect_pool props (cleanup st)).
    apply effect_pool. }
  assert (Hnew : ∀ k m', markersMap (pool (render props queried st)) !! k = Some m' →
            (next_id (pool st) ≤ marker_id m')%nat).
  { intros k m' Hk. rewrite <- (destroy_all_next_id (pool st)).
    eapply pool_steps_new_marker; done. }
  split; [|split; [done|]].
  - intros k m Hk. eapply pool_steps_destroyed; [done| |by eapply destroy_all_destroyed].
    rewrite destroy_all_next_id. by destruct (H1 _ _ Hk) as (_ & ? & _).
  - intros k m m' Hk Hk' Hid. destruct (H1 _ _ Hk) as (_ & Hlt & _).
    specialize (Hnew _ _ Hk'). lia.
Qed.

(** The same two sessions are rendered again: the marker of alice is a
    new one, numbered 2 or more. *)
Lemma X10_render_recreates_all_markers_witness :
  let st' := render (Examples.timeline [Examples.alice; Examples.bob]) [] Examples.two_markers in
  ∃ m', markersMap (pool st') !! "a"%string = Some m' ∧ (2 ≤ marker_id m')%nat.
Proof.
  intros st'.
  destruct (X10_render_recreates_all_markers
              (Examples.timeline [Examples.alice; Examples.bob]) [] Examples.two_markers)
    as (_ & Hnew & _).
  - apply reachable_step, reachable_initial.
  - vm_compute. by eexists.
  - assert (is_Some (markersMap (pool st') !! "a"%string)) as [m' Hm'].
    { vm_compute. by eexists. }
    exists m'. split; [exact Hm'|]. apply (Hnew "a"%string m' Hm').
Defined.

(** ** The paint of the clusters that are drawn *)

(** X11.  A feature drawn by the cluster circle layer has ten points at
    least, so its circle is painted with the second or the third step of
    the colour and of the radius: "#2563eb" and 25 below thirty points,
    "#1d4ed8" and 30 from thirty points on.  The first step ("#3b82f6",
    radius 20) is never painted; the radius never decreases when the count
    grows. *)
Theorem X11_drawn_clusters_skip_first_step (f : Feature) (cid c : Z) :
  properties f = ClusterProperties cid c → cluster_layer_filter f = true →
  (c < 30 → circle_color c = "#2563eb"%string ∧ circle_radius c = 25)
  ∧ (30 ≤ c → circle_color c = "#1d4ed8"%string ∧ circle_radius c = 30)
  ∧ circle_color c ≠ "#3b82f6"%string ∧ circle_radius c ≠ 20
  ∧ (∀ c', c ≤ c' → circle_radius c ≤ circle_radius c').
Proof.
  intros Hp Hdrawn. unfold cluster_layer_filter in Hdrawn. rewrite Hp in Hdrawn.
  apply bool_decide_eq_true in Hdrawn.
  assert (Hsteps : ∀ x, circle_radius x
            = if bool_decide (30 ≤ x) then 30 else if bool_decide (10 ≤ x) then 25 else 20).
  { intros x. unfold circle_radius, step_expression. simpl.
    by repeat case_bool_decide. }
  assert (Hcolor : circle_color c
            = if bool_decide (30 ≤ c) then "#1d4ed8"%string else "#2563eb"%string).
  { unfold circle_color, step_expression. simpl. repeat case_bool_decide; done || lia. }
  rewrite Hcolor, Hsteps. split; [|split; [|split; [|split]]].
  - intros Hlt. rewrite !bool_decide_false by lia. by rewrite bool_decide_true.
  - intros Hge. by rewrite !bool_decide_true by lia.
  - by case_bool_decide.
  - repeat case_bool_decide; lia.
  - intros c' Hle. rewrite Hsteps. repeat case_bool_decide; lia.
Qed.

Lemma X11_drawn_clusters_skip_first_step_witness :
  circle_color 10 = "#2563eb"%string ∧ circle_radius 10 = 25.
Proof.
  apply (X11_drawn_clusters_skip_first_step Examples.large 9 10); [reflexivity..|lia].
Defined.

(** ** Flags *)

Lemma nat_of_upper (c : ascii) :
  nat_of_ascii (upper c)
  = if bool_decide (97 ≤ nat_of_ascii c ≤ 122)%nat
    then (nat_of_ascii c - 32)%nat else nat_of_ascii c.
Proof.
  unfold upper. case_bool_decide as Hc; [|done].
  apply nat_ascii_embedding. lia.
Qed.

Lemma nat_of_ascii_inj (x y : ascii) : nat_of_ascii x = nat_of_ascii y → x = y.
Proof.
  intros H. rewrite <- (ascii_nat_embedding x), <- (ascii_nat_embedding y). by rewrite H.
Qed.

Lemma getCountryFlag_two (a b : ascii) :
  getCountryFlag (String a (String b ""))
  = [127397 + Z.of_nat (nat_of_ascii (upper a)); 127397 + Z.of_nat (nat_of_ascii (upper b))].
Proof. unfold getCountryFlag. by rewrite bool_decide_false by (simpl; lia). Qed.

(** X12.  The flag of a country code.  A string whose length is not two
    has no flag (the empty string).  For two letters of either case the
    flag is the pair of regional indicator symbols of the letters, which
    are the code points from 127462 (U+1F1E6) to 127487 (U+1F1FF), and it
    does not depend on the case.  For two ASCII characters a code point
    of the result is a regional indicator symbol only if the character is
    a letter: other characters are not rejected. *)
Theorem X12_getCountryFlag_regional_indicators :
  (∀ code, String.length code ≠ 2%nat → getCountryFlag code = [])
  ∧ (∀ a b, is_letter a → is_letter b →
       getCountryFlag (String a (String b ""))
       = [127462 + letter_rank a; 127462 + letter_rank b]
       ∧ 0 ≤ letter_rank a ≤ 25 ∧ 0 ≤ letter_rank b ≤ 25
       ∧ getCountryFlag (String (upper a) (String (upper b) ""))
         = getCountryFlag (String a (String b "")))
  ∧ (∀ a b, (nat_of_ascii a < 128)%nat → (nat_of_ascii b < 128)%nat →
       ∃ x y, getCountryFlag (String a (String b "")) = [x; y]
              ∧ (127462 ≤ x ≤ 127487 ↔ is_letter a)
              ∧ (127462 ≤ y ≤ 127487 ↔ is_letter b)).
Proof.
  assert (Hpoint : ∀ c, is_letter c →
            127397 + Z.of_nat (nat_of_ascii (upper c)) = 127462 + letter_rank c
            ∧ 0 ≤ letter_rank c ≤ 25 ∧ upper (upper c) = upper c).
  { intros c Hc. pose proof (nat_of_upper c) as Hu. unfold is_letter in Hc.
    unfold letter_rank. split; [|split].
    - repeat case_bool_decide; lia.
    - repeat case_bool_decide; lia.
    - apply nat_of_ascii_inj. rewrite (nat_of_upper (upper c)), Hu.
      repeat case_bool_decide; lia. }
  assert (Hblock : ∀ c, (nat_of_ascii c < 128)%nat →
            127462 ≤ 127397 + Z.of_nat (nat_of_ascii (upper c)) ≤ 127487 ↔ is_letter c).
  { intros c Hc. rewrite nat_of_upper. unfold is_letter. case_bool_decide; lia. }
  split; [|split].
  - intros code Hlen. unfold getCountryFlag. by rewrite bool_decide_true.
  - intros a b Ha Hb. destruct (Hpoint a Ha) as (Ea & Hra & Hua).
    destruct (Hpoint b Hb) as (Eb & Hrb & Hub).
    rewrite !getCountryFlag_two, Hua, Hub, Ea, Eb. done.
  - intros a b Ha Hb. eexists _, _. rewrite getCountryFlag_two.
    split; [done|]. split; by apply Hblock.
Qed.

Lemma X12_getCountryFlag_regional_indicators_witness :
  getCountryFlag "us" = [127482; 127480] ∧ getCountryFlag "usa" = [].
Proof.
  destruct X12_getCountryFlag_regional_indicators as (Hlen & Hletters & _). split.
  - destruct (Hletters "u"%char "s"%char) as (H & _).
    + right. change (nat_of_ascii "u") with 117%nat. lia.
    + right. change (nat_of_ascii "s") with 115%nat. lia.
    + exact H.
  - apply Hlen. simpl. lia.
Defined.

(** ** Powers of two *)

Section Doubles.
Local Open Scope Q_scope.

Lemma pow2_pos (e : Z) : 0 < 2 ^ e.
Proof. by apply Qpower_0_lt. Qed.

Lemma pow2_add (a b : Z) : 2 ^ (a + b) == 2 ^ a * 2 ^ b.
Proof. by apply Qpower_plus. Qed.

Lemma pow2_sub (a b : Z) : 2 ^ (a - b) == 2 ^ a / 2 ^ b.
Proof. by apply Qpower_minus. Qed.

Lemma pow2_succ (a : Z) : 2 ^ (a + 1) == 2 * 2 ^ a.
Proof. rewrite pow2_add. change (2 ^ 1) with 2. ring. Qed.

Lemma pow2_pred (a : Z) : 2 ^ (a - 1) == 2 ^ a * (1 # 2).
Proof.
  assert (2 ^ a == 2 ^ ((a - 1) + 1)) as E by (by replace (a - 1 + 1)%Z with a by lia).
  rewrite E, pow2_succ. field.
Qed.

Lemma pow2_le (a b : Z) : (a ≤ b)%Z → 2 ^ a <= 2 ^ b.
Proof. intros. by apply Qpower_le_compat_l. Qed.

Lemma pow2_lt (a b : Z) : (a < b)%Z → 2 ^ a < 2 ^ b.
Proof. intros. by apply Qpower_lt_compat_l. Qed.

Lemma pow2_lt_inv (a b : Z) : 2 ^ a < 2 ^ b → (a < b)%Z.
Proof. intros. by apply (Qpower_lt_compat_l_inv 2). Qed.

Lemma pow2_Z (a : Z) : (0 ≤ a)%Z → inject_Z (2 ^ a) == 2 ^ a.
Proof. intros. by rewrite Zpower_Qpower. Qed.

Lemma pow2_div (x : Q) (e : Z) : x / 2 ^ e == x * 2 ^ (- e).
Proof. rewrite Qpower_opp. reflexivity. Qed.

Lemma pow2_cancel (x : Q) (e : Z) : x / 2 ^ e * 2 ^ e == x.
Proof. field. pose proof (pow2_pos e). lra. Qed.

Lemma Qdiv_lt_cross (p q u v : Q) : 0 < q → 0 < v → p * v < u * q → p / q < u / v.
Proof.
  intros Hq Hv H. apply Qlt_shift_div_l; [done|].
  assert (E : p / q * v == p * v / q) by (field; lra). rewrite E.
  by apply Qlt_shift_div_r.
Qed.

Lemma Qdiv_le_cross (p q u v : Q) : 0 < q → 0 < v → p * v <= u * q → p / q <= u / v.
Proof.
  intros Hq Hv H. apply Qle_shift_div_l; [done|].
  assert (E : p / q * v == p * v / q) by (field; lra). rewrite E.
  by apply Qle_shift_div_r.
Qed.

(** ** The binary logarithm *)

Lemma ilog2_spec (x : Q) : 0 < x → 2 ^ ilog2 x <= x ∧ x < 2 ^ (ilog2 x + 1).
Proof.
  intros Hx. destruct x as [n d]. unfold ilog2. cbn [Qnum Qden].
  assert (0 < n)%Z as Hn by (unfold Qlt in Hx; cbn in Hx; lia).
  set (a := Z.log2 n). set (b := Z.log2 (Z.pos d)).
  destruct (Z.log2_spec n Hn) as [Ha1 Ha2]. fold a in Ha1, Ha2.
  destruct (Z.log2_spec (Z.pos d)) as [Hb1 Hb2]; [done|]. fold b in Hb1, Hb2.
  assert (0 ≤ a)%Z as Ha0 by apply Z.log2_nonneg.
  assert (0 ≤ b)%Z as Hb0 by apply Z.log2_nonneg.
  assert (Hnd : n # d == inject_Z n / inject_Z (Z.pos d)) by apply Qmake_Qdiv.
  assert (Hd : 0 < inject_Z (Z.pos d)) by (unfold Qlt; cbn; lia).
  assert (Qa1 : 2 ^ a <= inject_Z n) by (rewrite <- pow2_Z, <- Zle_Qle; done).
  assert (Qa2 : inject_Z n < 2 ^ (a + 1)).
  { rewrite <- pow2_Z, <- Zlt_Qlt by lia. by rewrite <- Z.add_1_r in Ha2. }
  assert (Qb1 : 2 ^ b <= inject_Z (Z.pos d)) by (rewrite <- pow2_Z, <- Zle_Qle; done).
  assert (Qb2 : inject_Z (Z.pos d) < 2 ^ (b + 1)).
  { rewrite <- pow2_Z, <- Zlt_Qlt by lia. by rewrite <- Z.add_1_r in Hb2. }
  pose proof (pow2_pos a) as Pa. pose proof (pow2_pos b) as Pb.
  assert (Hup : n # d < 2 ^ (a - b + 1)).
  { rewrite Hnd. replace (a - b + 1)%Z with ((a + 1) - b)%Z by lia. rewrite pow2_sub.
    apply Qdiv_lt_cross; [done..|]. pose proof (pow2_pos (a + 1)). nra. }
  assert (Hlow : 2 ^ (a - b - 1) < n # d).
  { rewrite Hnd. replace (a - b - 1)%Z with (a - (b + 1))%Z by lia. rewrite pow2_sub.
    pose proof (pow2_pos (b + 1)) as Pb1.
    apply Qdiv_lt_cross; [done..|]. nra. }
  destruct (Qle_bool (2 ^ (a - b)) (n # d)) eqn:Hle.
  - apply Qle_bool_iff in Hle. done.
  - split; [by apply Qlt_le_weak|].
    replace (a - b - 1 + 1)%Z with (a - b)%Z by lia.
    apply Qnot_le_lt. intros H. apply Qle_bool_iff in H. congruence.
Qed.

Lemma ilog2_unique (x : Q) (e : Z) : 2 ^ e <= x → x < 2 ^ (e + 1) → ilog2 x = e.
Proof.
  intros H1 H2. pose proof (pow2_pos e).
  destruct (ilog2_spec x) as [H3 H4]; [lra|].
  assert (e < ilog2 x + 1)%Z by (apply pow2_lt_inv; lra).
  assert (ilog2 x < e + 1)%Z by (apply pow2_lt_inv; lra). lia.
Qed.

Lemma ilog2_le (x y : Q) : 0 < x → x <= y → (ilog2 x ≤ ilog2 y)%Z.
Proof.
  intros Hx Hxy. destruct (ilog2_spec x) as [H1 _]; [done|].
  destruct (ilog2_spec y) as [_ H2]; [lra|].
  assert (ilog2 x < ilog2 y + 1)%Z by (apply pow2_lt_inv; lra). lia.
Qed.
End Doubles.

(** ** Rounding *)

Section Rounding.
Local Open Scope Q_scope.

Lemma nearest_even_comp (x y : Q) : x == y → nearest_even x = nearest_even y.
Proof.
  intros E. unfold nearest_even. rewrite (Qfloor_comp x y E).
  assert ((x - inject_Z (Qfloor y) ?= 1 # 2) = (y - inject_Z (Qfloor y) ?= 1 # 2)) as Hc.
  { apply Qcompare_comp; [by rewrite E|reflexivity]. }
  by rewrite Hc.
Qed.

Lemma nearest_even_bounds (x : Q) :
  inject_Z (nearest_even x) - (1 # 2) <= x ∧ x <= inject_Z (nearest_even x) + (1 # 2).
Proof.
  unfold nearest_even. pose proof (Qfloor_le x) as H1. pose proof (Qlt_floor x) as H2.
  rewrite inject_Z_plus in H2. change (inject_Z 1) with 1 in H2.
  destruct (Qcompare_spec (x - inject_Z (Qfloor x)) (1 # 2)) as [H|H|H].
  - destruct (Z.even (Qfloor x)); [lra|]. rewrite inject_Z_plus. change (inject_Z 1) with 1. lra.
  - lra.
  - rewrite inject_Z_plus. change (inject_Z 1) with 1. lra.
Qed.

Lemma nearest_even_Z (n : Z) : nearest_even (inject_Z n) = n.
Proof.
  unfold nearest_even. rewrite Qfloor_Z.
  destruct (Qcompare_spec (inject_Z n - inject_Z n) (1 # 2)) as [H|H|H]; [lra|done|lra].
Qed.

Lemma inject_Z_le_inv (a b : Z) : inject_Z a <= inject_Z b → (a ≤ b)%Z.
Proof. by rewrite <- Zle_Qle. Qed.

Lemma inject_Z_lt_inv (a b : Z) : inject_Z a < inject_Z b → (a < b)%Z.
Proof. by rewrite <- Zlt_Qlt. Qed.

Lemma nearest_even_le (x y : Q) : x <= y → (nearest_even x ≤ nearest_even y)%Z.
Proof.
  intros Hxy. destruct (nearest_even_bounds x) as [Hx1 Hx2].
  destruct (nearest_even_bounds y) as [Hy1 Hy2].
  destruct (Z_le_gt_dec (nearest_even x) (nearest_even y)) as [|Hgt]; [done|].
  assert (nearest_even x ≤ nearest_even y + 1)%Z as Hle.
  { apply inject_Z_le_inv. rewrite inject_Z_plus. change (inject_Z 1) with 1. lra. }
  assert (nearest_even x = nearest_even y + 1)%Z as Heq by lia.
  rewrite Heq, inject_Z_plus in Hx1. change (inject_Z 1) with 1 in Hx1.
  assert (x == y) as E by lra. apply nearest_even_comp in E. lia.
Qed.

Lemma Qabs_pos_lt (x : Q) : ¬ x == 0 → 0 < Qabs x.
Proof. intros Hx. apply Qabs_case; intros; lra. Qed.

Lemma ilog2_comp (x y : Q) : 0 < x → x == y → ilog2 x = ilog2 y.
Proof.
  intros Hx E. destruct (ilog2_spec y) as [H1 H2]; [lra|].
  apply ilog2_unique; lra.
Qed.

Lemma ulp_exponent_comp (x y : Q) : ¬ x == 0 → x == y → ulp_exponent x = ulp_exponent y.
Proof.
  intros Hx E. unfold ulp_exponent. f_equal. f_equal.
  apply ilog2_comp; [by apply Qabs_pos_lt|by apply Qabs_wd].
Qed.

Lemma round53_zero (x : Q) : x == 0 → round53 x = 0.
Proof. intros E. unfold round53. apply Qeq_bool_iff in E. by rewrite E. Qed.

Lemma round53_eq (x : Q) :
  ¬ x == 0 →
  round53 x = inject_Z (nearest_even (x / 2 ^ ulp_exponent x)) * 2 ^ ulp_exponent x.
Proof.
  intros Hx. unfold round53. destruct (Qeq_bool x 0) eqn:E; [|done].
  by apply Qeq_bool_iff in E.
Qed.

Lemma round53_comp (x y : Q) : x == y → round53 x == round53 y.
Proof.
  intros E. destruct (Qeq_dec x 0) as [Hx|Hx].
  - rewrite (round53_zero x), (round53_zero y); [reflexivity|lra|done].
  - rewrite (round53_eq x), (round53_eq y) by lra.
    rewrite <- (ulp_exponent_comp x y) by done.
    assert (x / 2 ^ ulp_exponent x == y / 2 ^ ulp_exponent x) as Ez
      by (by apply Qdiv_comp).
    by rewrite (nearest_even_comp _ _ Ez).
Qed.

(** The result is within half a unit of the last place. *)
Lemma round53_error (x : Q) :
  Qabs (round53 x - x) <= 2 ^ (ulp_exponent x - 1).
Proof.
  pose proof (pow2_pos (ulp_exponent x)) as He. rewrite pow2_pred.
  destruct (Qeq_dec x 0) as [Hx|Hx].
  - rewrite (round53_zero x) by done. apply Qabs_Qle_condition. lra.
  - rewrite round53_eq by done.
    destruct (nearest_even_bounds (x / 2 ^ ulp_exponent x)) as [H1 H2].
    pose proof (pow2_cancel x (ulp_exponent x)) as Hc.
    set (z := x / 2 ^ ulp_exponent x) in *. set (u := 2 ^ ulp_exponent x) in *.
    apply Qabs_Qle_condition. nra.
Qed.

Lemma round53_nonneg (x : Q) : 0 <= x → 0 <= round53 x.
Proof.
  intros Hx. destruct (Qeq_dec x 0) as [E|E]; [by rewrite round53_zero|].
  rewrite round53_eq by done. pose proof (pow2_pos (ulp_exponent x)) as He.
  assert (0 ≤ nearest_even (x / 2 ^ ulp_exponent x))%Z as Hn.
  { rewrite <- (nearest_even_Z 0). apply nearest_even_le.
    apply Qle_shift_div_l; [done|]. change (inject_Z 0) with 0. lra. }
  rewrite Zle_Qle in Hn. change (inject_Z 0) with 0 in Hn. nra.
Qed.

Lemma round53_nonpos (x : Q) : x <= 0 → round53 x <= 0.
Proof.
  intros Hx. destruct (Qeq_dec x 0) as [E|E]; [by rewrite round53_zero|].
  rewrite round53_eq by done. pose proof (pow2_pos (ulp_exponent x)) as He.
  assert (nearest_even (x / 2 ^ ulp_exponent x) ≤ 0)%Z as Hn.
  { rewrite <- (nearest_even_Z 0). apply nearest_even_le.
    apply Qle_shift_div_r; [done|]. change (inject_Z 0) with 0. lra. }
  rewrite Zle_Qle in Hn. change (inject_Z 0) with 0 in Hn. nra.
Qed.

(** A multiple of a power of two that is not below the last place is not
    rounded. *)
Lemma round53_dyadic (x : Q) (m k : Z) :
  x == inject_Z m * 2 ^ k → (ulp_exponent x ≤ k)%Z → round53 x == x.
Proof.
  intros E Hk. destruct (Qeq_dec x 0) as [Hx|Hx]; [by rewrite round53_zero|].
  rewrite round53_eq by done. set (e := ulp_exponent x) in *.
  assert (x / 2 ^ e == inject_Z (m * 2 ^ (k - e))) as Hz.
  { rewrite inject_Z_mult, pow2_Z, pow2_sub, E by lia. field.
    pose proof (pow2_pos e). lra. }
  rewrite (nearest_even_comp _ _ Hz), nearest_even_Z.
  rewrite <- Hz. apply pow2_cancel.
Qed.

Lemma ulp_exponent_le (x y : Q) :
  ¬ x == 0 → Qabs x <= Qabs y → (ulp_exponent x ≤ ulp_exponent y)%Z.
Proof.
  intros Hx Hxy. unfold ulp_exponent.
  pose proof (ilog2_le (Qabs x) (Qabs y) (Qabs_pos_lt x Hx) Hxy). lia.
Qed.

(** Rounding keeps the order of the numbers that are not negative. *)
Lemma round53_le (x y : Q) : 0 <= x → x <= y → round53 x <= round53 y.
Proof.
  intros Hx Hxy. destruct (Qeq_dec x 0) as [E|E].
  { rewrite (round53_zero x) by done. apply round53_nonneg. lra. }
  assert (Hy : ¬ y == 0) by lra.
  assert (Hax : Qabs x == x) by (apply Qabs_pos; lra).
  assert (Hay : Qabs y == y) by (apply Qabs_pos; lra).
  pose proof (ulp_exponent_le x y E) as Hle. rewrite Hax, Hay in Hle. specialize (Hle Hxy).
  rewrite (round53_eq x), (round53_eq y) by done.
  set (ex := ulp_exponent x) in *. set (ey := ulp_exponent y) in *.
  pose proof (pow2_pos ex) as Pex. pose proof (pow2_pos ey) as Pey.
  destruct (decide (ex = ey)) as [Heq|Hne].
  - rewrite Heq.
    assert (nearest_even (x / 2 ^ ey) ≤ nearest_even (y / 2 ^ ey))%Z as Hn.
    { apply nearest_even_le. apply Qdiv_le_cross; [done..|]. nra. }
    rewrite Zle_Qle in Hn. nra.
  - assert (ex < ey)%Z as Hlt by lia.
    assert (ey = ilog2 (Qabs y) - 52)%Z as Hey by (unfold ey, ulp_exponent in *; lia).
    assert (ilog2 (Qabs x) - 52 ≤ ex)%Z as Hex by (unfold ex, ulp_exponent; lia).
    set (Ey := ilog2 (Qabs y)) in *.
    destruct (ilog2_spec (Qabs x)) as [_ Hx2]; [by apply Qabs_pos_lt|].
    destruct (ilog2_spec (Qabs y)) as [Hy1 _]; [by apply Qabs_pos_lt|]. fold Ey in Hy1.
    assert (2 ^ Ey <= y) as Hy1' by lra.
    assert (x <= 2 ^ Ey) as HxE.
    { pose proof (pow2_le (ilog2 (Qabs x) + 1) Ey ltac:(lia)). lra. }
    (* the lower number is rounded to the power of two at most *)
    assert (inject_Z (nearest_even (x / 2 ^ ex)) * 2 ^ ex <= 2 ^ Ey) as H1.
    { assert (nearest_even (x / 2 ^ ex) ≤ 2 ^ (Ey - ex))%Z as Hn.
      { rewrite <- (nearest_even_Z (2 ^ (Ey - ex))). apply nearest_even_le.
        rewrite pow2_Z, pow2_sub by lia. apply Qdiv_le_cross; [done..|]. nra. }
      rewrite Zle_Qle in Hn. rewrite pow2_Z, pow2_sub in Hn by lia.
      pose proof (pow2_cancel (2 ^ Ey) ex). 
      set (t := 2 ^ Ey / 2 ^ ex) in *. nra. }
    (* the upper number to the power of two at least *)
    assert (2 ^ Ey <= inject_Z (nearest_even (y / 2 ^ ey)) * 2 ^ ey) as H2.
    { assert (2 ^ 52 ≤ nearest_even (y / 2 ^ ey))%Z as Hn.
      { rewrite <- (nearest_even_Z (2 ^ 52)). apply nearest_even_le.
        rewrite pow2_Z by lia. apply Qle_shift_div_l; [done|].
        rewrite <- pow2_add. by replace (52 + ey)%Z with Ey by lia. }
      rewrite Zle_Qle in Hn. rewrite pow2_Z in Hn by lia.
      assert (2 ^ Ey == 2 ^ 52 * 2 ^ ey) as EE.
      { rewrite <- pow2_add. by replace (52 + ey)%Z with Ey by lia. }
      nra. }
    lra.
Qed.
End Rounding.

(** ** Numbers that are not rounded, and their strings *)

Section Exact.
Local Open Scope Q_scope.

Lemma Qabs_inject_Z (n : Z) : Qabs (inject_Z n) == inject_Z (Z.abs n).
Proof.
  destruct (Z_le_gt_dec 0 n) as [Hn|Hn].
  - rewrite Z.abs_eq by done. apply Qabs_pos. by rewrite Zle_Qle in Hn.
  - rewrite Z.abs_neq by lia. rewrite inject_Z_opp. apply Qabs_neg.
    assert (n ≤ 0)%Z as Hn' by lia. by rewrite Zle_Qle in Hn'.
Qed.

Lemma ulp_exponent_lt (x : Q) (k : Z) :
  ¬ x == 0 → Qabs x < 2 ^ k → (ulp_exponent x ≤ Z.max (k - 53) (-1074))%Z.
Proof.
  intros Hx Hk. unfold ulp_exponent.
  destruct (ilog2_spec (Qabs x)) as [H1 _]; [by apply Qabs_pos_lt|].
  assert (ilog2 (Qabs x) < k)%Z by (apply pow2_lt_inv; lra). lia.
Qed.

(** An integer below [2^53] in magnitude is a double-precision number. *)
Lemma round53_integer (n : Z) :
  (Z.abs n < 2 ^ 53)%Z → round53 (inject_Z n) == inject_Z n.
Proof.
  intros Hn. destruct (decide (n = 0%Z)) as [->|Hne]; [done|].
  apply (round53_dyadic _ n 0); [change (2 ^ 0) with 1; ring|].
  assert (¬ inject_Z n == 0) as Hx.
  { change 0 with (inject_Z 0). by rewrite inject_Z_injective. }
  pose proof (ulp_exponent_lt (inject_Z n) 53 Hx) as H.
  assert (Qabs (inject_Z n) < 2 ^ 53) as Hlt.
  { rewrite Qabs_inject_Z, <- pow2_Z by done. by rewrite <- Zlt_Qlt. }
  specialize (H Hlt). lia.
Qed.

Lemma round53_pow2 (k : Z) : (-1074 ≤ k)%Z → round53 (2 ^ k) == 2 ^ k.
Proof.
  intros Hk. pose proof (pow2_pos k) as Hp.
  apply (round53_dyadic _ 1 k); [ring|].
  unfold ulp_exponent.
  assert (ilog2 (Qabs (2 ^ k)) = k) as ->; [|lia].
  assert (Qabs (2 ^ k) == 2 ^ k) as E by (apply Qabs_pos; lra).
  apply ilog2_unique; [lra|]. pose proof (pow2_lt k (k + 1) ltac:(lia)). lra.
Qed.

Lemma fl_cases (x : Q) : fl x = Finite (round53 x) ∨ ∃ s, fl x = Infinity s.
Proof. unfold fl. destruct (Qle_bool _ _); [right; by eexists|by left]. Qed.

Lemma fl_finite (x : Q) : Qabs x <= 2 ^ 1023 → fl x = Finite (round53 x).
Proof.
  intros Hx. unfold fl.
  destruct (Qle_bool (2 ^ 1024) (Qabs (round53 x))) eqn:Hle; [|done].
  apply Qle_bool_iff in Hle. exfalso.
  assert (2 ^ 1024 == 2 * 2 ^ 1023) as E24 by (by rewrite <- pow2_succ).
  pose proof (pow2_pos 1023) as P23.
  destruct (Qeq_dec x 0) as [E|E].
  { rewrite (round53_zero x E) in Hle. change (Qabs 0) with 0 in Hle. lra. }
  pose proof (round53_error x) as Herr.
  assert (ulp_exponent x ≤ 971)%Z as He.
  { pose proof (ulp_exponent_lt x 1024 E) as H.
    assert (Qabs x < 2 ^ 1024) by lra. specialize (H ltac:(done)). lia. }
  pose proof (pow2_le (ulp_exponent x - 1) 970 ltac:(lia)) as H970.
  pose proof (pow2_lt 970 1023 ltac:(lia)) as H1023.
  pose proof (Qabs_triangle (round53 x - x) x) as Htri.
  assert (round53 x - x + x == round53 x) as Es by ring.
  assert (Qabs (round53 x - x + x) == Qabs (round53 x)) as Ea by (by apply Qabs_wd).
  lra.
Qed.

Lemma fl_integer (n : Z) :
  (Z.abs n < 2 ^ 53)%Z →
  fl (inject_Z n) = Finite (round53 (inject_Z n)) ∧ round53 (inject_Z n) == inject_Z n.
Proof.
  intros Hn. split; [|by apply round53_integer]. apply fl_finite.
  rewrite Qabs_inject_Z. 
  assert (inject_Z (Z.abs n) < 2 ^ 53) by (rewrite <- pow2_Z by done; by rewrite <- Zlt_Qlt).
  pose proof (pow2_lt 53 1023 ltac:(lia)). lra.
Qed.

(** An integer that is read back as a smaller integer below [2^53] is this
    integer. *)
Lemma read_back_exact (n c : Z) :
  (0 ≤ c)%Z → (0 < n < 2 ^ 53)%Z → read_back n c = true → c = n.
Proof.
  intros Hc Hn Hread. unfold read_back in Hread.
  destruct (Z_lt_ge_dec c (2 ^ 53)) as [Hlt|Hge].
  - destruct (fl_integer c) as [Hfl Hr]; [lia|]. rewrite Hfl in Hread.
    apply Qeq_bool_iff in Hread. rewrite Hr in Hread. by apply inject_Z_injective.
  - destruct (fl_cases (inject_Z c)) as [Hfl|[s Hfl]]; rewrite Hfl in Hread; [|done].
    apply Qeq_bool_iff in Hread. exfalso.
    assert (round53 (inject_Z (2 ^ 53)) <= round53 (inject_Z c)) as Hle.
    { apply round53_le; [done|]. rewrite <- Zle_Qle. lia. }
    assert (inject_Z (2 ^ 53) == 2 ^ 53) as E53 by (by apply pow2_Z).
    rewrite (round53_comp _ _ E53), round53_pow2, <- E53 in Hle by done.
    rewrite Hread in Hle. apply inject_Z_le_inv in Hle. lia.
Qed.

Lemma candidates_exact (n : Z) (D k : nat) (c : Z) :
  (0 < n < 2 ^ 53)%Z → c ∈ candidates n D k → c = n.
Proof.
  intros Hn Hc. unfold candidates in Hc.
  apply list_elem_of_filter in Hc as [Hread Hin].
  apply Is_true_true in Hread. apply (read_back_exact n c); [|done..].
  set (scale := (10 ^ Z.of_nat (D - k))%Z) in *.
  assert (0 < scale)%Z by (apply Z.pow_pos_nonneg; lia).
  assert (0 ≤ n `div` scale * scale)%Z.
  { apply Z.mul_nonneg_nonneg; [|lia]. apply Z.div_pos; lia. }
  repeat case_bool_decide; try destruct (Z.even _);
    apply elem_of_cons in Hin as [->|Hin];
    try (apply list_elem_of_singleton in Hin as ->); lia.
Qed.

Lemma shortest_exact (n : Z) : (0 < n < 2 ^ 53)%Z → shortest n = n.
Proof.
  intros Hn. unfold shortest.
  set (l := mjoin _).
  assert (∀ c, c ∈ l → c = n) as Hall.
  { intros c Hc. apply list_elem_of_join in Hc as (l' & Hc & Hl').
    apply list_elem_of_fmap in Hl' as (k & -> & _). by eapply candidates_exact. }
  destruct l as [|c l']; [done|]. cbn. apply Hall, list_elem_of_here.
Qed.

Lemma positive_to_string_exact (n : Z) :
  (0 < n < 2 ^ 53)%Z → positive_to_string n = pretty n.
Proof.
  intros Hn. unfold positive_to_string. rewrite shortest_exact by done.
  rewrite bool_decide_true; [done|].
  assert (2 ^ 53 < 10 ^ 21)%Z by done. lia.
Qed.

(** The string of an integer below [2^53] in magnitude is made of its
    decimal digits. *)
Lemma ToString_exact (n : Z) :
  (Z.abs n < 2 ^ 53)%Z → ToString (Finite n) = pretty n.
Proof.
  intros Hn. unfold ToString. destruct n as [|p|p].
  - done.
  - rewrite bool_decide_false, bool_decide_false by done.
    apply positive_to_string_exact. lia.
  - rewrite bool_decide_false, bool_decide_true by done.
    rewrite positive_to_string_exact by lia. done.
Qed.
End Exact.

(** ** Floors, and the division by sixty *)

Section Floors.
Local Open Scope Q_scope.

Lemma Qfloor_unique (q : Q) (z : Z) :
  inject_Z z <= q → q < inject_Z z + 1 → Qfloor q = z.
Proof.
  intros H1 H2. pose proof (Qfloor_le q) as H3. pose proof (Qlt_floor q) as H4.
  rewrite inject_Z_plus in H4. change (inject_Z 1) with 1 in H4.
  assert (Qfloor q < z + 1)%Z.
  { apply inject_Z_lt_inv. rewrite inject_Z_plus. change (inject_Z 1) with 1. lra. }
  assert (z < Qfloor q + 1)%Z.
  { apply inject_Z_lt_inv. rewrite inject_Z_plus. change (inject_Z 1) with 1. lra. }
  lia.
Qed.

Lemma Qfloor_bounds (q : Q) : inject_Z (Qfloor q) <= q ∧ q < inject_Z (Qfloor q) + 1.
Proof.
  split; [apply Qfloor_le|]. pose proof (Qlt_floor q) as H.
  rewrite inject_Z_plus in H. by change (inject_Z 1) with 1 in H.
Qed.

Lemma half_up_comp (x y : Q) : x == y → half_up x = half_up y.
Proof. intros E. unfold half_up. apply Qfloor_comp. by rewrite E. Qed.

Lemma half_up_Z (n : Z) : half_up (inject_Z n) = n.
Proof. unfold half_up. apply Qfloor_unique; lra. Qed.

Lemma half_up_bounds (x : Q) :
  x - (1 # 2) < inject_Z (half_up x) ∧ inject_Z (half_up x) <= x + (1 # 2).
Proof. unfold half_up. destruct (Qfloor_bounds (x + (1 # 2))). split; lra. Qed.

Lemma Qfloor_div_Z (n d : Z) : (0 < d)%Z → Qfloor (inject_Z n / inject_Z d) = (n `div` d)%Z.
Proof.
  intros Hd. assert (0 < inject_Z d) as Hd' by (change 0 with (inject_Z 0); by rewrite <- Zlt_Qlt).
  pose proof (Z.div_mod n d ltac:(lia)) as Hdm. pose proof (Z.mod_pos_bound n d Hd) as Hm.
  assert (inject_Z n == inject_Z d * inject_Z (n `div` d) + inject_Z (n `mod` d)) as E.
  { rewrite <- inject_Z_mult, <- inject_Z_plus. by rewrite <- Hdm. }
  destruct Hm as [Hm1 Hm2]. rewrite Zle_Qle in Hm1. rewrite Zlt_Qlt in Hm2.
  change (inject_Z 0) with 0 in Hm1.
  apply Qfloor_unique.
  - apply Qle_shift_div_l; [done|]. nra.
  - apply Qlt_shift_div_r; [done|]. nra.
Qed.

(** The relative error of the rounding of a number that is not too
    small. *)
Lemma round53_relative (x : Q) :
  2 ^ (-1022) <= Qabs x → Qabs (round53 x - x) <= Qabs x * 2 ^ (-53).
Proof.
  intros Hx. pose proof (pow2_pos (-1022)) as Hp.
  assert (¬ x == 0) as Hne.
  { intros E. apply Qabs_wd in E. change (Qabs 0) with 0 in E. lra. }
  destruct (ilog2_spec (Qabs x)) as [H1 H2]; [lra|].
  set (E := ilog2 (Qabs x)) in *.
  assert (-1022 < E + 1)%Z by (apply pow2_lt_inv; lra).
  assert (ulp_exponent x = E - 52)%Z as He by (unfold ulp_exponent; fold E; lia).
  pose proof (round53_error x) as Herr. rewrite He in Herr.
  replace (E - 52 - 1)%Z with (E + -53)%Z in Herr by lia. rewrite pow2_add in Herr.
  pose proof (pow2_pos (-53)). pose proof (pow2_pos E). nra.
Qed.

Lemma round53_pos (x : Q) : 2 ^ (-1022) <= x → 0 < round53 x.
Proof.
  intros Hx. pose proof (pow2_pos (-1022)) as Hp.
  assert (Qabs x == x) as Ea by (apply Qabs_pos; lra).
  pose proof (round53_relative x ltac:(lra)) as Hr. rewrite Ea in Hr.
  apply Qabs_Qle_condition in Hr.
  assert (2 ^ (-53) < 1) by (pose proof (pow2_lt (-53) 0 ltac:(lia)); by change (2 ^ 0) with 1 in *).
  nra.
Qed.

Lemma round53_neg (x : Q) : x <= - 2 ^ (-1022) → round53 x < 0.
Proof.
  intros Hx. pose proof (pow2_pos (-1022)) as Hp.
  assert (Qabs x == - x) as Ea by (apply Qabs_neg; lra).
  pose proof (round53_relative x ltac:(lra)) as Hr. rewrite Ea in Hr.
  apply Qabs_Qle_condition in Hr.
  assert (2 ^ (-53) < 1) by (pose proof (pow2_lt (-53) 0 ltac:(lia)); by change (2 ^ 0) with 1 in *).
  nra.
Qed.

(** The quotient by sixty of a double-precision number from 60 to [2^53]
    is rounded to a number with the same integer part. *)
Lemma floor_div_60 (x : Q) :
  representable x → 60 <= x → x < 2 ^ 53 →
  Qfloor (round53 (x / 60)) = Qfloor (x / 60).
Proof.
  intros Hrep H60 H53.
  assert (¬ x == 0) as Hne by lra.
  assert (Qabs x == x) as Eax by (apply Qabs_pos; lra).
  destruct (ilog2_spec (Qabs x)) as [HE1 HE2]; [lra|].
  set (E := ilog2 (Qabs x)) in *.
  assert (E < 53)%Z as HE53 by (apply pow2_lt_inv; lra).
  assert (4 < E + 1)%Z as HE5.
  { apply pow2_lt_inv. change (2 ^ 4) with 16. lra. }
  assert (ulp_exponent x = E - 52)%Z as He by (unfold ulp_exponent; fold E; lia).
  set (e := (E - 52)%Z) in *.
  unfold representable in Hrep. rewrite round53_eq, He in Hrep by done.
  set (M := nearest_even (x / 2 ^ e)) in *.
  pose proof (pow2_pos e) as Pe.
  set (q := x / 60) in *.
  assert (q * 60 == x) as Hq by (unfold q; field).
  destruct (Qfloor_bounds q) as [Hf1 Hf2]. set (N0 := Qfloor q) in *.
  assert (0 ≤ N0)%Z as HN0.
  { assert (-1 < N0)%Z; [|lia]. apply inject_Z_lt_inv. change (inject_Z (-1)) with (-1 # 1). lra. }
  assert (N0 < 2 ^ 53)%Z as HN53.
  { apply inject_Z_lt_inv. rewrite pow2_Z by done. lra. }
  apply Qfloor_unique.
  - (* the integer part is a double-precision number below the quotient *)
    assert (round53 (inject_Z N0) <= round53 q) as Hle.
    { apply round53_le; [|done]. change 0 with (inject_Z 0). by rewrite <- Zle_Qle. }
    rewrite round53_integer in Hle by lia. done.
  - (* the next integer is more than half a unit of the last place above *)
    assert (¬ q == 0) as Hqne by lra.
    assert (Qabs q == q) as Eaq by (apply Qabs_pos; lra).
    assert (ulp_exponent q ≤ e - 5)%Z as Heq.
    { assert (Qabs q < 2 ^ (E - 4)) as Hlt.
      { replace (E - 4)%Z with ((E + 1) + -5)%Z by lia. rewrite pow2_add.
        change (2 ^ (-5)) with (1 # 32). lra. }
      pose proof (ulp_exponent_lt q (E - 4) Hqne Hlt). lia. }
    pose proof (round53_error q) as Herr. apply Qabs_Qle_condition in Herr.
    pose proof (pow2_le (ulp_exponent q - 1) (e + -6) ltac:(lia)) as Hpow.
    rewrite pow2_add in Hpow. change (2 ^ (-6)) with (1 # 64) in Hpow.
    (* 60 (N0 + 1) - x is a positive multiple of the last place of x *)
    set (K := (60 * (N0 + 1) * 2 ^ (- e))%Z).
    assert (inject_Z K * 2 ^ e == 60 * (inject_Z N0 + 1)) as HK.
    { unfold K. rewrite !inject_Z_mult, inject_Z_plus, pow2_Z by lia.
      change (inject_Z 60) with 60. change (inject_Z 1) with 1.
      rewrite Qpower_opp. field. lra. }
    assert (0 < K - M)%Z as HKM.
    { apply inject_Z_lt_inv. change (inject_Z 0) with 0.
      unfold Z.sub. rewrite inject_Z_plus, inject_Z_opp. nra. }
    assert (1 <= inject_Z K - inject_Z M) as HKM'.
    { assert (1 ≤ K - M)%Z as H1 by lia. rewrite Zle_Qle in H1.
      unfold Z.sub in H1. rewrite inject_Z_plus, inject_Z_opp in H1.
      change (inject_Z 1) with 1 in H1. lra. }
    nra.
Qed.
End Floors.

(** ** The first character of a number *)

Lemma pretty_N_char_digit (x : N) : is_digit (pretty_N_char x).
Proof.
  unfold is_digit, pretty_N_char.
  repeat case_match; (change (nat_of_ascii _) with 48%nat
                      || change (nat_of_ascii _) with 49%nat
                      || change (nat_of_ascii _) with 50%nat
                      || change (nat_of_ascii _) with 51%nat
                      || change (nat_of_ascii _) with 52%nat
                      || change (nat_of_ascii _) with 53%nat
                      || change (nat_of_ascii _) with 54%nat
                      || change (nat_of_ascii _) with 55%nat
                      || change (nat_of_ascii _) with 56%nat
                      || change (nat_of_ascii _) with 57%nat); lia.
Qed.

Lemma pretty_N_go_head (x : N) (s : string) :
  (0 < x)%N → ∃ d rest, pretty_N_go x s = String d rest ∧ is_digit d.
Proof.
  revert s. induction (N.lt_wf_0 x) as [x _ IH]; intros s Hx.
  rewrite pretty_N_go_step by done.
  destruct (decide (x `div` 10 = 0)%N) as [->|Hne].
  - rewrite pretty_N_go_0. eexists _, _. split; [done|]. apply pretty_N_char_digit.
  - apply IH; [by apply N.div_lt|by apply N.neq_0_lt_0].
Qed.

Lemma pretty_Z_head (z : Z) :
  0 ≤ z → ∃ d rest, pretty z = String d rest ∧ is_digit d.
Proof.
  intros Hz. destruct z as [|p|p]; [|clear Hz|lia].
  - exists "0"%char, ""%string. split; [done|]. unfold is_digit.
    change (nat_of_ascii "0") with 48%nat. lia.
  - unfold pretty, pretty_Z, pretty, pretty_positive, pretty, pretty_N.
    rewrite decide_False by done. apply pretty_N_go_head. lia.
Qed.

Lemma digit_not_sign (d : ascii) : is_digit d → d ≠ "+"%char ∧ d ≠ "-"%char.
Proof.
  unfold is_digit. intros Hd. split; intros ->.
  - change (nat_of_ascii "+") with 43%nat in Hd. lia.
  - change (nat_of_ascii "-") with 45%nat in Hd. lia.
Qed.

Lemma strip_zeros_nonneg (fuel : nat) (v : Z) : 0 ≤ v → 0 ≤ strip_zeros fuel v.
Proof.
  revert v. induction fuel as [|fuel IH]; intros v Hv; cbn; [done|].
  case_bool_decide; [|done]. apply IH. by apply Z.div_pos.
Qed.

Lemma exponential_head (v : Z) :
  0 ≤ v → ∃ d rest, exponential v = String d rest ∧ is_digit d.
Proof.
  intros Hv. unfold exponential.
  destruct (pretty_Z_head (strip_zeros (String.length (pretty v) - 1) v))
    as (d & rest & -> & Hd); [by apply strip_zeros_nonneg|].
  destruct rest; eexists _, _; split; done.
Qed.

Lemma candidates_nonneg (n : Z) (D k : nat) (c : Z) :
  0 ≤ n → c ∈ candidates n D k → 0 ≤ c.
Proof.
  intros Hn Hc. unfold candidates in Hc.
  apply list_elem_of_filter in Hc as [_ Hin].
  set (scale := (10 ^ Z.of_nat (D - k))%Z) in *.
  assert (0 < scale)%Z by (apply Z.pow_pos_nonneg; lia).
  assert (0 ≤ n `div` scale * scale)%Z.
  { apply Z.mul_nonneg_nonneg; [|lia]. apply Z.div_pos; lia. }
  repeat case_bool_decide; try destruct (Z.even _);
    apply elem_of_cons in Hin as [->|Hin];
    try (apply list_elem_of_singleton in Hin as ->); lia.
Qed.

Lemma shortest_nonneg (n : Z) : 0 ≤ n → 0 ≤ shortest n.
Proof.
  intros Hn. unfold shortest. set (l := mjoin _).
  assert (∀ c, c ∈ l → 0 ≤ c) as Hall.
  { intros c Hc. apply list_elem_of_join in Hc as (l' & Hc & Hl').
    apply list_elem_of_fmap in Hl' as (k & -> & _). by eapply candidates_nonneg. }
  destruct l as [|c l']; [done|]. cbn. apply Hall, list_elem_of_here.
Qed.

Lemma positive_to_string_head (n : Z) :
  0 ≤ n → ∃ d rest, positive_to_string n = String d rest ∧ is_digit d.
Proof.
  intros Hn. unfold positive_to_string. pose proof (shortest_nonneg n Hn).
  case_bool_decide; [by apply pretty_Z_head|by apply exponential_head].
Qed.

Section Signs.
Local Open Scope Q_scope.

Lemma negative_number_true (x : Q) : negative_number x = true ↔ x < 0.
Proof.
  unfold negative_number. rewrite negb_true_iff. split.
  - intros H. apply Qnot_le_lt. intros Hle. apply Qle_bool_iff in Hle. congruence.
  - intros H. destruct (Qle_bool 0 x) eqn:E; [|done]. apply Qle_bool_iff in E. lra.
Qed.

Lemma negative_number_false (x : Q) : negative_number x = false ↔ 0 <= x.
Proof.
  unfold negative_number. rewrite negb_false_iff. apply Qle_bool_iff.
Qed.

Lemma lessThan_Finite (x y : Q) : lessThan (Finite x) (Finite y) = true ↔ x < y.
Proof.
  cbn. rewrite negb_true_iff. split.
  - intros H. apply Qnot_le_lt. intros Hle. apply Qle_bool_iff in Hle. congruence.
  - intros H. destruct (Qle_bool y x) eqn:E; [|done]. apply Qle_bool_iff in E. lra.
Qed.

Lemma lessThan_Finite_false (x y : Q) : lessThan (Finite x) (Finite y) = false ↔ y <= x.
Proof. cbn. rewrite negb_false_iff. apply Qle_bool_iff. Qed.

(** [toFixed] starts with the minus sign for the negative numbers only,
    and never with the plus sign. *)
Lemma toFixed_head (a : double) (f : nat) :
  ∃ d rest, toFixed a f = String d rest
    ∧ (d = "-"%char → lessThan a (literal 0) = true) ∧ d ≠ "+"%char.
Proof.
  destruct a as [|[]|x]; cbn [toFixed].
  - by eexists _, _.
  - by eexists _, _.
  - by eexists _, _.
  - destruct (negative_number x) eqn:Hneg.
    + destruct (Qle_bool _ _); eexists _, _; (split; [done|]); split; try done;
        intros _; apply lessThan_Finite; by apply negative_number_true.
    + assert (∀ d, is_digit d → (d = "-"%char → lessThan (Finite x) (literal 0) = true)
                                 ∧ d ≠ "+"%char) as Hdigit.
      { intros d Hd. apply digit_not_sign in Hd as [? ?]. by split. }
      destruct (Qle_bool _ _).
      * destruct (positive_to_string_head (Qfloor (Qabs x))) as (d & rest & -> & Hd).
        { change (Qfloor 0 ≤ Qfloor (Qabs x))%Z. apply Qfloor_resp_le, Qabs_nonneg. }
        exists d, rest. split; [done|]. by apply Hdigit.
      * set (n := half_up _).
        assert (0 ≤ n)%Z as Hn.
        { unfold n, half_up.
          change (Qfloor 0 ≤ Qfloor (Qabs x * inject_Z (10 ^ Z.of_nat f) + (1 # 2)))%Z.
          apply Qfloor_resp_le. pose proof (Qabs_nonneg x).
          assert (0 <= inject_Z (10 ^ Z.of_nat f)).
          { change 0 with (inject_Z 0). rewrite <- Zle_Qle. by apply Z.pow_nonneg. }
          nra. }
        destruct (pretty_Z_head (n `div` 10 ^ Z.of_nat f)) as (d & rest & -> & Hd).
        { apply Z.div_pos; [done|]. apply Z.pow_pos_nonneg; lia. }
        eexists d, _. split; [done|]. by apply Hdigit.
Qed.

Lemma positive_fl (x : Q) : lessThan (literal 0) (fl x) = true → 0 < x.
Proof.
  unfold fl, literal. change (inject_Z 0) with 0.
  destruct (Qle_bool (2 ^ 1024) (Qabs (round53 x))) eqn:Hle; intros H.
  - cbn in H. apply negb_true_iff, negative_number_false in H.
    apply Qle_bool_iff in Hle. pose proof (pow2_pos 1024).
    destruct (Qlt_le_dec 0 x) as [|Hx]; [done|]. apply round53_nonpos in Hx.
    assert (round53 x == 0) as E by lra. apply Qabs_wd in E. change (Qabs 0) with 0 in E. lra.
  - apply lessThan_Finite in H.
    destruct (Qlt_le_dec 0 x) as [|Hx]; [done|]. apply round53_nonpos in Hx. lra.
Qed.

Lemma negative_fl (x : Q) : lessThan (fl x) (literal 0) = true → x < 0.
Proof.
  unfold fl, literal. change (inject_Z 0) with 0.
  destruct (Qle_bool (2 ^ 1024) (Qabs (round53 x))) eqn:Hle; intros H.
  - cbn in H. apply negative_number_true in H.
    destruct (Qlt_le_dec x 0) as [|Hx]; [done|]. apply round53_nonneg in Hx. lra.
  - apply lessThan_Finite in H.
    destruct (Qlt_le_dec x 0) as [|Hx]; [done|]. apply round53_nonneg in Hx. lra.
Qed.

Lemma mul_100_positive (b : double) :
  lessThan (literal 0) (multiply b (literal 100)) = true → lessThan (literal 0) b = true.
Proof.
  destruct b as [|[]|g]; try done. intros H. apply positive_fl in H.
  apply lessThan_Finite. change (inject_Z 0) with 0. change (inject_Z 100) with 100 in H. lra.
Qed.

Lemma mul_100_negative (b : double) :
  lessThan (multiply b (literal 100)) (literal 0) = true → lessThan b (literal 0) = true.
Proof.
  destruct b as [|[]|g]; try done. intros H. apply negative_fl in H.
  apply lessThan_Finite. change (inject_Z 0) with 0. change (inject_Z 100) with 100 in H. lra.
Qed.

Lemma div_positive (a : double) (p : Q) :
  0 < p → lessThan (literal 0) (divide a (Finite p)) = true → lessThan (literal 0) a = true.
Proof.
  intros Hp. assert (negative_number p = false) as Hn by (apply negative_number_false; lra).
  destruct a as [|[]|d]; cbn [divide]; rewrite ?Hn; try done. intros H. apply positive_fl in H.
  apply lessThan_Finite. change (inject_Z 0) with 0.
  destruct (Qlt_le_dec 0 d) as [|Hd]; [done|]. exfalso.
  assert (d / p <= 0); [|lra]. apply Qle_shift_div_r; lra.
Qed.

Lemma div_negative (a : double) (p : Q) :
  0 < p → lessThan (divide a (Finite p)) (literal 0) = true → lessThan a (literal 0) = true.
Proof.
  intros Hp. assert (negative_number p = false) as Hn by (apply negative_number_false; lra).
  destruct a as [|[]|d]; cbn [divide]; rewrite ?Hn; try done. intros H. apply negative_fl in H.
  apply lessThan_Finite. change (inject_Z 0) with 0.
  destruct (Qlt_le_dec d 0) as [|Hd]; [done|]. exfalso.
  assert (0 <= d / p); [|lra]. apply Qle_shift_div_l; lra.
Qed.
End Signs.

(** ** Durations *)

Section Durations.
Local Open Scope Q_scope.

(** The two numbers shown for a duration of a minute at least, below
    [2^53] seconds: the quotient by sixty is rounded before its integer
    part is taken, which does not change it. *)
Lemma formatDuration_minutes (x : Q) :
  representable x → 60 <= x → x < 2 ^ 53 →
  let m := Qfloor (x / 60) in
  let r := half_up (x - 60 * inject_Z m) in
  formatDuration (Finite x) = pretty m +:+ "m " +:+ pretty r +:+ "s"
  ∧ (1 ≤ m)%Z ∧ (0 ≤ r ≤ 60)%Z
  ∧ x - (1 # 2) < inject_Z (60 * m + r) ∧ inject_Z (60 * m + r) <= x + (1 # 2)
  ∧ (r = 60%Z ↔ 60 * inject_Z m + (119 # 2) <= x).
Proof.
  intros Hrep H60 H53 m r.
  pose proof (floor_div_60 x Hrep H60 H53) as Hfloor.
  set (q := x / 60) in *.
  assert (q * 60 == x) as Hq by (unfold q; field).
  destruct (Qfloor_bounds q) as [Hm1 Hm2]. fold m in Hm1, Hm2.
  assert (inject_Z (2 ^ 53) == 2 ^ 53) as E53 by (by apply pow2_Z).
  assert (1 ≤ m)%Z as Hm.
  { assert (0 < m)%Z; [|lia]. apply inject_Z_lt_inv. change (inject_Z 0) with 0. lra. }
  assert (m < 2 ^ 53)%Z as Hm53.
  { apply inject_Z_lt_inv. lra. }
  destruct (half_up_bounds (x - 60 * inject_Z m)) as [Hr1 Hr2]. fold r in Hr1, Hr2.
  assert (0 ≤ r ≤ 60)%Z as Hr.
  { split.
    - assert (-1 < r)%Z; [|lia]. apply inject_Z_lt_inv. change (inject_Z (-1)) with (-1 # 1). lra.
    - assert (r < 61)%Z; [|lia]. apply inject_Z_lt_inv. change (inject_Z 61) with 61. lra. }
  split; [|split; [done|split; [done|split; [|split]]]].
  - unfold formatDuration.
    assert (lessThan (Finite x) (literal 60) = false) as ->.
    { apply lessThan_Finite_false. by change (inject_Z 60) with 60. }
    unfold literal. cbn [divide remainder]. change (inject_Z 60) with 60.
    change (Qeq_bool 60 0) with false. cbv iota.
    rewrite fl_finite.
    2:{ assert (Qabs q == q) as E by (apply Qabs_pos; lra).
        pose proof (pow2_lt 53 1023 ltac:(lia)). fold q. lra. }
    cbn [Math_floor Math_round_double]. fold q.
    rewrite Hfloor. fold m.
    assert (truncate q = m) as ->.
    { unfold truncate. assert (negative_number q = false) as ->; [|done].
      apply negative_number_false. lra. }
    fold r. rewrite !ToString_exact; [done|..].
    + rewrite Z.abs_eq by lia. assert (60 < 2 ^ 53)%Z by done. lia.
    + rewrite Z.abs_eq by lia. done.
  - rewrite inject_Z_plus, inject_Z_mult. change (inject_Z 60) with 60. lra.
  - rewrite inject_Z_plus, inject_Z_mult. change (inject_Z 60) with 60. lra.
  - split.
    + intros Hr60. rewrite Hr60 in Hr2. change (inject_Z 60) with 60 in Hr2. lra.
    + intros H. assert (59 < r)%Z; [|lia].
      apply inject_Z_lt_inv. change (inject_Z 59) with 59.
      destruct (Qfloor_bounds (x - 60 * inject_Z m + (1 # 2))) as [_ H2].
      fold (half_up (x - 60 * inject_Z m)) in H2. fold r in H2. lra.
Qed.
End Durations.

Section WholeSeconds.
Local Open Scope Q_scope.

(** X13.  For a duration of a minute at least, below [2^53] seconds,
    [formatDuration] shows the whole minutes, one at least, and the
    remaining seconds rounded to the nearest integer: the division by
    sixty, which is rounded to a double-precision number, has the integer
    part of the exact quotient, so that what is shown is within half a
    second of the duration.  The seconds shown lie between 0 and 60, both
    included: when the remaining seconds are 59.5 or more they are shown
    as 60, not as one more minute. *)
Theorem X13_formatDuration_minutes_and_seconds (x : Q) :
  representable x → 60 <= x → x < 2 ^ 53 →
  let m := Qfloor (x / 60) in
  let r := half_up (x - 60 * inject_Z m) in
  formatDuration (Finite x) = pretty m +:+ "m " +:+ pretty r +:+ "s"
  ∧ (1 ≤ m)%Z ∧ (0 ≤ r ≤ 60)%Z
  ∧ x - (1 # 2) < inject_Z (60 * m + r) ∧ inject_Z (60 * m + r) <= x + (1 # 2)
  ∧ (r = 60%Z ↔ 60 * inject_Z m + (119 # 2) <= x).
Proof. apply formatDuration_minutes. Qed.

(** A duration of 119.5 seconds is shown as one minute and sixty seconds. *)
Lemma X13_formatDuration_minutes_and_seconds_witness :
  formatDuration (Finite (239 # 2)) = "1m 60s"%string.
Proof.
  destruct (X13_formatDuration_minutes_and_seconds (239 # 2)) as (Hs & _).
  - vm_compute. reflexivity.
  - vm_compute. intros H. discriminate H.
  - vm_compute. reflexivity.
  - rewrite Hs. vm_compute. reflexivity.
Defined.

(** X14.  For a whole number of seconds below [2^53] in magnitude
    [formatDuration] is exact: below a minute (negative numbers included)
    it shows the number followed by [s]; from a minute on it shows the
    quotient and the remainder of the division by 60, so that the seconds
    shown are below 60 and the minutes and seconds shown add up to the
    duration. *)
Theorem X14_formatDuration_whole_seconds (n : Z) :
  ((- 2 ^ 53 < n < 60)%Z → formatDuration (literal n) = pretty n +:+ "s")
  ∧ ((60 ≤ n < 2 ^ 53)%Z →
       formatDuration (literal n)
       = pretty (n `div` 60)%Z +:+ "m " +:+ pretty (n `mod` 60)%Z +:+ "s"
       ∧ (0 ≤ n `mod` 60 < 60)%Z ∧ (60 * (n `div` 60) + n `mod` 60 = n)%Z).
Proof.
  split.
  - intros Hn. unfold formatDuration.
    assert (lessThan (literal n) (literal 60) = true) as ->.
    { apply lessThan_Finite. rewrite <- Zlt_Qlt. lia. }
    unfold literal. cbn [Math_round_double]. rewrite half_up_Z.
    rewrite ToString_exact; [done|]. lia.
  - intros Hn.
    assert (inject_Z (2 ^ 53) == 2 ^ 53) as E53 by (by apply pow2_Z).
    destruct (formatDuration_minutes (inject_Z n)) as (Hs & _).
    + apply round53_integer. lia.
    + change 60 with (inject_Z 60). rewrite <- Zle_Qle. lia.
    + rewrite <- E53, <- Zlt_Qlt. lia.
    + change 60 with (inject_Z 60) in Hs. rewrite Qfloor_div_Z in Hs by done.
      pose proof (Z.div_mod n 60 ltac:(lia)) as Hdm.
      assert (half_up (inject_Z n - inject_Z 60 * inject_Z (n `div` 60)) = n `mod` 60)%Z
        as Hr.
      { rewrite <- (half_up_Z (n `mod` 60)). apply half_up_comp.
        rewrite <- inject_Z_mult. unfold Qminus. rewrite <- inject_Z_opp, <- inject_Z_plus.
        apply inject_Z_injective. lia. }
      rewrite Hr in Hs. split; [done|]. split; [by apply Z.mod_pos_bound|lia].
Qed.

(** Five seconds below zero are shown as such; 125 seconds are shown as two
    minutes and five seconds. *)
Lemma X14_formatDuration_whole_seconds_witness :
  formatDuration (literal (-5)) = "-5s"%string
  ∧ formatDuration (literal 125) = "2m 5s"%string.
Proof.
  split.
  - destruct (X14_formatDuration_whole_seconds (-5)) as [Hs _].
    rewrite Hs by lia. vm_compute. reflexivity.
  - destruct (X14_formatDuration_whole_seconds 125) as [_ Hm].
    destruct Hm as (Hm & _); [lia|]. rewrite Hm. vm_compute. reflexivity.
Defined.
End WholeSeconds.

(** ** Growth *)

Section Growth.
Local Open Scope Q_scope.

Lemma growth_sign_general (c p : Q) :
  0 < p →
  let growth := multiply (divide (subtract (Finite c) (Finite p)) (Finite p)) (literal 100) in
  (lessThan (literal 0) growth = true → p < c) ∧ (lessThan growth (literal 0) = true → c < p).
Proof.
  intros Hp growth. split; intros H.
  - apply mul_100_positive, div_positive in H; [|done]. cbn [subtract] in H.
    apply positive_fl in H. lra.
  - apply mul_100_negative, div_negative in H; [|done]. cbn [subtract] in H.
    apply negative_fl in H. lra.
Qed.

(** The growth of a count over a count that is not zero is a finite
    number with the sign of the difference of the counts. *)
Lemma growth_counts (c p : Z) :
  (0 ≤ c < 2 ^ 53)%Z → (0 < p < 2 ^ 53)%Z →
  ∃ g, multiply (divide (subtract (literal c) (literal p)) (literal p)) (literal 100) = Finite g
       ∧ ((p < c)%Z → 0 < g) ∧ ((c < p)%Z → g < 0) ∧ (c = p → g = 0).
Proof.
  intros Hc Hp. unfold literal. cbn [subtract].
  assert (inject_Z (2 ^ 53) == 2 ^ 53) as E53 by (by apply pow2_Z).
  pose proof (pow2_lt 53 1023 ltac:(lia)) as H1023.
  pose proof (pow2_pos (-1022)) as P1022.
  pose proof (pow2_le (-1022) (-54) ltac:(lia)) as H54.
  assert (2 ^ (-54) == 1 # 18014398509481984) as E54 by reflexivity.
  assert (2 ^ (-53) == 1 # 9007199254740992) as Em53 by reflexivity.
  assert (2 ^ 53 == 9007199254740992) as Ep53 by reflexivity.
  assert (0 < inject_Z p) as Hp0 by (change 0 with (inject_Z 0); rewrite <- Zlt_Qlt; lia).
  assert (inject_Z p < 2 ^ 53) as Hp53 by (rewrite <- E53, <- Zlt_Qlt; lia).
  assert (1 <= inject_Z p) as Hp1.
  { change 1 with (inject_Z 1). rewrite <- Zle_Qle. lia. }
  (* the difference is not rounded *)
  set (d := (c - p)%Z).
  assert (inject_Z c - inject_Z p == inject_Z d) as Ed.
  { unfold d, Z.sub, Qminus. by rewrite inject_Z_plus, inject_Z_opp. }
  assert (round53 (inject_Z c - inject_Z p) == inject_Z d) as Hd.
  { rewrite (round53_comp _ _ Ed). apply round53_integer. lia. }
  rewrite fl_finite.
  2:{ rewrite (Qabs_wd _ _ Ed), Qabs_inject_Z.
      assert (inject_Z (Z.abs d) < 2 ^ 53) by (rewrite <- E53, <- Zlt_Qlt; lia). lra. }
  cbn [divide]. set (d0 := round53 (inject_Z c - inject_Z p)) in *.
  destruct (decide (c = p)) as [Heq|Hne].
  { (* no growth *)
    assert (d0 == 0) as Ed0 by (rewrite Hd; unfold d; by replace (c - p)%Z with 0%Z by lia).
    assert (d0 / inject_Z p == 0) as Eq0 by (rewrite Ed0; field; lra).
    assert (fl (d0 / inject_Z p) = Finite 0) as ->.
    { unfold fl. by rewrite (round53_zero _ Eq0). }
    cbn [multiply]. exists (round53 (0 * inject_Z 100)).
    split; [by apply fl_finite|]. split; [lia|]. split; [lia|done]. }
  (* the quotient, and its product by 100, keep the sign *)
  assert (1 <= Qabs (inject_Z d)) as Hd1.
  { rewrite Qabs_inject_Z. change 1 with (inject_Z 1). rewrite <- Zle_Qle. lia. }
  assert (Qabs (inject_Z d) < 2 ^ 53) as Hd53.
  { rewrite Qabs_inject_Z, <- E53, <- Zlt_Qlt. lia. }
  set (y := d0 / inject_Z p).
  assert (y * inject_Z p == d0) as Hy by (unfold y; field; lra).
  assert (Qabs y * inject_Z p == Qabs (inject_Z d)) as Hay.
  { rewrite <- Hd, <- Hy, Qabs_Qmult.
    assert (Qabs (inject_Z p) == inject_Z p) as -> by (apply Qabs_pos; lra). reflexivity. }
  assert (2 ^ (-53) < Qabs y) as Hy1.
  { pose proof (Qabs_nonneg y). nra. }
  assert (Qabs y < 2 ^ 53) as Hy2.
  { pose proof (Qabs_nonneg y). nra. }
  pose proof (pow2_le (-1022) (-53) ltac:(lia)) as H53.
  rewrite fl_finite by lra. cbn [multiply].
  pose proof (round53_relative y ltac:(lra)) as Hrel.
  set (g0 := round53 y) in *.
  assert (Qabs y * (1 # 2) <= Qabs g0 ∧ Qabs g0 <= Qabs y * 2) as [Hg1 Hg2].
  { pose proof (Qabs_nonneg y). pose proof (Qabs_triangle_reverse g0 y) as T1.
    pose proof (Qabs_triangle_reverse y g0) as T2.
    rewrite (Qabs_Qminus y g0) in T2. split; nra. }
  assert (Qabs (g0 * inject_Z 100) == Qabs g0 * 100) as Ea by (by rewrite Qabs_Qmult).
  rewrite fl_finite by (rewrite Ea; lra).
  eexists. split; [done|].
  assert ((0 < d)%Z → 0 < g0 * inject_Z 100) as Hpos.
  { intros Hdp. change (inject_Z 100) with 100.
    assert (0 < inject_Z d) as Hdq by (change 0 with (inject_Z 0); by rewrite <- Zlt_Qlt).
    assert (0 < y) by nra.
    assert (Qabs y == y) as Eay by (apply Qabs_pos; lra).
    apply Qabs_Qle_condition in Hrel. nra. }
  assert ((d < 0)%Z → g0 * inject_Z 100 < 0) as Hneg.
  { intros Hdn. change (inject_Z 100) with 100.
    assert (inject_Z d < 0) as Hdq by (change 0 with (inject_Z 0); by rewrite <- Zlt_Qlt).
    assert (y < 0) by nra.
    assert (Qabs y == - y) as Eay by (apply Qabs_neg; lra).
    apply Qabs_Qle_condition in Hrel. nra. }
  split; [|split; [|done]].
  - intros Hlt. apply round53_pos.
    specialize (Hpos ltac:(lia)).
    assert (Qabs (g0 * inject_Z 100) == g0 * inject_Z 100) as Eg by (apply Qabs_pos; lra).
    lra.
  - intros Hlt. apply round53_neg.
    specialize (Hneg ltac:(lia)).
    assert (Qabs (g0 * inject_Z 100) == - (g0 * inject_Z 100)) as Eg by (apply Qabs_neg; lra).
    lra.
Qed.
End Growth.

Section GrowthText.
Local Open Scope Q_scope.

Lemma is_zero_false (p : Q) : ¬ p == 0 → is_zero (Finite p) = false.
Proof.
  intros Hp. cbn. destruct (Qeq_bool p 0) eqn:E; [|done]. by apply Qeq_bool_iff in E.
Qed.

Lemma toFixed_negative (g : Q) (f : nat) :
  g < 0 → ∃ rest, toFixed (Finite g) f = String "-" rest.
Proof.
  intros Hg. apply negative_number_true in Hg. cbn [toFixed]. rewrite Hg.
  destruct (Qle_bool _ _); by eexists.
Qed.

(** X15.  The growth shown for a metric.  Without a previous value (absent
    or zero) it is "+100%" when the current value is above zero and "0%"
    otherwise.  With a finite previous value above zero and a finite
    current value, a text that starts with the plus sign tells that the
    metric has grown, and one that starts with the minus sign that it has
    shrunk.  For counts (integers below [2^53]) the converse holds as well:
    the text starts with the plus sign exactly when the count has grown,
    with the minus sign exactly when it has shrunk, and it is "0.0%" when
    it is unchanged; and it starts with the minus sign exactly when the
    class of the text is "text-negative". *)
Theorem X15_calculateGrowth_sign (current previous : option double) :
  let text := calculateGrowth current previous in
  (is_zero (or_zero previous) = true →
     text = if lessThan (literal 0) (or_zero current) then "+100%"%string else "0%"%string)
  ∧ (∀ c p : Q, current = Some (Finite c) → previous = Some (Finite p) → 0 < p →
       ((∃ rest, text = String "+" rest) → p < c)
       ∧ ((∃ rest, text = String "-" rest) → c < p))
  ∧ (∀ c p : Z, current = Some (literal c) → previous = Some (literal p) →
       (0 ≤ c < 2 ^ 53)%Z → (0 < p < 2 ^ 53)%Z →
       ((∃ rest, text = String "+" rest) ↔ (p < c)%Z)
       ∧ ((∃ rest, text = String "-" rest) ↔ (c < p)%Z)
       ∧ (c = p → text = "0.0%"%string)
       ∧ (growth_class current previous = "text-negative"%string
          ↔ ∃ rest, text = String "-" rest)).
Proof.
  intros text. subst text. split; [|split].
  - intros Hz. unfold calculateGrowth. by rewrite Hz.
  - intros c p -> -> Hp. unfold calculateGrowth. cbv zeta. cbn [or_zero default from_option id].
    rewrite is_zero_false by lra.
    destruct (growth_sign_general c p Hp) as [Hpos Hneg].
    set (growth := multiply (divide (subtract (Finite c) (Finite p)) (Finite p)) (literal 100)) in *.
    destruct (toFixed_head growth 1) as (d & rest' & Hfixed & Hminus & Hplus).
    rewrite Hfixed. destruct (lessThan (literal 0) growth) eqn:Hlt.
    + split; [intros _; by apply Hpos|]. intros [rest [=]].
    + split; intros [rest [= -> _]]; [done|]. by apply Hneg, Hminus.
  - intros c p -> -> Hc Hp. unfold calculateGrowth. cbv zeta. cbn [or_zero default from_option id].
    assert (0 < inject_Z p) as Hp0 by (change 0 with (inject_Z 0); rewrite <- Zlt_Qlt; lia).
    assert (is_zero (literal p) = false) as Hz by (apply is_zero_false; lra). rewrite Hz.
    destruct (growth_counts c p Hc Hp) as (g & -> & Hpos & Hneg & Hzero).
    assert (growth_class (Some (literal c)) (Some (literal p)) = "text-negative"%string
            ↔ (c < p)%Z) as Hclass.
    { unfold growth_class, literal. cbn [or_zero default from_option id lessThanOrEqual].
      destruct (Qle_bool (inject_Z p) (inject_Z c)) eqn:Hle.
      - apply Qle_bool_iff in Hle. rewrite <- Zle_Qle in Hle. split; [done|lia].
      - split; [intros _|done]. destruct (Z_lt_ge_dec c p) as [|Hge]; [done|].
        assert (p ≤ c)%Z as Hle' by lia. rewrite Zle_Qle in Hle'.
        apply Qle_bool_iff in Hle'. congruence. }
    rewrite Hclass.
    destruct (Z.lt_trichotomy c p) as [Hlt|[Heq|Hgt]].
    + specialize (Hneg Hlt).
      assert (lessThan (literal 0) (Finite g) = false) as ->.
      { apply lessThan_Finite_false. change (inject_Z 0) with 0. lra. }
      destruct (toFixed_negative g 1 Hneg) as [rest ->].
      split; [split; [intros [? [=]]|lia]|]. split; [split; [done|by eexists]|].
      split; [lia|]. split; [by eexists|done].
    + rewrite (Hzero Heq).
      split; [split; [intros [? [=]]|lia]|]. split; [split; [intros [? [=]]|lia]|].
      split; [done|]. split; [lia|intros [? [=]]].
    + specialize (Hpos Hgt).
      assert (lessThan (literal 0) (Finite g) = true) as ->.
      { apply lessThan_Finite. by change (inject_Z 0) with 0. }
      split; [split; [done|by eexists]|]. split; [split; [intros [? [=]]|lia]|].
      split; [lia|]. split; [lia|intros [? [=]]].
Qed.

(** From 80 to 121 the growth is shown as 51.2 percent, although it is
    51.25 percent: the quotient is rounded to a number just below. *)
Lemma X15_calculateGrowth_sign_witness :
  calculateGrowth (Some (literal 121)) (Some (literal 80)) = "+51.2%"%string
  ∧ (∃ rest, calculateGrowth (Some (literal 99)) (Some (literal 100)) = String "-" rest).
Proof.
  split; [vm_compute; reflexivity|].
  destruct (X15_calculateGrowth_sign (Some (literal 99)) (Some (literal 100)))
    as (_ & _ & Hcounts).
  destruct (Hcounts 99%Z 100%Z) as (_ & Hminus & _); [reflexivity|reflexivity|lia|lia|].
  apply Hminus. lia.
Defined.
End GrowthText.

(** ** Counts *)

Section Counts.
Local Open Scope Q_scope.

Lemma append_empty_r (s : string) : (s +:+ "")%string = s.
Proof.
  induction s as [|a s IH]; [done|].
  change (String a (s +:+ "") = String a s). by rewrite IH.
Qed.

(** A whole number below [10^21] in magnitude is written in full by
    [toFixed(0)]. *)
Lemma toFixed_0_integer (n : Z) :
  (Z.abs n < 10 ^ 21)%Z → toFixed (literal n) 0 = pretty n.
Proof.
  intros Hn. unfold toFixed, literal.
  assert (Qle_bool (inject_Z (10 ^ 21)) (Qabs (inject_Z n)) = false) as ->.
  { destruct (Qle_bool _ _) eqn:E; [|done]. apply Qle_bool_iff in E.
    rewrite Qabs_inject_Z, <- Zle_Qle in E. lia. }
  change (10 ^ Z.of_nat 0)%Z with 1%Z. rewrite !Z.div_1_r. rewrite decide_True by done.
  assert (half_up (Qabs (inject_Z n) * inject_Z 1) = Z.abs n) as ->.
  { rewrite <- (half_up_Z (Z.abs n)). apply half_up_comp.
    rewrite Qabs_inject_Z. change (inject_Z 1) with 1. ring. }
  destruct n as [|p|p].
  - done.
  - assert (negative_number (inject_Z (Z.pos p)) = false) as ->; [|by rewrite append_empty_r].
    apply negative_number_false. change 0 with (inject_Z 0). by rewrite <- Zle_Qle.
  - assert (negative_number (inject_Z (Z.neg p)) = true) as ->; [|by rewrite append_empty_r].
    apply negative_number_true. change 0 with (inject_Z 0). by rewrite <- Zlt_Qlt.
Qed.

(** X16.  The count shown.  An absent count, and one that is not a
    number, is shown as "0".  A whole number below a thousand, negative
    ones included down to [-10^21], is shown in full, without suffix.  A
    count from 999950 up to, but not including, a million is shown as
    "1000.0K": the rounding to one decimal takes place after the suffix has
    been chosen. *)
Theorem X16_formatNumber_edges :
  formatNumber None = "0"%string
  ∧ formatNumber (Some NaN) = "0"%string
  ∧ (∀ n : Z, (- 10 ^ 21 < n < 1000)%Z → formatNumber (Some (literal n)) = pretty n)
  ∧ (∀ x : Q, 999950 <= x → x < 1000000 →
       formatNumber (Some (Finite x)) = "1000.0K"%string).
Proof.
  split; [done|]. split; [done|]. split.
  - intros n Hn. unfold formatNumber, literal. cbn [isNaN lessThanOrEqual].
    assert (Qle_bool (inject_Z 1000000) (inject_Z n) = false) as ->.
    { destruct (Qle_bool _ _) eqn:E; [|done]. apply Qle_bool_iff in E.
      rewrite <- Zle_Qle in E. lia. }
    assert (Qle_bool (inject_Z 1000) (inject_Z n) = false) as ->.
    { destruct (Qle_bool _ _) eqn:E; [|done]. apply Qle_bool_iff in E.
      rewrite <- Zle_Qle in E. lia. }
    apply (toFixed_0_integer n). lia.
  - intros x Hlo Hhi. unfold formatNumber, literal. cbn [isNaN lessThanOrEqual].
    change (inject_Z 1000000) with 1000000. change (inject_Z 1000) with 1000.
    assert (Qle_bool 1000000 x = false) as ->.
    { destruct (Qle_bool _ _) eqn:E; [|done]. apply Qle_bool_iff in E. lra. }
    assert (Qle_bool 1000 x = true) as -> by (apply Qle_bool_iff; lra).
    cbn [divide]. set (q := x / 1000).
    assert (q * 1000 == x) as Hq by (unfold q; field).
    pose proof (pow2_pos 1023) as P1023.
    assert (2 ^ 10 <= 2 ^ 1023) as H10 by (apply pow2_le; lia).
    change (2 ^ 10) with 1024 in H10.
    assert (Qabs q == q) as Eaq by (apply Qabs_pos; lra).
    rewrite fl_finite by lra.
    (* the quotient is rounded to a number from 999.95 to 1000 *)
    assert (99995 # 100 <= round53 q) as Hr1.
    { assert (round53 (99995 # 100) <= round53 q) as Hle by (apply round53_le; lra).
      assert (99995 # 100 <= round53 (99995 # 100)) as Hc by (by vm_compute).
      lra. }
    assert (round53 q <= 1000) as Hr2.
    { assert (round53 q <= round53 (inject_Z 1000)) as Hle.
      { apply round53_le; [lra|]. change (inject_Z 1000) with 1000. lra. }
      rewrite round53_integer in Hle by done. by change (inject_Z 1000) with 1000 in Hle. }
    set (r := round53 q) in *. unfold toFixed.
    assert (negative_number r = false) as -> by (apply negative_number_false; lra).
    assert (Qabs r == r) as Ear by (apply Qabs_pos; lra).
    assert (Qle_bool (inject_Z (10 ^ 21)) (Qabs r) = false) as ->.
    { destruct (Qle_bool _ _) eqn:E; [|done]. apply Qle_bool_iff in E.
      assert (1000 < inject_Z (10 ^ 21)) by (by vm_compute). lra. }
    assert (half_up (Qabs r * inject_Z (10 ^ Z.of_nat 1)) = 10000%Z) as ->; [|done].
    unfold half_up. change (inject_Z (10 ^ Z.of_nat 1)) with 10.
    apply Qfloor_unique; change (inject_Z 10000) with 10000; lra.
Qed.

(** 999 is shown in full, 999999 as a thousand thousands; and 1150 is
    shown as 1.1K: the quotient 1.15 is a number just below. *)
Lemma X16_formatNumber_edges_witness :
  formatNumber (Some (literal 999)) = "999"%string
  ∧ formatNumber (Some (literal 999999)) = "1000.0K"%string
  ∧ formatNumber (Some (literal 1150)) = "1.1K"%string.
Proof.
  destruct X16_formatNumber_edges as (_ & _ & Hsmall & Hedge). split; [|split].
  - rewrite (Hsmall 999%Z) by lia. vm_compute. reflexivity.
  - apply Hedge; by vm_compute.
  - vm_compute. reflexivity.
Defined.
End Counts.
